(** * sentiment: a multinomial Naive Bayes text classifier (Go)

    A shallow embedding of package [sentiment] (tokenizer, training,
    prediction, normalisation, evaluation, snapshots), of package
    [dataset] (the CSV loader and the train/test split) and of the parts of
    the command that compute, with the properties the specification states
    and further properties read off the code.

    Conventions of the embedding:
    - a Go [int] is a 64-bit two's-complement integer: a [Z] that every
      arithmetic operation wraps ([wrap]);
    - a Go [map[string]V] is [option (gmap string V)]: [None] is the nil
      map, which reads as empty and panics on assignment;
    - a Go [string] is a sequence of bytes, Rocq's [string];
    - a panic is the [Panic] result of the error monad [result];
    - the order in which [range] enumerates a map is not fixed by Go: every
      loop over a map takes it from a [Schedule];
    - [float64] arithmetic is the interface [Float64]; its instance [IEEE]
      is binary64 as Go computes it, with [math.Log] and [math.Exp] as
      parameters; its instance [Exact] is the same interface without
      rounding, on the extended reals. *)

From Stdlib Require Import ZArith Floats Ascii String Reals Lra Lia.
From stdpp Require Import gmap strings list fin_maps sorting.

Open Scope Z_scope.

(* ------------------------------------------------------------------ *)
(** ** Go's [int] *)

Definition MaxInt : Z := 2 ^ 63 - 1.
Definition MinInt : Z := - 2 ^ 63.

(** Two's-complement wrap-around of a mathematical integer to 64 bits. *)
Definition wrap (z : Z) : Z := (z + 2 ^ 63) mod 2 ^ 64 - 2 ^ 63.

(** [x++] on an [int]. *)
Definition incr (x : Z) : Z := wrap (x + 1).

Definition is_int (z : Z) : Prop := MinInt <= z <= MaxInt.

(* ------------------------------------------------------------------ *)
(** ** Panics *)

Inductive result (A : Type) : Type :=
| Ok (a : A)
| Panic (msg : string).
Arguments Ok {A} a.
Arguments Panic {A} msg.

#[global] Instance result_ret : MRet result := fun _ a => Ok a.
#[global] Instance result_bind : MBind result := fun _ _ k r =>
  match r with
  | Ok a => k a
  | Panic msg => Panic msg
  end.

(** Left-to-right loop over a slice whose body may panic. *)
Fixpoint for_each {A S : Type} (body : S -> A -> result S) (xs : list A) (s : S)
  : result S :=
  match xs with
  | [] => Ok s
  | x :: xs' => s' ← body s x; for_each body xs' s'
  end.

Definition nil_map_assignment : string := "assignment to entry in nil map".

(* ------------------------------------------------------------------ *)
(** ** Go maps keyed by strings *)

Abbreviation gomap V := (option (gmap string V)).

(** [make(map[string]V)] *)
Definition make {V : Type} : gomap V := Some ∅.

(** [len(m)] *)
Definition len {V : Type} (m : gomap V) : Z :=
  match m with
  | None => 0
  | Some g => Z.of_nat (size g)
  end.

(** [_, ok := m[k]] *)
Definition has_key {V : Type} (m : gomap V) (k : string) : bool :=
  match m with
  | None => false
  | Some g => bool_decide (is_Some (g !! k))
  end.

(** [m[k]] for an [int]-valued map: the zero value when [k] is absent or
    [m] is nil. *)
Definition get_int (m : gomap Z) (k : string) : Z :=
  match m with
  | None => 0
  | Some g => default 0 (g !! k)
  end.

(** [m[k]] for a map of maps: the nil map when [k] is absent or [m] is nil. *)
Definition get_map {V : Type} (m : gomap (gomap V)) (k : string) : gomap V :=
  match m with
  | None => None
  | Some g => default None (g !! k)
  end.

(** [m[k] = v]: panics on the nil map. *)
Definition map_set {V : Type} (m : gomap V) (k : string) (v : V)
  : result (gomap V) :=
  match m with
  | None => Panic nil_map_assignment
  | Some g => Ok (Some (<[k := v]> g))
  end.

(** The order of one [range] loop over a map: Go leaves it unspecified and
    randomises it, so a loop receives it as a permutation of the entries. *)
Record Schedule : Type := {
  shuffle : forall A : Type, list A -> list A;
  shuffle_perm : forall (A : Type) (l : list A), shuffle A l ≡ₚ l
}.

(** The entries [for k, v := range m] visits, in the order it visits them. *)
Definition range {V : Type} (sch : Schedule) (m : gomap V) : list (string * V) :=
  match m with
  | None => []
  | Some g => shuffle sch _ (map_to_list g)
  end.

Definition in_order : Schedule :=
  {| shuffle := fun _ l => l; shuffle_perm := fun _ l => reflexivity l |}.

Definition reversed : Schedule :=
  {| shuffle := fun _ l => reverse l;
     shuffle_perm := fun _ l => reverse_Permutation l |}.

(* ------------------------------------------------------------------ *)
(** ** Strings, runes and [strings.FieldsFunc] *)

(** A Go string is read as UTF-8 when it is ranged over. [DecodeRune] is
    [utf8.DecodeRuneInString]: the first code point of a non-empty byte
    sequence and its width in bytes; an ill-formed or truncated encoding
    decodes as [RuneError] with width 1. *)
Definition RuneError : Z := 0xFFFD.

Definition byte_val (a : ascii) : Z := Z.of_nat (nat_of_ascii a).

Definition in_range (lo hi x : Z) : bool := (lo <=? x) && (x <=? hi).

(** Width of the encoding a first byte announces and the range its second
    byte must lie in. *)
Definition first_byte (x : Z) : option (nat * Z * Z) :=
  if in_range 0xC2 0xDF x then Some (2%nat, 0x80, 0xBF)
  else if x =? 0xE0 then Some (3%nat, 0xA0, 0xBF)
  else if in_range 0xE1 0xEC x then Some (3%nat, 0x80, 0xBF)
  else if x =? 0xED then Some (3%nat, 0x80, 0x9F)
  else if in_range 0xEE 0xEF x then Some (3%nat, 0x80, 0xBF)
  else if x =? 0xF0 then Some (4%nat, 0x90, 0xBF)
  else if in_range 0xF1 0xF3 x then Some (4%nat, 0x80, 0xBF)
  else if x =? 0xF4 then Some (4%nat, 0x80, 0x8F)
  else None.

Definition low6 (x : Z) : Z := Z.land x 0x3F.

Definition DecodeRune (bs : list ascii) : Z * nat :=
  match bs with
  | [] => (RuneError, 0%nat)
  | b0 :: rest =>
    let x0 := byte_val b0 in
    if x0 <? 0x80 then (x0, 1%nat)
    else
      match first_byte x0, map byte_val rest with
      | Some (2%nat, lo, hi), x1 :: _ =>
        if in_range lo hi x1
        then (Z.lor (Z.shiftl (Z.land x0 0x1F) 6) (low6 x1), 2%nat)
        else (RuneError, 1%nat)
      | Some (3%nat, lo, hi), x1 :: x2 :: _ =>
        if in_range lo hi x1 && in_range 0x80 0xBF x2
        then (Z.lor (Z.shiftl (Z.land x0 0x0F) 12)
                (Z.lor (Z.shiftl (low6 x1) 6) (low6 x2)), 3%nat)
        else (RuneError, 1%nat)
      | Some (4%nat, lo, hi), x1 :: x2 :: x3 :: _ =>
        if in_range lo hi x1 && in_range 0x80 0xBF x2 && in_range 0x80 0xBF x3
        then (Z.lor (Z.shiftl (Z.land x0 0x07) 18)
                (Z.lor (Z.shiftl (low6 x1) 12)
                   (Z.lor (Z.shiftl (low6 x2) 6) (low6 x3))), 4%nat)
        else (RuneError, 1%nat)
      | _, _ => (RuneError, 1%nat)
      end
  end.

(** [for _, r := range s]: the code points of [s], each with the bytes that
    encode it. Every step consumes at least one byte, so the length of the
    input is enough fuel. *)
Fixpoint runes_fuel (fuel : nat) (bs : list ascii) : list (Z * list ascii) :=
  match fuel, bs with
  | S fuel', _ :: _ =>
    let '(r, w) := DecodeRune bs in
    (r, take w bs) :: runes_fuel fuel' (drop w bs)
  | _, _ => []
  end.

Definition runes (bs : list ascii) : list (Z * list ascii) :=
  runes_fuel (length bs) bs.

(** The loop of [strings.FieldsFunc]: [cur] is the field being read, if one
    is open; a code point satisfying [f] closes it. *)
Fixpoint fields_loop (f : Z -> bool) (cs : list (Z * list ascii))
  (cur : option (list ascii)) : list (list ascii) :=
  match cs with
  | [] =>
    match cur with
    | Some field => [field]
    | None => []
    end
  | (r, bytes) :: cs' =>
    if f r then
      match cur with
      | Some field => field :: fields_loop f cs' None
      | None => fields_loop f cs' None
      end
    else
      match cur with
      | Some field => fields_loop f cs' (Some (field ++ bytes))
      | None => fields_loop f cs' (Some bytes)
      end
  end.

Definition FieldsFunc (s : string) (f : Z -> bool) : list string :=
  map string_of_list_ascii
    (fields_loop f (runes (list_ascii_of_string s)) None).

(** The parts of Go's [strings] and [unicode] packages the tokenizer calls;
    their case and category tables are not part of this repository. *)
Class Unicode : Type := {
  ToLower : string -> string;
  IsLetter : Z -> bool;
  IsNumber : Z -> bool
}.

(** The three functions on ASCII text, where Go computes them without its
    tables: [ToLower] maps A-Z to a-z and keeps every other byte, the
    letters below 0x80 are A-Z and a-z, the numbers are 0-9. Used to run
    the model on ASCII examples. *)
Definition ascii_lower (a : ascii) : ascii :=
  if in_range 65 90 (byte_val a) then ascii_of_nat (nat_of_ascii a + 32) else a.

Definition ascii_unicode : Unicode := {|
  ToLower s := string_of_list_ascii (map ascii_lower (list_ascii_of_string s));
  IsLetter r := in_range 65 90 r || in_range 97 122 r;
  IsNumber r := in_range 48 57 r
|}.

Section Tokenizer.
Context {uni : Unicode}.

(** The separator test [tokenize] hands to [FieldsFunc]. *)
Definition is_separator (r : Z) : bool := negb (IsLetter r) && negb (IsNumber r).

Definition tokenize (text : string) : list string :=
  let lower := ToLower text in
  FieldsFunc lower is_separator.

End Tokenizer.

(* ------------------------------------------------------------------ *)
(** ** [float64] *)

(** The [float64] operations the classifier uses. [f_gt] is [>], [f_eq] is
    [==], [of_int] is the conversion [float64(n)] of an [int]. *)
Class Float64 : Type := {
  float64 : Type;
  f_zero : float64;
  f_one : float64;
  f_add : float64 -> float64 -> float64;
  f_sub : float64 -> float64 -> float64;
  f_div : float64 -> float64 -> float64;
  f_gt : float64 -> float64 -> bool;
  f_eq : float64 -> float64 -> bool;
  of_int : Z -> float64;
  math_Inf_neg : float64;
  math_Log : float64 -> float64;
  math_Exp : float64 -> float64
}.

(** [float64(n)] on binary64: the nearest float, ties to even. *)
Definition int_to_float (z : Z) : float :=
  if z =? MinInt then (-0x1p63)%float
  else if z <? 0 then PrimFloat.opp (PrimFloat.of_uint63 (Uint63.of_Z (- z)))
  else PrimFloat.of_uint63 (Uint63.of_Z z).

(** IEEE 754 binary64, as Go computes; [math.Log] and [math.Exp] are library
    functions outside the repository and stay parameters. *)
Definition IEEE (Log Exp : float -> float) : Float64 := {|
  float64 := float;
  f_zero := 0%float;
  f_one := 1%float;
  f_add := PrimFloat.add;
  f_sub := PrimFloat.sub;
  f_div := PrimFloat.div;
  f_gt x y := PrimFloat.ltb y x;
  f_eq := PrimFloat.eqb;
  of_int := int_to_float;
  math_Inf_neg := neg_infinity;
  math_Log := Log;
  math_Exp := Exp
|}.

(** The same operations without rounding: the extended reals, with the
    special values behaving as IEEE 754 prescribes and finite values
    computed exactly. The formulas of the specification are statements
    about this arithmetic. *)
Inductive ExtR : Type :=
| NaN
| NegInf
| PosInf
| Fin (r : R).

Definition ext_neg (x : ExtR) : ExtR :=
  match x with
  | NaN => NaN
  | NegInf => PosInf
  | PosInf => NegInf
  | Fin r => Fin (- r)
  end.

Definition ext_add (x y : ExtR) : ExtR :=
  match x, y with
  | NaN, _ | _, NaN => NaN
  | PosInf, NegInf | NegInf, PosInf => NaN
  | PosInf, _ | _, PosInf => PosInf
  | NegInf, _ | _, NegInf => NegInf
  | Fin a, Fin b => Fin (a + b)
  end.

Definition ext_sub (x y : ExtR) : ExtR := ext_add x (ext_neg y).

Definition ext_div (x y : ExtR) : ExtR :=
  match x, y with
  | NaN, _ | _, NaN => NaN
  | (PosInf | NegInf), (PosInf | NegInf) => NaN
  | PosInf, Fin b => if Rlt_dec b 0 then NegInf else PosInf
  | NegInf, Fin b => if Rlt_dec b 0 then PosInf else NegInf
  | Fin _, (PosInf | NegInf) => Fin 0
  | Fin a, Fin b =>
    if Req_dec_T b 0 then
      if Req_dec_T a 0 then NaN
      else if Rlt_dec a 0 then NegInf else PosInf
    else Fin (a / b)
  end.

Definition ext_gt (x y : ExtR) : bool :=
  match x, y with
  | NaN, _ | _, NaN => false
  | PosInf, PosInf => false
  | PosInf, _ => true
  | _, PosInf => false
  | NegInf, _ => false
  | Fin _, NegInf => true
  | Fin a, Fin b => if Rlt_dec b a then true else false
  end.

Definition ext_eq (x y : ExtR) : bool :=
  match x, y with
  | PosInf, PosInf | NegInf, NegInf => true
  | Fin a, Fin b => if Req_dec_T a b then true else false
  | _, _ => false
  end.

Definition ext_log (x : ExtR) : ExtR :=
  match x with
  | NaN | NegInf => NaN
  | PosInf => PosInf
  | Fin r =>
    if Rlt_dec r 0 then NaN
    else if Req_dec_T r 0 then NegInf
    else Fin (ln r)
  end.

Definition ext_exp (x : ExtR) : ExtR :=
  match x with
  | NaN => NaN
  | NegInf => Fin 0
  | PosInf => PosInf
  | Fin r => Fin (exp r)
  end.

Definition Exact : Float64 := {|
  float64 := ExtR;
  f_zero := Fin 0;
  f_one := Fin 1;
  f_add := ext_add;
  f_sub := ext_sub;
  f_div := ext_div;
  f_gt := ext_gt;
  f_eq := ext_eq;
  of_int z := Fin (IZR z);
  math_Inf_neg := NegInf;
  math_Log := ext_log;
  math_Exp := ext_exp
|}.

(* ------------------------------------------------------------------ *)
(** ** The classifier *)

Record Document : Type := { Text : string; Label : string }.

Record NaiveBayesClassifier : Type := {
  classDocCounts : gomap Z;
  classWordCounts : gomap (gomap Z);
  classTotalWords : gomap Z;
  vocabulary : gomap unit;
  totalDocs : Z
}.

Definition NewNaiveBayesClassifier : NaiveBayesClassifier := {|
  classDocCounts := make;
  classWordCounts := make;
  classTotalWords := make;
  vocabulary := make;
  totalDocs := 0
|}.

Definition Reset (nb : NaiveBayesClassifier) : NaiveBayesClassifier := {|
  classDocCounts := make;
  classWordCounts := make;
  classTotalWords := make;
  vocabulary := make;
  totalDocs := 0
|}.

Section Training.
Context {uni : Unicode}.

(** The body of the token loop of [Train]. *)
Definition train_token (label : string) (nb : NaiveBayesClassifier)
  (token : string) : result NaiveBayesClassifier :=
  if String.eqb token "" then Ok nb
  else
    voc ← map_set (vocabulary nb) token tt;
    let words := get_map (classWordCounts nb) label in
    words' ← map_set words token (incr (get_int words token));
    cwc ← map_set (classWordCounts nb) label words';
    ctw ← map_set (classTotalWords nb) label
            (incr (get_int (classTotalWords nb) label));
    Ok {| classDocCounts := classDocCounts nb;
          classWordCounts := cwc;
          classTotalWords := ctw;
          vocabulary := voc;
          totalDocs := totalDocs nb |}.

Definition Train (nb : NaiveBayesClassifier) (text label : string)
  : result NaiveBayesClassifier :=
  let total := incr (totalDocs nb) in
  cdc ← map_set (classDocCounts nb) label
          (incr (get_int (classDocCounts nb) label));
  cwc ← (if has_key (classWordCounts nb) label
         then Ok (classWordCounts nb)
         else map_set (classWordCounts nb) label make);
  let tokens := tokenize text in
  for_each (train_token label) tokens
    {| classDocCounts := cdc;
       classWordCounts := cwc;
       classTotalWords := classTotalWords nb;
       vocabulary := vocabulary nb;
       totalDocs := total |}.

Definition TrainBatch (nb : NaiveBayesClassifier) (docs : list Document)
  : result NaiveBayesClassifier :=
  for_each (fun nb doc => Train nb (Text doc) (Label doc)) docs nb.

End Training.

Section Prediction.
Context {uni : Unicode} {fl : Float64}.

(** The three loops of [normalizeScores]. *)
Definition exp_step (bestScore : float64)
  (acc : gmap string float64 * float64) (kv : string * float64)
  : gmap string float64 * float64 :=
  let value := math_Exp (f_sub kv.2 bestScore) in
  (<[kv.1 := value]> acc.1, f_add acc.2 value).

Definition div_step (sum : float64) (normalized : gmap string float64)
  (kv : string * float64) : gmap string float64 :=
  <[kv.1 := f_div (default f_zero (normalized !! kv.1)) sum]> normalized.

Definition normalizeScores (sch : Schedule) (scores : gmap string float64)
  (bestScore : float64) : gmap string float64 :=
  if len (Some scores) =? 0 then ∅
  else
    let '(normalized, sum) :=
      foldl (exp_step bestScore) (∅, f_zero) (range sch (Some scores)) in
    if f_eq sum f_zero then normalized
    else foldl (div_step sum) normalized (range sch (Some normalized)).

(** The inner loop of [Predict]: one token's term added to [logProb]. *)
Definition add_token (nb : NaiveBayesClassifier) (class : string)
  (totalWords vocabSize : float64) (logProb : float64) (token : string)
  : float64 :=
  if String.eqb token "" then logProb
  else
    let wordCount := of_int (get_int (get_map (classWordCounts nb) class) token) in
    f_add logProb
      (math_Log (f_div (f_add wordCount f_one) (f_add totalWords vocabSize))).

(** The state of the class loop: [scores], [bestLabel], [bestScore]. *)
Record scoring : Type := {
  scores : gmap string float64;
  bestLabel : string;
  bestScore : float64
}.

Definition score_class (nb : NaiveBayesClassifier) (tokens : list string)
  (vocabSize : float64) (st : scoring) (kv : string * Z) : scoring :=
  let '(class, docCount) := kv in
  if docCount =? 0 then st
  else
    let logProb := math_Log (f_div (of_int docCount) (of_int (totalDocs nb))) in
    let totalWords := of_int (get_int (classTotalWords nb) class) in
    let logProb := foldl (add_token nb class totalWords vocabSize) logProb tokens in
    if f_gt logProb (bestScore st)
    then {| scores := <[class := logProb]> (scores st);
            bestLabel := class; bestScore := logProb |}
    else {| scores := <[class := logProb]> (scores st);
            bestLabel := bestLabel st; bestScore := bestScore st |}.

Definition score_all (sch : Schedule) (nb : NaiveBayesClassifier)
  (text : string) : scoring :=
  let tokens := tokenize text in
  let vocabSize := of_int (len (vocabulary nb)) in
  foldl (score_class nb tokens vocabSize)
    {| scores := ∅; bestLabel := ""; bestScore := math_Inf_neg |}
    (range sch (classDocCounts nb)).

Definition Predict (sch : Schedule) (nb : NaiveBayesClassifier) (text : string)
  : string * gmap string float64 :=
  let st := score_all sch nb text in
  (bestLabel st, normalizeScores sch (scores st) (bestScore st)).

(** *** Evaluation *)

Record Metrics : Type := {
  Total : Z;
  Correct : Z;
  Confusion : gmap string (gmap string Z)
}.

Definition Accuracy (m : Metrics) : float64 :=
  if Total m =? 0 then f_zero
  else f_div (of_int (Correct m)) (of_int (Total m)).

(** The state of the loop of [Evaluate]: the confusion table, [correct] and
    the number of documents seen, which selects the schedule of the next
    call of [Predict]. *)
Definition evaluate_step (rng : nat -> Schedule) (nb : NaiveBayesClassifier)
  (acc : gmap string (gmap string Z) * Z * nat) (doc : Document)
  : gmap string (gmap string Z) * Z * nat :=
  let '(confusion, correct, i) := acc in
  let predicted := (Predict (rng i) nb (Text doc)).1 in
  let correct := if String.eqb predicted (Label doc) then incr correct else correct in
  let confusion :=
    match confusion !! Label doc with
    | Some _ => confusion
    | None => <[Label doc := ∅]> confusion
    end in
  let row := default ∅ (confusion !! Label doc) in
  (<[Label doc := <[predicted := incr (default 0 (row !! predicted))]> row]> confusion,
   correct, S i).

Definition Evaluate (rng : nat -> Schedule) (nb : NaiveBayesClassifier)
  (docs : list Document) : Metrics :=
  let '(confusion, correct, _) :=
    foldl (evaluate_step rng nb) (∅, 0, 0%nat) docs in
  {| Total := Z.of_nat (length docs); Correct := correct; Confusion := confusion |}.

End Prediction.

(* ------------------------------------------------------------------ *)
(** ** Snapshots *)

Record Snapshot : Type := {
  ClassDocCounts : gomap Z;
  ClassWordCounts : gomap (gomap Z);
  ClassTotalWords : gomap Z;
  Vocabulary : list string;
  TotalDocs : Z
}.

Definition copy_entry {V : Type} (dst : gmap string V) (kv : string * V)
  : gmap string V := <[kv.1 := kv.2]> dst.

Definition copyIntMap (sch : Schedule) (src : gomap Z) : gomap Z :=
  match src with
  | None => None
  | Some _ => Some (foldl copy_entry ∅ (range sch src))
  end.

Definition copyNestedMap (sch : Schedule) (src : gomap (gomap Z))
  : gomap (gomap Z) :=
  match src with
  | None => None
  | Some _ =>
    Some (foldl (fun dst kv => <[kv.1 := copyIntMap sch kv.2]> dst) ∅
            (range sch src))
  end.

(** [sort.Strings]: ascending, bytes compared as unsigned numbers. *)
Definition string_le (a b : string) : Prop := String.leb a b = true.

#[global] Instance string_le_dec : RelDecision string_le :=
  fun a b => decide (String.leb a b = true).

Definition sort_Strings (l : list string) : list string :=
  merge_sort string_le l.

(** Method [Snapshot] of the classifier. *)
Definition TakeSnapshot (sch : Schedule) (nb : NaiveBayesClassifier) : Snapshot :=
  let vocab := (range sch (vocabulary nb)).*1 in
  {| ClassDocCounts := copyIntMap sch (classDocCounts nb);
     ClassWordCounts := copyNestedMap sch (classWordCounts nb);
     ClassTotalWords := copyIntMap sch (classTotalWords nb);
     Vocabulary := sort_Strings vocab;
     TotalDocs := totalDocs nb |}.

Definition LoadSnapshot (sch : Schedule) (nb : NaiveBayesClassifier)
  (snapshot : Snapshot) : NaiveBayesClassifier :=
  {| classDocCounts := copyIntMap sch (ClassDocCounts snapshot);
     classWordCounts := copyNestedMap sch (ClassWordCounts snapshot);
     classTotalWords := copyIntMap sch (ClassTotalWords snapshot);
     vocabulary := Some (foldl (fun voc token => <[token := tt]> voc) ∅
                           (Vocabulary snapshot));
     totalDocs := TotalDocs snapshot |}.

(* ------------------------------------------------------------------ *)
(** ** Specification-side definitions *)

(** *** The tokenizer of the specification

    Lower-case the text, split its code points at every separator, which
    leaves an empty piece between two adjacent separators, and keep the
    pieces that are not empty: the maximal runs of word characters. What a
    word character is, is said on this side too, in the words of the
    specification, and is not taken from the test the code hands to
    [FieldsFunc]. *)
Fixpoint pieces (f : Z -> bool) (cs : list (Z * list ascii))
  : list (list (Z * list ascii)) :=
  match cs with
  | [] => [[]]
  | c :: cs' =>
    if f c.1 then [] :: pieces f cs'
    else
      match pieces f cs' with
      | p :: ps => (c :: p) :: ps
      | [] => [[c]]
      end
  end.

(** The bytes a sequence of code points was decoded from. *)
Definition bytes_of (p : list (Z * list ascii)) : list ascii := concat p.*2.

(** The first piece with the code points [pre] put before it. *)
Definition open_with (pre : list (Z * list ascii))
  (ps : list (list (Z * list ascii))) : list (list (Z * list ascii)) :=
  match ps with
  | p :: ps' => (pre ++ p) :: ps'
  | [] => [pre]
  end.

Section TokenizerSpec.
Context {uni : Unicode}.

Definition lowered_runes (text : string) : list (Z * list ascii) :=
  runes (list_ascii_of_string (ToLower text)).

(** The tokens of a text when the word characters are those [word]
    accepts: every other code point separates. *)
Definition split_tokens (word : Z -> bool) (text : string) : list string :=
  map (fun p => string_of_list_ascii (bytes_of p))
    (filter (fun p => p ≠ [])
       (pieces (fun r => negb (word r)) (lowered_runes text))).

(** The word characters as the specification words them, letters and
    digits; the digits are those of [unicode.IsDigit], the category Nd. *)
Definition letter_or_digit (IsDigit : Z -> bool) (r : Z) : bool :=
  IsLetter r || IsDigit r.

Definition claimed_tokens (IsDigit : Z -> bool) (text : string) : list string :=
  split_tokens (letter_or_digit IsDigit) text.

(** The word characters with numbers for digits: [unicode.IsNumber] accepts
    the categories Nd, Nl and No. *)
Definition letter_or_number (r : Z) : bool := IsLetter r || IsNumber r.

Definition spec_tokens (text : string) : list string :=
  split_tokens letter_or_number text.

(** A token: the bytes of a non-empty run of letters and numbers of the
    lower-cased text. *)
Definition is_token (text : string) (t : string) : Prop :=
  exists p : list (Z * list ascii),
    p ≠ [] /\
    p ⊆ lowered_runes text /\
    Forall (fun c => IsLetter c.1 || IsNumber c.1 = true) p /\
    t = string_of_list_ascii (bytes_of p).

End TokenizerSpec.

(** Go's tables on Latin-1, U+0000 to U+00FF: the letters, the numbers
    (the digits, the superscripts U+00B2, U+00B3 and U+00B9, and the
    fractions U+00BC to U+00BE) and the digits. [ToLower] is the one of
    [ascii_unicode], which is Go's on texts whose letters beyond ASCII are
    lower case already. Used to run the model on Latin-1 examples. *)
Definition latin1_IsLetter (r : Z) : bool :=
  in_range 65 90 r || in_range 97 122 r ||
  (r =? 0xAA) || (r =? 0xB5) || (r =? 0xBA) ||
  in_range 0xC0 0xD6 r || in_range 0xD8 0xF6 r || in_range 0xF8 0xFF r.

Definition latin1_IsNumber (r : Z) : bool :=
  in_range 48 57 r || (r =? 0xB2) || (r =? 0xB3) || (r =? 0xB9) ||
  in_range 0xBC 0xBE r.

Definition latin1_IsDigit (r : Z) : bool := in_range 48 57 r.

Definition latin1_unicode : Unicode := {|
  ToLower := ToLower (Unicode := ascii_unicode);
  IsLetter := latin1_IsLetter;
  IsNumber := latin1_IsNumber
|}.

(** The text [a], U+00BD (one half, the bytes C2 BD in UTF-8), [b]. *)
Definition a_half_b : string :=
  String "a" (String (ascii_of_nat 194) (String (ascii_of_nat 189) "b")).

(** *** Training on allocated maps

    A classifier none of whose maps is nil, with the rows of
    [classWordCounts] allocated too. On such a state [Train] cannot panic
    and is the pure function [train_counts]. *)
Record counts : Type := {
  docs_of : gmap string Z;
  words_of : gmap string (gmap string Z);
  totals_of : gmap string Z;
  vocab_of : gmap string unit;
  total_of : Z
}.

Definition of_counts (c : counts) : NaiveBayesClassifier := {|
  classDocCounts := Some (docs_of c);
  classWordCounts := Some (Some <$> words_of c);
  classTotalWords := Some (totals_of c);
  vocabulary := Some (vocab_of c);
  totalDocs := total_of c
|}.

Definition allocated (nb : NaiveBayesClassifier) : Prop :=
  exists c : counts, nb = of_counts c.

Definition count_token (label : string) (c : counts) (token : string) : counts :=
  let row := default ∅ (words_of c !! label) in
  {| docs_of := docs_of c;
     words_of := <[label := <[token := incr (default 0 (row !! token))]> row]> (words_of c);
     totals_of := <[label := incr (default 0 (totals_of c !! label))]> (totals_of c);
     vocab_of := <[token := tt]> (vocab_of c);
     total_of := total_of c |}.

Definition count_document (label : string) (c : counts) : counts :=
  {| docs_of := <[label := incr (default 0 (docs_of c !! label))]> (docs_of c);
     words_of := match words_of c !! label with
                 | Some _ => words_of c
                 | None => <[label := ∅]> (words_of c)
                 end;
     totals_of := totals_of c;
     vocab_of := vocab_of c;
     total_of := incr (total_of c) |}.

Definition train_counts (c : counts) (tokens : list string) (label : string)
  : counts :=
  foldl (count_token label) (count_document label c) tokens.

(** The sum of the values of a map of counters, as a mathematical integer. *)
Definition sum_values (g : gmap string Z) : Z :=
  map_fold (fun _ v acc => v + acc) 0 g.

Definition total {V : Type} (sum : gmap string V -> Z) (m : gomap V) : Z :=
  match m with
  | None => 0
  | Some g => sum g
  end.

(** The invariants the specification lists for the classifier. *)
Definition model_invariant (nb : NaiveBayesClassifier) : Prop :=
  (forall L, 0 <= get_int (classDocCounts nb) L) /\
  totalDocs nb = total sum_values (classDocCounts nb) /\
  (forall L, get_int (classTotalWords nb) L =
             total sum_values (get_map (classWordCounts nb) L)) /\
  (forall t, has_key (vocabulary nb) t = true <->
             exists L, has_key (get_map (classWordCounts nb) L) t = true).

Section Reachability.
Context {uni : Unicode}.

Definition tokens_in (docs : list Document) : Z :=
  foldr (fun doc n => Z.of_nat (length (tokenize (Text doc))) + n) 0 docs.

(** [trained d w nb]: [nb] is what calls of [Train], [TrainBatch] and [Reset]
    make of the empty classifier, [d] documents with [w] tokens in all
    having been trained since it was last empty. *)
Inductive trained : Z -> Z -> NaiveBayesClassifier -> Prop :=
| trained_new : trained 0 0 NewNaiveBayesClassifier
| trained_Train d w nb text label nb' :
    trained d w nb ->
    Train nb text label = Ok nb' ->
    trained (d + 1) (w + Z.of_nat (length (tokenize text))) nb'
| trained_TrainBatch d w nb docs nb' :
    trained d w nb ->
    TrainBatch nb docs = Ok nb' ->
    trained (d + Z.of_nat (length docs)) (w + tokens_in docs) nb'
| trained_Reset d w nb :
    trained d w nb ->
    trained 0 0 (Reset nb).

Definition reachable (nb : NaiveBayesClassifier) : Prop :=
  exists d w, trained d w nb.

End Reachability.

(** What training maintains, on the counters themselves. *)
Definition counts_inv (d w : Z) (c : counts) : Prop :=
  total_of c = d /\
  sum_values (docs_of c) = d /\
  map_Forall (fun _ n => 0 < n) (docs_of c) /\
  (forall L, default 0 (totals_of c !! L) =
             sum_values (default ∅ (words_of c !! L))) /\
  sum_values (totals_of c) = w /\
  map_Forall (fun _ n => 0 <= n) (totals_of c) /\
  map_Forall (fun _ row => map_Forall (fun (_ : string) (n : Z) => 0 < n) row)
    (words_of c) /\
  (forall t, is_Some (vocab_of c !! t) <->
             exists L row, words_of c !! L = Some row /\ is_Some (row !! t)).

(** *** Example states *)

(** The snapshot every field of which is absent, as [json.Unmarshal] leaves
    it for the document [{}]. *)
Definition absent_snapshot : Snapshot := {|
  ClassDocCounts := None;
  ClassWordCounts := None;
  ClassTotalWords := None;
  Vocabulary := [];
  TotalDocs := 0
|}.

(** A snapshot whose document counters stand at the largest [int]. *)
Definition full_snapshot : Snapshot := {|
  ClassDocCounts := Some {[ "positive" := MaxInt ]};
  ClassWordCounts := Some {[ "positive" := Some {[ "good" := 1 ]} ]};
  ClassTotalWords := Some {[ "positive" := 1 ]};
  Vocabulary := ["good"];
  TotalDocs := MaxInt
|}.

Definition empty_counts : counts :=
  {| docs_of := ∅; words_of := ∅; totals_of := ∅; vocab_of := ∅; total_of := 0 |}.

(** The classifier after [n >= 1] documents with the empty text and the
    empty label. *)
Definition flooded (n : Z) : counts :=
  {| docs_of := {[ "" := wrap n ]};
     words_of := {[ "" := ∅ ]};
     totals_of := ∅;
     vocab_of := ∅;
     total_of := wrap n |}.

(** The two documents of the specification's known-example scenario. *)
Definition known_examples : list Document :=
  [ {| Text := "great and wonderful"; Label := "positive" |};
    {| Text := "terrible and awful"; Label := "negative" |} ].

Definition known_counts : counts :=
  train_counts
    (train_counts empty_counts ["great"; "and"; "wonderful"] "positive")
    ["terrible"; "and"; "awful"] "negative".

Definition known_model : NaiveBayesClassifier := of_counts known_counts.

(** *** Raw scores

    The score the specification gives a class: the logarithm of its prior,
    plus one Laplace-smoothed term per token of the text, added from left to
    right. *)
Section ScoreSpec.
Context {uni : Unicode} {fl : Float64}.

Definition log_prior (nb : NaiveBayesClassifier) (C : string) : float64 :=
  math_Log (f_div (of_int (get_int (classDocCounts nb) C)) (of_int (totalDocs nb))).

Definition log_likelihood (nb : NaiveBayesClassifier) (C token : string) : float64 :=
  math_Log
    (f_div
       (f_add (of_int (get_int (get_map (classWordCounts nb) C) token)) f_one)
       (f_add (of_int (get_int (classTotalWords nb) C))
          (of_int (len (vocabulary nb))))).

Definition raw_score (nb : NaiveBayesClassifier) (text : string) (C : string)
  : float64 :=
  foldl (fun score token => f_add score (log_likelihood nb C token))
    (log_prior nb C) (tokenize text).

End ScoreSpec.

(** The classes [Predict] scores: those whose document counter is not zero. *)
Definition scored (nb : NaiveBayesClassifier) (C : string) : Prop :=
  get_int (classDocCounts nb) C <> 0.

(** What the comparison [>] must satisfy for the class loop to keep a
    maximum. *)
Class GtOrder (fl : Float64) : Prop := {
  gt_irrefl : forall x : float64, f_gt x x = false;
  gt_trans : forall x y z : float64,
    f_gt x y = true -> f_gt y z = true -> f_gt x z = true
}.


(** A state and a text on which no score of the exact arithmetic is
    infinite or undefined. *)
Section Sane.
Context {uni : Unicode}.


End Sane.

(** Values of [math.Log] and [math.Exp] at the arguments the examples
    below reach, rounded to binary64, with the special cases the package
    documents: [Log(x < 0) = NaN], [Log(0) = -Inf], [Log(+Inf) = +Inf],
    [Log(NaN) = NaN], [Exp(NaN) = NaN], [Exp(+Inf) = +Inf],
    [Exp(-Inf) = 0], [Exp(0) = 1]. Elsewhere they are not meant. *)
Definition sample_Log (x : float) : float :=
  if PrimFloat.eqb x 1 then 0
  else if PrimFloat.eqb x 0.5 then (-0x1.62e42fefa39efp-1)
  else if PrimFloat.eqb x 0.25 then (-0x1.62e42fefa39efp+0)
  else if PrimFloat.eqb x 0.125 then (-0x1.0a2b23f3bab73p+1)
  else if PrimFloat.eqb x 0 then neg_infinity
  else if PrimFloat.ltb x 0 then nan
  else if PrimFloat.eqb x infinity then infinity
  else nan.

Definition sample_Exp (x : float) : float :=
  if PrimFloat.eqb x 0 then 1
  else if PrimFloat.eqb x (-0x1.62e42fefa39f0p-1) then 0x1.fffffffffffffp-2
  else if PrimFloat.eqb x infinity then infinity
  else if PrimFloat.eqb x neg_infinity then 0
  else nan.

Definition sample_IEEE : Float64 := IEEE sample_Log sample_Exp.

(** The invariant of the class loop of [Predict] once the entries [seen]
    have been visited. *)
Section ScoringInvariant.
Context {uni : Unicode} {fl : Float64}.

Definition scores_inv (nb : NaiveBayesClassifier) (text : string)
  (seen : list (string * Z)) (st : scoring) : Prop :=
  (forall C n, (C, n) ∈ seen -> n <> 0 ->
     scores st !! C = Some (raw_score nb text C)) /\
  (forall C, is_Some (scores st !! C) -> exists n, (C, n) ∈ seen /\ n <> 0).

Definition best_inv (nb : NaiveBayesClassifier) (text : string)
  (seen : list (string * Z)) (st : scoring) : Prop :=
  (forall C n, (C, n) ∈ seen -> n <> 0 ->
     f_gt (raw_score nb text C) (bestScore st) = false) /\
  ((bestLabel st = "" /\ bestScore st = math_Inf_neg) \/
   (exists n, (bestLabel st, n) ∈ seen /\ n <> 0 /\
      bestScore st = raw_score nb text (bestLabel st) /\
      f_gt (bestScore st) math_Inf_neg = true)).

End ScoringInvariant.

(** A state only [LoadSnapshot] installs: one class with one document, and
    a negative [totalDocs]. *)
Definition negative_total : NaiveBayesClassifier := {|
  classDocCounts := Some {[ "a" := 1 ]};
  classWordCounts := make;
  classTotalWords := make;
  vocabulary := make;
  totalDocs := -1
|}.




(** The classifier after one document without tokens. *)
Definition punctuation_model : NaiveBayesClassifier :=
  of_counts (train_counts empty_counts [] "pos").

(** *** Sums over a confusion table *)

(** The sum of a weight over the entries of a map. *)
Definition weighted_sum {V : Type} (weight : string -> V -> Z) (m : gmap string V) : Z :=
  map_fold (fun k v acc => weight k v + acc) 0 m.

(** The sum of all entries of the confusion table. *)
Definition confusion_total (cf : gmap string (gmap string Z)) : Z :=
  weighted_sum (fun _ => sum_values) cf.

(** The sum of the diagonal entries [confusion[L][L]]. *)
Definition confusion_diagonal (cf : gmap string (gmap string Z)) : Z :=
  weighted_sum (fun L row => default 0 (row !! L)) cf.

(** The invariant of the loop of [Evaluate] after [k] documents. *)
Definition evaluate_inv (k : Z)
  (acc : gmap string (gmap string Z) * Z * nat) : Prop :=
  let '(confusion, correct, i) := acc in
  Z.of_nat i = k /\
  confusion_total confusion = k /\
  confusion_diagonal confusion = correct /\
  0 <= correct <= k /\
  map_Forall (fun _ row => map_Forall (fun (_ : string) (n : Z) => 0 <= n) row)
    confusion.

(** Two test documents for the known-example model. *)
Definition known_tests : list Document :=
  [ {| Text := "wonderful"; Label := "positive" |};
    {| Text := "awful"; Label := "positive" |} ].

(** *** Conversion of integers to binary64 *)

(** Round-to-nearest-even of [m / 2 ^ k]. *)
Definition rne_shift (m k : Z) : Z :=
  if k =? 0 then m
  else
    let q := m / 2 ^ k in
    let lo := m mod 2 ^ k in
    let half := 2 ^ (k - 1) in
    if lo <? half then q
    else if lo =? half then (if Z.even q then q else q + 1)
    else q + 1.

(** The float nearest to a positive integer, as mantissa and exponent. *)
Definition norm (n : Z) : Z * Z :=
  let d := Zdigits2 n in
  if d <=? 53 then (n * 2 ^ (53 - d), d - 53)
  else
    let m1 := rne_shift n (d - 53) in
    if m1 <? 2 ^ 53 then (m1, d - 53) else (2 ^ 52, d - 53 + 1).

(** Order of positive floats with 53-bit mantissas: by exponent, then by
    mantissa. *)
Definition lex_le (a b : Z * Z) : Prop :=
  a.2 < b.2 \/ (a.2 = b.2 /\ a.1 <= b.1).


(* ------------------------------------------------------------------ *)
(** ** The built-in dataset *)

Definition defaultTrainingData : list Document := [
  {| Text := "I love this phone, it's fantastic"; Label := "positive" |};
  {| Text := "The camera is excellent and pictures are great"; Label := "positive" |};
  {| Text := "Absolutely wonderful experience and amazing service"; Label := "positive" |};
  {| Text := "Such a pleasant surprise, highly recommend it"; Label := "positive" |};
  {| Text := "The user interface is clean and easy to use"; Label := "positive" |};
  {| Text := "What a delightful movie, I enjoyed every minute"; Label := "positive" |};
  {| Text := "This book is inspiring and uplifting"; Label := "positive" |};
  {| Text := "Great taste and perfect texture"; Label := "positive" |};
  {| Text := "The trip was fantastic, we had a blast"; Label := "positive" |};
  {| Text := "Beautiful design and very comfortable"; Label := "positive" |};
  {| Text := "I hate how slow this is"; Label := "negative" |};
  {| Text := "The screen cracked within a day"; Label := "negative" |};
  {| Text := "Terrible service and rude employees"; Label := "negative" |};
  {| Text := "I'm disappointed and won't buy again"; Label := "negative" |};
  {| Text := "The instructions are confusing and useless"; Label := "negative" |};
  {| Text := "Worst purchase I've made this year"; Label := "negative" |};
  {| Text := "The food was cold and tasteless"; Label := "negative" |};
  {| Text := "Boring plot with predictable twists"; Label := "negative" |};
  {| Text := "Not worth the price at all"; Label := "negative" |};
  {| Text := "Customer support never replied"; Label := "negative" |}
].


(* ------------------------------------------------------------------ *)
(** ** Package [dataset] *)

(** The errors the loader and the command return. An error of package [os]
    or [encoding/csv] is carried by its message. *)
Inductive error : Type :=
| library_error (msg : string)
| read_dataset_line (line : Z) (err : error)
| dataset_is_empty
| not_enough_samples.

(** A Go result [(value, error)]. *)
Inductive returned (A : Type) : Type :=
| Value (a : A)
| Error (err : error).
Arguments Value {A} a.
Arguments Error {A} err.

(** What one call of [reader.Read] returns before [io.EOF]: a record or an
    error. A file is the list of these results; [io.EOF] follows the last. *)
Inductive read : Type :=
| csv_record (fields : list string)
| csv_error (err : error).

(** [strings.TrimSpace] removes the leading and trailing white space Unicode
    defines; its table is not part of this repository. *)
Class Strings : Type := {
  TrimSpace : string -> string
}.

(** On ASCII text the white space is tab, line feed, vertical tab, form
    feed, carriage return and space. *)
Definition ascii_space (a : ascii) : bool :=
  in_range 9 13 (byte_val a) || (byte_val a =? 32).

Fixpoint trim_left (bs : list ascii) : list ascii :=
  match bs with
  | a :: rest => if ascii_space a then trim_left rest else bs
  | [] => []
  end.

Definition ascii_strings : Strings := {|
  TrimSpace s :=
    string_of_list_ascii
      (reverse (trim_left (reverse (trim_left (list_ascii_of_string s)))))
|}.

(** [strings.Contains]: [substr] occurs in [s], byte for byte. *)
Fixpoint Contains (s substr : string) : bool :=
  String.prefix substr s ||
  match s with
  | String _ s' => Contains s' substr
  | EmptyString => false
  end.

Section Loader.
Context {uni : Unicode} {str : Strings}.

Definition looksLikeHeader (record : list string) : bool :=
  match record with
  | f0 :: f1 :: _ =>
    let left := ToLower (TrimSpace f0) in
    let right := ToLower (TrimSpace f1) in
    Contains left "text" && Contains right "label"
  | _ => false
  end.

(** The body of the loop of [LoadCSV] for a record read without error:
    [docs] and [row] after it. *)
Definition load_record (acc : list Document * Z) (record : list string)
  : list Document * Z :=
  let '(docs, row) := acc in
  match record with
  | f0 :: f1 :: _ =>
    if (row =? 0) && looksLikeHeader record then (docs, incr row)
    else
      let text := TrimSpace f0 in
      let label := TrimSpace f1 in
      if String.eqb text "" || String.eqb label "" then (docs, incr row)
      else (docs ++ [{| Text := text; Label := ToLower label |}], incr row)
  | _ => (docs, row)
  end.

(** The loop of [LoadCSV] and the check after it. *)
Fixpoint read_loop (reads : list read) (acc : list Document * Z)
  : returned (list Document) :=
  match reads with
  | csv_record record :: rest => read_loop rest (load_record acc record)
  | csv_error err :: _ => Error (read_dataset_line (incr acc.2) err)
  | [] =>
    if Z.of_nat (length acc.1) =? 0 then Error dataset_is_empty
    else Value acc.1
  end.

(** [os_Open] is the file system seen through [os.Open] and
    [csv.NewReader]: an error, or the results of the calls of [Read]. *)
Definition LoadCSV (os_Open : string -> returned (list read)) (path : string)
  : returned (list Document) :=
  match os_Open path with
  | Error err => Error err
  | Value reads => read_loop reads ([], 0)
  end.

End Loader.

(** *** What [LoadCSV] should return

    The records with two fields or more count; the first of them is left
    out when it looks like a header; each of the others gives a document
    unless its text or its label is blank. *)
Section LoaderSpec.
Context {uni : Unicode} {str : Strings}.

Definition wide (record : list string) : Prop := (2 <= length record)%nat.

Definition document_of (record : list string) : option Document :=
  match record with
  | f0 :: f1 :: _ =>
    if String.eqb (TrimSpace f0) "" || String.eqb (TrimSpace f1) "" then None
    else Some {| Text := TrimSpace f0; Label := ToLower (TrimSpace f1) |}
  | _ => None
  end.

Definition loaded_documents (records : list (list string)) : list Document :=
  match filter wide records with
  | first :: rest =>
    if looksLikeHeader first then omap document_of rest
    else omap document_of (first :: rest)
  | [] => []
  end.

(** The check after the loop. *)
Definition nonempty_or_error (docs : list Document) : returned (list Document) :=
  if Z.of_nat (length docs) =? 0 then Error dataset_is_empty else Value docs.

End LoaderSpec.

(** A file system for running the examples: a file with a header, two
    usable records and three unusable ones, and a file whose third record
    cannot be parsed. *)
Definition sample_files (path : string) : returned (list read) :=
  if String.eqb path "data/sample.csv" then
    Value [ csv_record ["only one field"];
            csv_record [" Text "; "LABEL"; "note"];
            csv_record ["  I love it "; " Positive"];
            csv_record ["   "; "negative"];
            csv_record ["text of a review"; "relabelled"];
            csv_record [] ]
  else if String.eqb path "data/broken.csv" then
    Value [ csv_record ["good"; "positive"];
            csv_record ["short"];
            csv_error (library_error "parse error");
            csv_record ["bad"; "negative"] ]
  else Error (library_error "open: no such file or directory").

(** *** [SplitDataset] *)

(** What [SplitDataset] takes from the runtime and the libraries:
    [math.Round], the conversion [int(f)] of a [float64], and the calls
    [swap(i, j)] that [rand.New(rand.NewSource(seed)).Shuffle(n, swap)]
    makes, in order. *)
Class Runtime : Type := {
  math_Round : float -> float;
  float_to_int : float -> Z;
  rand_Shuffle : Z -> Z -> list (Z * Z)
}.

Definition index_out_of_range : string := "index out of range".
Definition slice_out_of_range : string := "slice bounds out of range".

(** [l[i]] *)
Definition index {A : Type} (l : list A) (i : Z) : result A :=
  if (0 <=? i) && (i <? Z.of_nat (length l)) then
    match l !! Z.to_nat i with
    | Some x => Ok x
    | None => Panic index_out_of_range
    end
  else Panic index_out_of_range.

(** [l[i], l[j] = l[j], l[i]]: both operands are read, then [l[i]] and
    [l[j]] are assigned in this order. *)
Definition swap {A : Type} (l : list A) (ij : Z * Z) : result (list A) :=
  let '(i, j) := ij in
  xj ← index l j;
  xi ← index l i;
  Ok (<[Z.to_nat j := xi]> (<[Z.to_nat i := xj]> l)).

(** [l[:hi]] and [l[lo:]] *)
Definition slice_to {A : Type} (l : list A) (hi : Z) : result (list A) :=
  if (0 <=? hi) && (hi <=? Z.of_nat (length l)) then Ok (take (Z.to_nat hi) l)
  else Panic slice_out_of_range.

Definition slice_from {A : Type} (l : list A) (lo : Z) : result (list A) :=
  if (0 <=? lo) && (lo <=? Z.of_nat (length l)) then Ok (drop (Z.to_nat lo) l)
  else Panic slice_out_of_range.

(** The calls of [swap] that stay within a slice of [n] elements, as
    [rand.Shuffle] promises for its argument [n]. *)
Definition swaps_within (n : Z) (swaps : list (Z * Z)) : Prop :=
  Forall (fun ij => (0 <= ij.1 < n) /\ (0 <= ij.2 < n)) swaps.

(** The constant [0.8] as a [float64]. *)
Definition default_ratio : float := 0x1.999999999999ap-1%float.

Section Split.
Context {rt : Runtime}.

Definition SplitDataset (docs : list Document) (trainRatio : float) (seed : Z)
  : result (list Document * list Document) :=
  if Z.of_nat (length docs) =? 0 then Ok ([], [])
  else if Z.of_nat (length docs) =? 1 then Ok (docs, [])
  else
    let trainRatio :=
      if PrimFloat.leb trainRatio 0 || PrimFloat.leb 1 trainRatio
      then default_ratio else trainRatio in
    shuffled ← for_each swap (rand_Shuffle seed (Z.of_nat (length docs))) docs;
    let n := Z.of_nat (length shuffled) in
    let trainSize :=
      float_to_int (math_Round (PrimFloat.mul trainRatio (int_to_float n))) in
    let trainSize := if trainSize <=? 0 then 1 else trainSize in
    let trainSize := if trainSize >=? n then wrap (n - 1) else trainSize in
    train ← slice_to shuffled trainSize;
    test ← slice_from shuffled trainSize;
    Ok (train, test).

End Split.

(** A runtime for running the examples: two swaps, [math.Round] as it is
    on floats that are integers already, and [int(f)] by truncation. *)
Definition sample_int (f : float) : Z :=
  match Prim2SF f with
  | S754_finite s m e =>
    let a := if 0 <=? e then Z.pos m * 2 ^ e else Z.pos m / 2 ^ (- e) in
    if s then - a else a
  | S754_zero _ => 0
  | _ => MinInt
  end.

Definition sample_runtime : Runtime := {|
  math_Round f := f;
  float_to_int := sample_int;
  rand_Shuffle seed n := if 2 <=? n then [(n - 1, seed mod n); (0, n - 1)] else []
|}.

(* ------------------------------------------------------------------ *)
(** ** The command *)

Section Command.
Context {uni : Unicode} {str : Strings} {fl : Float64} {rt : Runtime}.


(** What [runEvaluationMode] prints: the two sizes and the metrics. *)
Record evaluation : Type := {
  TrainSize : Z;
  TestSize : Z;
  Measured : Metrics
}.

(** [runEvaluationMode]: the classifier after the call, and the error it
    returns or the values it prints. *)
Definition runEvaluationMode (rng : nat -> Schedule)
  (classifier : NaiveBayesClassifier) (docs : list Document)
  (split : float) (seed : Z)
  : result (NaiveBayesClassifier * returned evaluation) :=
  '(train, test) ← SplitDataset docs split seed;
  if Z.of_nat (length test) =? 0 then Ok (classifier, Error not_enough_samples)
  else
    let classifier := Reset classifier in
    classifier ← TrainBatch classifier train;
    let metrics := Evaluate rng classifier test in
    Ok (classifier,
        Value {| TrainSize := Z.of_nat (length train);
                 TestSize := Z.of_nat (length test);
                 Measured := metrics |}).

(** The lines [printProbabilities] prints: the notice for an empty map, or
    one line per class with the arguments of its [Printf]. *)
Inductive probability_line : Type :=
| no_probabilities
| class_probability (class : string) (p : float64).

Definition printProbabilities (sch : Schedule) (probs : gmap string float64)
  : list probability_line :=
  if len (Some probs) =? 0 then [no_probabilities]
  else
    let classes := sort_Strings (range sch (Some probs)).*1 in
    map (fun class => class_probability class (default f_zero (probs !! class)))
      classes.

(** The lines [printConfusion] prints: the actual label, then the predicted
    labels with their counts. *)
Definition printConfusion (sch : Schedule) (confusion : gmap string (gmap string Z))
  : list (string * list (string * Z)) :=
  let actualLabels := sort_Strings (range sch (Some confusion)).*1 in
  map (fun actual =>
         let predicted := default ∅ (confusion !! actual) in
         let predictedLabels := sort_Strings (range sch (Some predicted)).*1 in
         (actual,
          map (fun label => (label, default 0 (predicted !! label)))
            predictedLabels))
    actualLabels.

End Command.

(** *** Counting the training documents

    What the counters of a classifier should hold after the documents
    [docs]: the number of documents of a label, the tokens of the documents
    of a label, and how often a token is among them. *)
Section Counting.
Context {uni : Unicode}.

Definition labelled (L : string) (docs : list Document) : list Document :=
  filter (fun doc => Label doc = L) docs.

Definition class_tokens (L : string) (docs : list Document) : list string :=
  labelled L docs ≫= (fun doc => tokenize (Text doc)).

Definition occurrences (t : string) (tokens : list string) : Z :=
  Z.of_nat (length (filter (fun t' => t' = t) tokens)).

Definition all_tokens (docs : list Document) : list string :=
  docs ≫= (fun doc => tokenize (Text doc)).

End Counting.

(** A counter after [n] increments: untouched when [n] is zero, and else
    its old value, zero when absent, plus [n] in 64-bit arithmetic. *)
Definition bump (n : Z) (old : option Z) : option Z :=
  if n =? 0 then old else Some (wrap (default 0 old + n)).

(** The value of a counter after [n] increments. *)
Definition grow (n x : Z) : Z := if n =? 0 then x else wrap (x + n).

(** A row of [classWordCounts] that is present and nil, as [copyNestedMap]
    copies a [null] row of a snapshot. *)
Definition nil_row (nb : NaiveBayesClassifier) (label : string) : Prop :=
  exists g, classWordCounts nb = Some g /\ g !! label = Some None.

(** The counters after a batch, on allocated maps. *)
Section BatchCounts.
Context {uni : Unicode}.

Definition batch_counts (c : counts) (docs : list Document) : counts :=
  foldl (fun c doc => train_counts c (tokenize (Text doc)) (Label doc)) c docs.

End BatchCounts.

(** *** The predictions [Evaluate] compares

    The pairs of the actual and the predicted label of the documents, the
    document at index [i] predicted with the enumeration order [rng i], and
    the entry [confusion[actual][predicted]] as Go reads it. *)
Section Predictions.
Context {uni : Unicode} {fl : Float64}.

Fixpoint predictions_from (i : nat) (rng : nat -> Schedule)
  (nb : NaiveBayesClassifier) (docs : list Document) : list (string * string) :=
  match docs with
  | [] => []
  | doc :: docs' =>
    (Label doc, (Predict (rng i) nb (Text doc)).1) ::
    predictions_from (S i) rng nb docs'
  end.

Definition predictions := predictions_from 0.

End Predictions.

Definition cell (confusion : gmap string (gmap string Z)) (actual predicted : string)
  : Z :=
  default 0 (default ∅ (confusion !! actual) !! predicted).

(* ================================================================== *)
(** * Properties *)

(* ------------------------------------------------------------------ *)
(** ** Integers *)

Lemma wrap_is_int z : is_int (wrap z).
Proof.
  unfold is_int, wrap, MinInt, MaxInt.
  pose proof (Z.mod_pos_bound (z + 2 ^ 63) (2 ^ 64) ltac:(lia)). lia.
Qed.

Lemma wrap_id z : is_int z -> wrap z = z.
Proof.
  unfold is_int, wrap, MinInt, MaxInt. intros H.
  rewrite Z.mod_small; lia.
Qed.

Lemma wrap_wrap_add a b : wrap (wrap a + b) = wrap (a + b).
Proof.
  unfold wrap.
  replace ((a + 2 ^ 63) mod 2 ^ 64 - 2 ^ 63 + b + 2 ^ 63)
    with ((a + 2 ^ 63) mod 2 ^ 64 + b) by lia.
  rewrite Zplus_mod_idemp_l. f_equal. f_equal. lia.
Qed.

Lemma incr_exact x : is_int x -> x <> MaxInt -> incr x = x + 1.
Proof.
  unfold incr. intros Hx Hne. apply wrap_id.
  unfold is_int, MinInt, MaxInt in *. lia.
Qed.

Lemma incr_MaxInt : incr MaxInt = MinInt.
Proof. reflexivity. Qed.

(* ------------------------------------------------------------------ *)
(** ** The tokenizer *)

Lemma DecodeRune_width bs :
  bs ≠ [] -> (1 <= (DecodeRune bs).2 <= 4)%nat.
Proof.
  destruct bs as [|b0 rest]; [done|]. intros _.
  unfold DecodeRune.
  repeat case_match; simpl; lia.
Qed.

(** Decoding loses no byte: the encodings of the code points of a string,
    one after the other, are the string. *)
Lemma runes_fuel_bytes fuel bs :
  (length bs <= fuel)%nat -> bytes_of (runes_fuel fuel bs) = bs.
Proof.
  revert bs. induction fuel as [|fuel IH]; intros bs Hlen.
  - destruct bs; [done | simpl in Hlen; lia].
  - destruct bs as [|b0 rest]; [done|].
    cbn [runes_fuel].
    pose proof (DecodeRune_width (b0 :: rest) ltac:(done)) as Hw.
    destruct (DecodeRune (b0 :: rest)) as [r w]. simpl in Hw.
    unfold bytes_of in *. cbn [fmap list_fmap snd concat].
    rewrite IH.
    + apply take_drop.
    + rewrite length_drop. simpl in *. lia.
Qed.

Lemma runes_bytes bs : bytes_of (runes bs) = bs.
Proof. by apply runes_fuel_bytes. Qed.

Lemma runes_fuel_nonempty fuel bs c :
  c ∈ runes_fuel fuel bs -> c.2 ≠ [].
Proof.
  revert bs. induction fuel as [|fuel IH]; intros bs Hin.
  - destruct bs; simpl in Hin; by apply elem_of_nil in Hin.
  - destruct bs as [|b0 rest]; [by apply elem_of_nil in Hin|].
    cbn [runes_fuel] in Hin.
    pose proof (DecodeRune_width (b0 :: rest) ltac:(done)) as Hw.
    destruct (DecodeRune (b0 :: rest)) as [r w]. simpl in Hw.
    apply elem_of_cons in Hin as [-> | Hin]; [|by eapply IH].
    simpl. destruct w; [lia | done].
Qed.

Lemma pieces_nonempty f cs : pieces f cs ≠ [].
Proof. destruct cs as [|c cs]; simpl; repeat case_match; done. Qed.

Lemma bytes_of_snoc pre c : bytes_of (pre ++ [c]) = bytes_of pre ++ c.2.
Proof.
  unfold bytes_of. rewrite fmap_app, concat_app. simpl. by rewrite app_nil_r.
Qed.

Lemma fields_loop_pieces f cs pre :
  fields_loop f cs (if decide (pre = []) then None else Some (bytes_of pre)) =
  map bytes_of (filter (fun p => p ≠ []) (open_with pre (pieces f cs))).
Proof.
  revert pre. induction cs as [|[r bytes] cs IH]; intros pre.
  - simpl. rewrite app_nil_r.
    destruct (decide (pre = [])) as [->|Hne]; [done|].
    by rewrite filter_cons_True, filter_nil.
  - cbn [fields_loop pieces fst]. destruct (f r) eqn:Hf.
    + cbn [open_with]. rewrite app_nil_r.
      specialize (IH []). rewrite decide_True in IH by done.
      assert (open_with [] (pieces f cs) = pieces f cs) as Hopen.
      { pose proof (pieces_nonempty f cs). by destruct (pieces f cs). }
      rewrite Hopen in IH.
      destruct (decide (pre = [])) as [->|Hne].
      * by rewrite filter_cons_False by (by intros H; apply H).
      * rewrite filter_cons_True by done. simpl. by rewrite IH.
    + assert (open_with pre
                match pieces f cs with
                | p :: ps => ((r, bytes) :: p) :: ps
                | [] => [[(r, bytes)]]
                end = open_with (pre ++ [(r, bytes)]) (pieces f cs)) as ->.
      { pose proof (pieces_nonempty f cs).
        destruct (pieces f cs); [done|]. simpl. by rewrite <- app_assoc. }
      rewrite <- IH.
      rewrite (decide_False (P := pre ++ [(r, bytes)] = []))
        by (by destruct pre).
      rewrite bytes_of_snoc. simpl.
      destruct (decide (pre = [])) as [->|Hne]; [|done].
      by rewrite (right_id_L [] (++)) || reflexivity.
Qed.

Lemma pieces_elem f cs p c : p ∈ pieces f cs -> c ∈ p -> c ∈ cs /\ f c.1 = false.
Proof.
  revert p. induction cs as [|c0 cs IH]; intros p Hp Hc; simpl in Hp.
  - apply list_elem_of_singleton in Hp as ->. by apply elem_of_nil in Hc.
  - destruct (f c0.1) eqn:Hf.
    + apply elem_of_cons in Hp as [-> | Hp]; [by apply elem_of_nil in Hc|].
      destruct (IH _ Hp Hc). split; [by right | done].
    + pose proof (pieces_nonempty f cs) as Hne.
      destruct (pieces f cs) as [|p0 ps]; [done|].
      apply elem_of_cons in Hp as [-> | Hp].
      * apply elem_of_cons in Hc as [-> | Hc]; [by split; [left|]|].
        destruct (IH p0 ltac:(left) Hc). split; [by right | done].
      * destruct (IH p ltac:(by right) Hc). split; [by right | done].
Qed.

Lemma string_of_bytes_empty bs : string_of_list_ascii bs = "" -> bs = [].
Proof.
  intros H. rewrite <- (list_ascii_of_string_of_list_ascii bs). by rewrite H.
Qed.

Lemma pieces_agree f g (cs : list (Z * list ascii)) :
  Forall (fun c => f c.1 = g c.1) cs -> pieces f cs = pieces g cs.
Proof.
  induction 1 as [|c cs Hc _ IH]; [done|].
  cbn [pieces]. by rewrite Hc, IH.
Qed.

Section TokenizerFacts.
Context {uni : Unicode}.

(** The test of the code is the complement of the word characters. *)
Lemma is_separator_word r : is_separator r = negb (letter_or_number r).
Proof. unfold is_separator, letter_or_number. by rewrite negb_orb. Qed.

Lemma tokenize_spec_tokens text : tokenize text = spec_tokens text.
Proof.
  unfold tokenize, FieldsFunc, spec_tokens, split_tokens, lowered_runes.
  pose proof (fields_loop_pieces is_separator
                (runes (list_ascii_of_string (ToLower text))) []) as H.
  rewrite decide_True in H by done. rewrite H.
  assert (forall ps, ps ≠ [] -> open_with [] ps = ps) as Hopen
    by (by intros [|? ?]).
  rewrite Hopen by apply pieces_nonempty.
  rewrite (pieces_agree is_separator (fun r => negb (letter_or_number r)))
    by (apply Forall_forall; intros c _; apply is_separator_word).
  by rewrite map_map.
Qed.

Lemma tokenize_is_token text t : t ∈ tokenize text -> is_token text t.
Proof.
  rewrite tokenize_spec_tokens. unfold spec_tokens, split_tokens.
  intros Hin. apply list_elem_of_In, in_map_iff in Hin as (p & <- & Hp).
  apply list_elem_of_In, list_elem_of_filter in Hp as [Hne Hp].
  exists p. split; [done|]. split; [|split; [|done]].
  - intros c Hc. by destruct (pieces_elem _ _ _ _ Hp Hc).
  - apply Forall_forall. intros c Hc.
    destruct (pieces_elem _ _ _ _ Hp Hc) as [_ Hsep].
    by apply negb_false_iff in Hsep.
Qed.

Lemma is_token_nonempty text t : is_token text t -> t ≠ "".
Proof.
  intros (p & Hne & Hsub & _ & ->) Hempty.
  apply string_of_bytes_empty in Hempty.
  destruct p as [|c p]; [done|].
  assert (c.2 ≠ []) as Hc.
  { eapply runes_fuel_nonempty. apply Hsub. by left. }
  unfold bytes_of in Hempty. simpl in Hempty.
  by destruct (c.2).
Qed.

Lemma tokenize_nonempty text t : t ∈ tokenize text -> t ≠ "".
Proof. intros H. eapply is_token_nonempty, tokenize_is_token, H. Qed.

(** C5. The tokenizer returns exactly the tokens of the specification with
    numbers for digits: the input is lower-cased as a whole and split at
    every code point that is neither a letter nor a number under the
    Unicode tests [unicode.IsLetter] and [unicode.IsNumber]; adjacent
    separators collapse, so no token is empty, and every token is a run of
    letters and numbers of the lower-cased text. On a text all of whose
    numbers are digits these are the tokens as the specification words
    them, split at what is neither a letter nor a digit. *)
Theorem tokenize_refines_spec (text : string) :
  tokenize text = spec_tokens text /\
  Forall (fun t => t ≠ "") (tokenize text) /\
  Forall (is_token text) (tokenize text) /\
  forall IsDigit : Z -> bool,
    Forall (fun c => IsNumber c.1 = IsDigit c.1) (lowered_runes text) ->
    tokenize text = claimed_tokens IsDigit text.
Proof.
  split; [apply tokenize_spec_tokens|].
  split; [|split].
  - apply Forall_forall. intros t Ht. by eapply tokenize_nonempty.
  - apply Forall_forall. intros t Ht. by apply tokenize_is_token.
  - intros IsDigit Hdigits. rewrite tokenize_spec_tokens.
    unfold spec_tokens, claimed_tokens, split_tokens. do 2 f_equal.
    apply pieces_agree. eapply Forall_impl; [exact Hdigits|].
    intros c Hc. cbn beta in *.
    unfold letter_or_number, letter_or_digit. by rewrite Hc.
Qed.

End TokenizerFacts.

(** C5, as stated, fails: one half, U+00BD, is a number and not a digit, so
    the code keeps [a], one half, [b] as one token where the claim splits
    it in two. *)
Lemma tokenize_keeps_numbers :
  tokenize (uni := latin1_unicode) a_half_b = [a_half_b] /\
  claimed_tokens (uni := latin1_unicode) latin1_IsDigit a_half_b = ["a"; "b"] /\
  tokenize (uni := latin1_unicode) a_half_b ≠
    claimed_tokens (uni := latin1_unicode) latin1_IsDigit a_half_b.
Proof.
  assert (tokenize (uni := latin1_unicode) a_half_b = [a_half_b]) as H1
    by (by vm_compute).
  assert (claimed_tokens (uni := latin1_unicode) latin1_IsDigit a_half_b =
          ["a"; "b"]) as H2 by (by vm_compute).
  split; [exact H1|]. split; [exact H2|]. by rewrite H1, H2.
Qed.

(** The last part of C5 on a text whose numbers are digits. *)
Lemma tokenize_refines_spec_witness :
  tokenize (uni := latin1_unicode) "Hi, 42 times!" = ["hi"; "42"; "times"] /\
  tokenize (uni := latin1_unicode) "Hi, 42 times!" =
    claimed_tokens (uni := latin1_unicode) latin1_IsDigit "Hi, 42 times!".
Proof.
  split; [by vm_compute|].
  destruct (tokenize_refines_spec (uni := latin1_unicode) "Hi, 42 times!")
    as (_ & _ & _ & H).
  apply H. vm_compute. repeat constructor.
Defined.

(* ------------------------------------------------------------------ *)
(** ** Sums of counters *)

Lemma weighted_sum_empty {V : Type} (w : string -> V -> Z) :
  weighted_sum w ∅ = 0.
Proof. apply map_fold_empty. Qed.

Lemma weighted_sum_insert_fresh {V : Type} (w : string -> V -> Z) m k v :
  m !! k = None -> weighted_sum w (<[k := v]> m) = w k v + weighted_sum w m.
Proof.
  intros Hk. unfold weighted_sum.
  apply (map_fold_insert_L (fun k v acc => w k v + acc)); [|done].
  intros. lia.
Qed.

Lemma weighted_sum_delete {V : Type} (w : string -> V -> Z) m k v :
  m !! k = Some v -> weighted_sum w m = w k v + weighted_sum w (delete k m).
Proof.
  intros Hk. rewrite <- (insert_delete_id m k v) at 1 by done.
  apply weighted_sum_insert_fresh, lookup_delete_eq.
Qed.

Lemma weighted_sum_insert {V : Type} (w : string -> V -> Z) m k v :
  weighted_sum w (<[k := v]> m) =
  weighted_sum w m - from_option (w k) 0 (m !! k) + w k v.
Proof.
  destruct (m !! k) as [old|] eqn:Hk; simpl.
  - rewrite (weighted_sum_delete w m k old) by done.
    rewrite <- insert_delete_eq.
    rewrite weighted_sum_insert_fresh by apply lookup_delete_eq. lia.
  - rewrite weighted_sum_insert_fresh by done. lia.
Qed.

Lemma weighted_sum_nonneg {V : Type} (w : string -> V -> Z) m :
  map_Forall (fun k v => 0 <= w k v) m -> 0 <= weighted_sum w m.
Proof.
  induction m as [|k v m Hk _ IH] using map_first_key_ind.
  - by rewrite weighted_sum_empty.
  - intros H. apply map_Forall_insert in H as [Hv Hm]; [|done].
    rewrite weighted_sum_insert_fresh by done. specialize (IH Hm). lia.
Qed.

Lemma weighted_sum_bound {V : Type} (w : string -> V -> Z) m k :
  map_Forall (fun k v => 0 <= w k v) m ->
  from_option (w k) 0 (m !! k) <= weighted_sum w m.
Proof.
  intros H. destruct (m !! k) as [v|] eqn:Hk; simpl.
  - rewrite (weighted_sum_delete w m k v) by done.
    assert (0 <= weighted_sum w (delete k m)); [|lia].
    apply weighted_sum_nonneg. intros j n Hj.
    apply lookup_delete_Some in Hj as [_ Hj]. by eapply H.
  - by apply weighted_sum_nonneg.
Qed.

Lemma sum_values_weighted g : sum_values g = weighted_sum (fun _ v => v) g.
Proof. reflexivity. Qed.

Lemma sum_values_empty : sum_values ∅ = 0.
Proof. apply map_fold_empty. Qed.

Lemma sum_values_insert_fresh g k v :
  g !! k = None -> sum_values (<[k := v]> g) = v + sum_values g.
Proof. rewrite !sum_values_weighted. apply weighted_sum_insert_fresh. Qed.

Lemma sum_values_insert g k v :
  sum_values (<[k := v]> g) = sum_values g - default 0 (g !! k) + v.
Proof.
  rewrite !sum_values_weighted, weighted_sum_insert. by destruct (g !! k).
Qed.

Lemma sum_values_nonneg g :
  map_Forall (fun _ n => 0 <= n) g -> 0 <= sum_values g.
Proof. rewrite sum_values_weighted. apply weighted_sum_nonneg. Qed.

Lemma sum_values_bound g k :
  map_Forall (fun _ n => 0 <= n) g -> default 0 (g !! k) <= sum_values g.
Proof.
  intros H. rewrite sum_values_weighted.
  pose proof (weighted_sum_bound (fun _ v => v) g k H) as Hb.
  by destruct (g !! k).
Qed.

(* ------------------------------------------------------------------ *)
(** ** Training *)

Lemma get_map_of_rows (words : gmap string (gmap string Z)) L :
  get_map (Some (Some <$> words)) L = words !! L.
Proof. simpl. rewrite lookup_fmap. by destruct (words !! L). Qed.

Section TrainingFacts.
Context {uni : Unicode}.

Lemma train_token_counts label c token :
  token ≠ "" ->
  is_Some (words_of c !! label) ->
  train_token label (of_counts c) token = Ok (of_counts (count_token label c token)).
Proof.
  intros Hne [row Hrow]. unfold train_token.
  apply String.eqb_neq in Hne. rewrite Hne.
  cbn [of_counts vocabulary classWordCounts classTotalWords classDocCounts
       totalDocs map_set mbind result_bind].
  rewrite get_map_of_rows, Hrow. cbn [map_set get_int].
  unfold of_counts, count_token. cbn.
  rewrite Hrow. cbn. by rewrite fmap_insert.
Qed.

Lemma count_token_row label c token :
  is_Some (words_of (count_token label c token) !! label).
Proof. unfold count_token. cbn. rewrite lookup_insert_eq. by eexists. Qed.

Lemma train_tokens_counts label tokens c :
  Forall (fun t => t ≠ "") tokens ->
  is_Some (words_of c !! label) ->
  for_each (train_token label) tokens (of_counts c) =
  Ok (of_counts (foldl (count_token label) c tokens)).
Proof.
  revert c. induction tokens as [|t tokens IH]; intros c Hne Hrow; [done|].
  apply Forall_cons in Hne as [Ht Hne].
  cbn [for_each foldl]. rewrite train_token_counts by done.
  cbn [mbind result_bind]. apply IH; [done | apply count_token_row].
Qed.

Lemma count_document_row label c :
  is_Some (words_of (count_document label c) !! label).
Proof.
  unfold count_document. cbn.
  destruct (words_of c !! label) eqn:H; [by rewrite H|].
  rewrite lookup_insert_eq. by eexists.
Qed.

(** On allocated maps [Train] returns, and computes [train_counts]. *)
Lemma Train_counts c text label :
  Train (of_counts c) text label =
  Ok (of_counts (train_counts c (tokenize text) label)).
Proof.
  unfold Train, train_counts.
  rewrite <- train_tokens_counts; cycle 1.
  { apply Forall_forall. intros t Ht. by eapply tokenize_nonempty. }
  { apply count_document_row. }
  generalize (tokenize text). intros tokens.
  unfold of_counts, count_document, has_key.
  cbn [vocabulary classWordCounts classTotalWords classDocCounts totalDocs
       docs_of words_of totals_of vocab_of total_of
       map_set mbind result_bind get_int].
  rewrite lookup_fmap.
  destruct (words_of c !! label) as [row|] eqn:Hrow.
  - rewrite bool_decide_eq_true_2 by (by eexists). done.
  - rewrite bool_decide_eq_false_2 by (by intros [? ?]).
    cbn [map_set mbind result_bind]. unfold make. by rewrite fmap_insert.
Qed.

Lemma TrainBatch_counts docs c :
  exists c', TrainBatch (of_counts c) docs = Ok (of_counts c').
Proof.
  revert c. induction docs as [|doc docs IH]; intros c.
  - by exists c.
  - unfold TrainBatch. cbn [for_each]. rewrite Train_counts.
    cbn [mbind result_bind]. apply IH.
Qed.

Lemma trained_allocated d w nb : trained d w nb -> allocated nb.
Proof.
  induction 1 as [|d w nb text label nb' _ [c ->] HT
                  |d w nb docs nb' _ [c ->] HT|d w nb _ _].
  - by exists empty_counts.
  - rewrite Train_counts in HT. injection HT as <-. by eexists.
  - destruct (TrainBatch_counts docs c) as [c' Hc'].
    rewrite Hc' in HT. injection HT as <-. by eexists.
  - by exists empty_counts.
Qed.

End TrainingFacts.

Lemma positive_nonneg (g : gmap string Z) :
  map_Forall (fun _ n => 0 < n) g -> map_Forall (fun _ n => 0 <= n) g.
Proof. intros H k n Hk. specialize (H k n Hk). simpl in H. lia. Qed.

Lemma counter_incr (g : gmap string Z) k bound :
  map_Forall (fun _ n => 0 <= n) g ->
  sum_values g = bound -> bound < MaxInt ->
  incr (default 0 (g !! k)) = default 0 (g !! k) + 1 /\
  0 <= default 0 (g !! k).
Proof.
  intros Hpos Hsum Hb.
  pose proof (sum_values_bound g k Hpos) as Hle.
  assert (0 <= default 0 (g !! k)) as H0.
  { destruct (g !! k) as [n|] eqn:Hk; simpl; [by apply (Hpos k n)|lia]. }
  split; [|done]. apply incr_exact.
  - unfold is_int, MinInt, MaxInt in *. lia.
  - lia.
Qed.

Lemma count_document_inv d w c label :
  counts_inv d w c -> d < MaxInt ->
  counts_inv (d + 1) w (count_document label c).
Proof.
  intros (Htot & Hsum & Hdocs & Hrows & Hw & Htotals & Hwords & Hvoc) Hd.
  destruct (counter_incr (docs_of c) label d (positive_nonneg _ Hdocs) Hsum Hd)
    as [Hincr Hnonneg].
  assert (0 <= d) as Hd0.
  { rewrite <- Hsum. by apply sum_values_nonneg, positive_nonneg. }
  unfold counts_inv, count_document. cbn.
  repeat split.
  - rewrite Htot. apply incr_exact; [|lia].
    unfold is_int, MinInt, MaxInt in *. lia.
  - rewrite sum_values_insert, Hincr. lia.
  - apply map_Forall_insert_2; [|done]. rewrite Hincr. lia.
  - intros L. rewrite Hrows.
    destruct (words_of c !! label) as [row|] eqn:Hrow; [done|].
    destruct (decide (label = L)) as [<-|Hne].
    + by rewrite lookup_insert_eq, Hrow.
    + by rewrite lookup_insert_ne.
  - done.
  - done.
  - destruct (words_of c !! label) as [row|] eqn:Hrow; [done|].
    apply map_Forall_insert_2; [|done]. apply map_Forall_empty.
  - intros Ht. apply Hvoc in Ht as (L & row & HL & Hr).
    destruct (words_of c !! label) as [row0|] eqn:Hrow; [by eauto|].
    exists L, row. split; [|done].
    rewrite lookup_insert_ne; [done|]. intros <-. by rewrite Hrow in HL.
  - intros (L & row & HL & Hr). apply Hvoc.
    destruct (words_of c !! label) as [row0|] eqn:Hrow; [by eauto|].
    destruct (decide (label = L)) as [<-|Hne].
    + rewrite lookup_insert_eq in HL. injection HL as <-.
      rewrite lookup_empty in Hr. by destruct Hr.
    + rewrite lookup_insert_ne in HL by done. eauto.
Qed.

Lemma count_token_inv d w c label token :
  counts_inv d w c -> w < MaxInt ->
  counts_inv d (w + 1) (count_token label c token).
Proof.
  intros (Htot & Hsum & Hdocs & Hrows & Hw & Htotals & Hwords & Hvoc) Hlt.
  destruct (counter_incr (totals_of c) label w Htotals Hw Hlt)
    as [Hincr Hnonneg].
  set (row := default ∅ (words_of c !! label)).
  assert (map_Forall (fun (_ : string) (n : Z) => 0 < n) row) as Hrow.
  { unfold row. destruct (words_of c !! label) as [r|] eqn:Hr; simpl.
    - by apply (Hwords label r).
    - apply map_Forall_empty. }
  assert (sum_values row <= w) as Hrw.
  { unfold row. rewrite <- Hrows, <- Hw. by apply sum_values_bound. }
  destruct (counter_incr row token (sum_values row) (positive_nonneg _ Hrow)
              eq_refl ltac:(lia)) as [Hincr' Hnonneg'].
  unfold counts_inv, count_token. cbn. fold row.
  repeat split.
  - done.
  - done.
  - done.
  - intros L. destruct (decide (label = L)) as [<-|Hne].
    + rewrite !lookup_insert_eq. cbn.
      rewrite sum_values_insert, Hincr, Hincr', Hrows. fold row. lia.
    + rewrite !lookup_insert_ne by done. apply Hrows.
  - rewrite sum_values_insert, Hincr. lia.
  - apply map_Forall_insert_2; [|done]. rewrite Hincr. lia.
  - apply map_Forall_insert_2; [|done].
    apply map_Forall_insert_2; [|done]. rewrite Hincr'. lia.
  - intros Ht. destruct (decide (token = t)) as [<-|Hne].
    + exists label. eexists. rewrite lookup_insert_eq. split; [done|].
      rewrite lookup_insert_eq. by eexists.
    + rewrite lookup_insert_ne in Ht by done.
      apply Hvoc in Ht as (L & r & HL & Hr).
      destruct (decide (label = L)) as [<-|HneL].
      * exists label. eexists. rewrite lookup_insert_eq. split; [done|].
        rewrite lookup_insert_ne by done. unfold row. by rewrite HL.
      * exists L, r. by rewrite lookup_insert_ne.
  - intros (L & r & HL & Hr). destruct (decide (token = t)) as [<-|Hne].
    + rewrite lookup_insert_eq. by eexists.
    + rewrite lookup_insert_ne by done. apply Hvoc.
      destruct (decide (label = L)) as [<-|HneL].
      * rewrite lookup_insert_eq in HL. injection HL as <-.
        rewrite lookup_insert_ne in Hr by done.
        unfold row in Hr. destruct (words_of c !! label) as [r0|] eqn:Hr0.
        -- by exists label, r0.
        -- simpl in Hr. rewrite lookup_empty in Hr. by destruct Hr.
      * rewrite lookup_insert_ne in HL by done. eauto.
Qed.

Lemma count_tokens_inv d w c label tokens :
  counts_inv d w c -> w + Z.of_nat (length tokens) <= MaxInt ->
  counts_inv d (w + Z.of_nat (length tokens)) (foldl (count_token label) c tokens).
Proof.
  revert w c. induction tokens as [|t tokens IH]; intros w c Hinv Hw.
  - simpl. by rewrite Z.add_0_r.
  - cbn [foldl length] in *.
    replace (w + Z.of_nat (S (length tokens)))
      with (w + 1 + Z.of_nat (length tokens)) in * by lia.
    apply IH; [|done]. apply count_token_inv; [done|lia].
Qed.

Lemma train_counts_inv d w c tokens label :
  counts_inv d w c ->
  d < MaxInt -> w + Z.of_nat (length tokens) <= MaxInt ->
  counts_inv (d + 1) (w + Z.of_nat (length tokens)) (train_counts c tokens label).
Proof.
  intros Hinv Hd Hw. unfold train_counts.
  apply count_tokens_inv; [|done]. by apply count_document_inv.
Qed.

Lemma empty_counts_inv : counts_inv 0 0 empty_counts.
Proof.
  unfold counts_inv, empty_counts. cbn. rewrite !sum_values_empty.
  repeat split; try apply map_Forall_empty.
  - intros [? Ht]. by rewrite lookup_empty in Ht.
  - intros (L & row & HL & _). by rewrite lookup_empty in HL.
Qed.

Lemma counts_inv_model d w c : counts_inv d w c -> model_invariant (of_counts c).
Proof.
  intros (Htot & Hsum & Hdocs & Hrows & Hw & Htotals & Hwords & Hvoc).
  unfold model_invariant, of_counts.
  cbn [classDocCounts classWordCounts classTotalWords vocabulary totalDocs].
  split; [|split; [|split]].
  - intros L. cbn. destruct (docs_of c !! L) as [n|] eqn:HL; cbn; [|lia].
    specialize (Hdocs L n HL). simpl in Hdocs. lia.
  - cbn. lia.
  - intros L. rewrite get_map_of_rows. cbn [get_int]. rewrite Hrows.
    destruct (words_of c !! L); cbn; [done | apply sum_values_empty].
  - intros t. unfold has_key at 1. rewrite bool_decide_eq_true, Hvoc.
    split.
    + intros (L & row & HL & Hr). exists L.
      rewrite get_map_of_rows, HL. cbn. by apply bool_decide_eq_true_2.
    + intros (L & HL). rewrite get_map_of_rows in HL.
      destruct (words_of c !! L) as [row|] eqn:Hrow; cbn in HL; [|done].
      apply bool_decide_eq_true_1 in HL. eauto.
Qed.

Section TrainingInvariants.
Context {uni : Unicode}.

Lemma tokens_in_nonneg docs : 0 <= tokens_in docs.
Proof. induction docs as [|doc docs IH]; simpl; lia. Qed.

Lemma TrainBatch_inv docs d w c :
  counts_inv d w c ->
  d + Z.of_nat (length docs) <= MaxInt ->
  w + tokens_in docs <= MaxInt ->
  exists c', TrainBatch (of_counts c) docs = Ok (of_counts c') /\
             counts_inv (d + Z.of_nat (length docs)) (w + tokens_in docs) c'.
Proof.
  revert d w c. induction docs as [|doc docs IH]; intros d w c Hinv Hd Hw.
  - exists c. split; [done|]. simpl. by rewrite !Z.add_0_r.
  - pose proof (tokens_in_nonneg docs) as Hpos.
    cbn [length tokens_in foldr] in *.
    set (k := Z.of_nat (length (tokenize (Text doc)))) in *.
    fold (tokens_in docs) in *.
    destruct (IH (d + 1) (w + k) (train_counts c (tokenize (Text doc)) (Label doc)))
      as (c' & Hrun & Hinv'); [|lia|lia|].
    { apply train_counts_inv; [done | lia | fold k; lia]. }
    exists c'. split.
    + unfold TrainBatch in *. cbn [for_each]. rewrite Train_counts. apply Hrun.
    + replace (d + Z.of_nat (S (length docs))) with (d + 1 + Z.of_nat (length docs)) by lia.
      by replace (w + (k + tokens_in docs)) with (w + k + tokens_in docs) by lia.
Qed.

Lemma trained_nonneg d w nb : trained d w nb -> 0 <= d /\ 0 <= w.
Proof.
  induction 1 as [|d w nb text label nb' _ IH _|d w nb docs nb' _ IH _|];
    [lia| lia | | lia].
  pose proof (tokens_in_nonneg docs). lia.
Qed.

Lemma trained_counts d w nb :
  trained d w nb -> d <= MaxInt -> w <= MaxInt ->
  exists c, nb = of_counts c /\ counts_inv d w c.
Proof.
  induction 1 as [|d w nb text label nb' Hprev IH HT
                  |d w nb docs nb' Hprev IH HT|d w nb _ _]; intros Hd Hw.
  - exists empty_counts. split; [done | apply empty_counts_inv].
  - destruct (trained_nonneg _ _ _ Hprev) as [Hd0 Hw0].
    destruct IH as (c & -> & Hinv); [lia|lia|].
    rewrite Train_counts in HT. injection HT as <-.
    eexists. split; [done|]. apply train_counts_inv; [done|lia|lia].
  - destruct (trained_nonneg _ _ _ Hprev) as [Hd0 Hw0].
    pose proof (tokens_in_nonneg docs) as Hpos.
    destruct IH as (c & -> & Hinv); [lia|lia|].
    destruct (TrainBatch_inv docs d w c Hinv Hd Hw) as (c' & Hrun & Hinv').
    rewrite Hrun in HT. injection HT as <-. by exists c'.
  - exists empty_counts. split; [done | apply empty_counts_inv].
Qed.

(** C7. In every state that training reaches from the empty classifier
    with at most [MaxInt] documents and at most [MaxInt] tokens since it was
    last empty, the invariants of the specification hold together: no
    document counter is negative, [totalDocs] is the sum of the document
    counters, every [classTotalWords] entry is the sum of its row of word
    counters, and the vocabulary is the union of the keys of the rows. *)
Theorem trained_model_invariant d w nb :
  trained d w nb -> d <= MaxInt -> w <= MaxInt -> model_invariant nb.
Proof.
  intros Ht Hd Hw.
  destruct (trained_counts d w nb Ht Hd Hw) as (c & -> & Hinv).
  by eapply counts_inv_model.
Qed.

End TrainingInvariants.

(** *** The known-example model *)

Lemma New_counts : NewNaiveBayesClassifier = of_counts empty_counts.
Proof. reflexivity. Qed.

Lemma known_model_trained : trained (uni := ascii_unicode) 2 6 known_model.
Proof.
  assert (trained (uni := ascii_unicode) 1 3
            (of_counts (train_counts empty_counts ["great"; "and"; "wonderful"]
                          "positive"))) as H1.
  { apply (trained_Train (uni := ascii_unicode) 0 0 NewNaiveBayesClassifier
             "great and wonderful" "positive"); [constructor|].
    rewrite New_counts. apply (Train_counts (uni := ascii_unicode)). }
  apply (trained_Train (uni := ascii_unicode) 1 3 _ "terrible and awful"
           "negative" _ H1).
  apply (Train_counts (uni := ascii_unicode)).
Qed.

Lemma known_model_batch :
  TrainBatch (uni := ascii_unicode) NewNaiveBayesClassifier known_examples =
  Ok known_model.
Proof.
  unfold TrainBatch, known_examples. cbn [for_each Text Label].
  rewrite New_counts, (Train_counts (uni := ascii_unicode)).
  cbn [mbind result_bind].
  by rewrite (Train_counts (uni := ascii_unicode)).
Qed.

Lemma trained_model_invariant_witness : model_invariant known_model.
Proof.
  apply (trained_model_invariant (uni := ascii_unicode) 2 6 known_model).
  - exact known_model_trained.
  - unfold MaxInt. lia.
  - unfold MaxInt. lia.
Defined.

(** *** Counters wrap *)

Lemma flooded_step n :
  train_counts (flooded n) [] "" = flooded (n + 1).
Proof.
  unfold train_counts, count_document, flooded. cbn.
  rewrite lookup_singleton_eq. cbn. rewrite lookup_singleton_eq.
  rewrite insert_singleton_eq. unfold incr. by rewrite wrap_wrap_add.
Qed.

Lemma flooded_first : train_counts empty_counts [] "" = flooded 1.
Proof. reflexivity. Qed.

Lemma tokenize_empty_ascii : tokenize (uni := ascii_unicode) "" = [].
Proof. reflexivity. Qed.

Lemma flooded_trained (n : nat) :
  trained (uni := ascii_unicode) (Z.of_nat (S n)) 0
    (of_counts (flooded (Z.of_nat (S n)))).
Proof.
  induction n as [|n IH].
  - change (Z.of_nat 1) with (0 + 1).
    change 0 with (0 + Z.of_nat (length (tokenize (uni := ascii_unicode) ""))) at 2.
    apply (trained_Train 0 0 NewNaiveBayesClassifier "" ""); [constructor|].
    rewrite New_counts, (Train_counts (uni := ascii_unicode)).
    by rewrite tokenize_empty_ascii, flooded_first.
  - replace (Z.of_nat (S (S n))) with (Z.of_nat (S n) + 1) by lia.
    change 0 with (0 + Z.of_nat (length (tokenize (uni := ascii_unicode) ""))) at 1.
    eapply trained_Train; [exact IH|].
    rewrite (Train_counts (uni := ascii_unicode)).
    by rewrite tokenize_empty_ascii, flooded_step.
Qed.

(** C7, as stated, fails: after 2^63 documents with one label the
    label's document counter has wrapped around to [MinInt]. *)
Lemma reachable_counter_negative :
  exists nb, reachable (uni := ascii_unicode) nb /\ ~ model_invariant nb.
Proof.
  exists (of_counts (flooded (2 ^ 63))). split.
  - exists (2 ^ 63), 0.
    pose proof (flooded_trained (Z.to_nat (2 ^ 63 - 1))) as H.
    replace (Z.of_nat (S (Z.to_nat (2 ^ 63 - 1)))) with (2 ^ 63) in H; [done|].
    rewrite Nat2Z.inj_succ, Z2Nat.id; lia.
  - intros (Hneg & _). specialize (Hneg "").
    unfold of_counts, flooded in Hneg. cbn in Hneg.
    rewrite lookup_singleton_eq in Hneg. cbn in Hneg.
    vm_compute in Hneg. by apply Hneg.
Qed.

(** *** One call of [Train] *)

Lemma count_tokens_frame label tokens c :
  docs_of (foldl (count_token label) c tokens) = docs_of c /\
  total_of (foldl (count_token label) c tokens) = total_of c /\
  (forall t, is_Some (vocab_of c !! t) ->
             is_Some (vocab_of (foldl (count_token label) c tokens) !! t)).
Proof.
  revert c. induction tokens as [|tok tokens IH]; intros c; [done|].
  cbn [foldl]. destruct (IH (count_token label c tok)) as (Hd & Ht & Hv).
  rewrite Hd, Ht. repeat split; try done.
  intros t Hin. apply Hv. unfold count_token. cbn.
  destruct (decide (tok = t)) as [<-|Hne].
  - rewrite lookup_insert_eq. by eexists.
  - by rewrite lookup_insert_ne.
Qed.

Section TrainStep.
Context {uni : Unicode}.

(** C6. On a classifier whose maps are allocated, one call of [Train]
    returns, whatever the text and the label (the empty text and the empty
    label included); it adds one to [totalDocs] and to the label's document
    counter in 64-bit arithmetic, which is exactly one more unless the
    counter stood at [MaxInt]; and every token of the vocabulary stays in
    it. *)
Theorem Train_increments nb text label :
  allocated nb ->
  is_int (totalDocs nb) ->
  is_int (get_int (classDocCounts nb) label) ->
  exists nb',
    Train nb text label = Ok nb' /\
    totalDocs nb' = incr (totalDocs nb) /\
    get_int (classDocCounts nb') label = incr (get_int (classDocCounts nb) label) /\
    (totalDocs nb < MaxInt -> totalDocs nb' = totalDocs nb + 1) /\
    (get_int (classDocCounts nb) label < MaxInt ->
     get_int (classDocCounts nb') label = get_int (classDocCounts nb) label + 1) /\
    (forall t, has_key (vocabulary nb) t = true ->
               has_key (vocabulary nb') t = true).
Proof.
  intros [c ->] Htot Hdoc.
  exists (of_counts (train_counts c (tokenize text) label)).
  split; [apply Train_counts|].
  unfold train_counts.
  destruct (count_tokens_frame label (tokenize text) (count_document label c))
    as (Hd & Ht & Hv).
  unfold of_counts in *.
  cbn [totalDocs classDocCounts vocabulary get_int has_key] in *.
  rewrite Hd, Ht. unfold count_document at 1 2 3 4.
  cbn [docs_of total_of]. rewrite lookup_insert_eq. cbn [default].
  repeat split.
  - intros Hlt. apply incr_exact; [done|lia].
  - intros Hlt. apply incr_exact; [done|lia].
  - intros t Hin. apply bool_decide_eq_true_2, Hv.
    by apply bool_decide_eq_true_1 in Hin.
Qed.

(** C3 on its failing input: a classifier that [LoadSnapshot] filled from a
    snapshot without maps panics at the first assignment of [Train]. *)
Theorem Train_after_absent_snapshot_panics sch nb text label :
  Train (LoadSnapshot sch nb absent_snapshot) text label =
  Panic nil_map_assignment.
Proof. reflexivity. Qed.

(** A row of [classWordCounts] that the snapshot holds as [null] makes the
    token loop panic in the same way. *)
Lemma train_token_nil_row label nb token :
  token ≠ "" ->
  is_Some (vocabulary nb) ->
  get_map (classWordCounts nb) label = None ->
  train_token label nb token = Panic nil_map_assignment.
Proof.
  intros Hne [voc Hvoc] Hrow. unfold train_token.
  apply String.eqb_neq in Hne. rewrite Hne, Hvoc, Hrow. reflexivity.
Qed.

(** From the empty classifier no call panics. *)
Lemma trained_Train_returns d w nb text label :
  trained d w nb -> exists nb', Train nb text label = Ok nb'.
Proof.
  intros H. destruct (trained_allocated _ _ _ H) as [c ->].
  rewrite Train_counts. by eexists.
Qed.

End TrainStep.

Lemma Train_increments_witness :
  exists nb',
    Train (uni := ascii_unicode) known_model "" "" = Ok nb' /\
    totalDocs nb' = 3 /\ get_int (classDocCounts nb') "" = 1.
Proof.
  destruct (Train_increments (uni := ascii_unicode) known_model "" "")
    as (nb' & Hrun & _ & _ & Htot & Hdoc & _).
  - by exists known_counts.
  - vm_compute. split; discriminate.
  - vm_compute. split; discriminate.
  - exists nb'. split; [exact Hrun|]. split.
    + rewrite Htot; [reflexivity | vm_compute; reflexivity].
    + rewrite Hdoc; [reflexivity | vm_compute; reflexivity].
Defined.

(** C6, as stated, fails: at [MaxInt] the counters wrap around. *)
Lemma Train_wraps_at_MaxInt :
  let nb := LoadSnapshot in_order NewNaiveBayesClassifier full_snapshot in
  exists nb',
    Train (uni := ascii_unicode) nb "good" "positive" = Ok nb' /\
    totalDocs nb = MaxInt /\
    totalDocs nb' = MinInt /\
    totalDocs nb' <> totalDocs nb + 1 /\
    get_int (classDocCounts nb') "positive" = MinInt.
Proof.
  eexists. split; [vm_compute; reflexivity|].
  vm_compute. repeat split; discriminate.
Qed.

(* ------------------------------------------------------------------ *)
(** ** Snapshots *)

Lemma foldl_copy_entry {V : Type} (l : list (string * V)) (acc : gmap string V) :
  foldl copy_entry acc l = list_to_map (reverse l) ∪ acc.
Proof.
  revert acc. induction l as [|[k v] l IH]; intros acc.
  - rewrite reverse_nil. cbn [list_to_map foldr foldl].
    by rewrite (left_id_L ∅ (∪)).
  - cbn [foldl]. rewrite IH, reverse_cons, list_to_map_app.
    unfold copy_entry. cbn.
    rewrite <- (assoc_L (∪)). f_equal.
    by rewrite insert_empty, <- insert_union_singleton_l.
Qed.

(** Copying the entries of a map into a fresh one gives the map back, in
    whatever order [range] enumerates them. *)
Lemma copy_entries {V : Type} (sch : Schedule) (g : gmap string V) :
  foldl copy_entry ∅ (range sch (Some g)) = g.
Proof.
  rewrite foldl_copy_entry, (right_id_L ∅ (∪)).
  symmetry. apply list_to_map_flip.
  rewrite reverse_Permutation. cbn. by rewrite shuffle_perm.
Qed.

Lemma copyIntMap_id sch m : copyIntMap sch m = m.
Proof.
  destruct m as [g|]; [|done]. unfold copyIntMap. by rewrite copy_entries.
Qed.

Lemma foldl_pointwise {A B : Type} (f g : A -> B -> A) (l : list B) (a : A) :
  (forall a b, f a b = g a b) -> foldl f a l = foldl g a l.
Proof.
  intros Hfg. revert a. induction l as [|b l IH]; intros a; [done|].
  cbn. by rewrite Hfg, IH.
Qed.

Lemma copyNestedMap_id sch m : copyNestedMap sch m = m.
Proof.
  destruct m as [g|]; [|done]. unfold copyNestedMap. f_equal.
  rewrite <- (copy_entries sch g) at 2.
  apply foldl_pointwise. intros dst [k row]. unfold copy_entry. cbn.
  by rewrite copyIntMap_id.
Qed.

Lemma foldl_insert_unit (l : list string) (acc : gmap string unit) t :
  foldl (fun voc token => <[token := tt]> voc) acc l !! t =
  if decide (t ∈ l) then Some tt else acc !! t.
Proof.
  revert acc. induction l as [|x l IH]; intros acc.
  - cbn. by rewrite decide_False by apply not_elem_of_nil.
  - cbn [foldl]. rewrite IH.
    destruct (decide (t ∈ l)) as [Hin|Hnin].
    + by rewrite decide_True by (by right).
    + destruct (decide (x = t)) as [->|Hne].
      * rewrite decide_True by (by left). by rewrite lookup_insert_eq.
      * rewrite decide_False.
        -- by rewrite lookup_insert_ne.
        -- intros [->|?]%elem_of_cons; done.
Qed.

Lemma vocabulary_round_trip sch (voc : gmap string unit) :
  foldl (fun voc token => <[token := tt]> voc) ∅
    (sort_Strings (range sch (Some voc)).*1) = voc.
Proof.
  apply map_eq. intros t. rewrite foldl_insert_unit, lookup_empty.
  assert (t ∈ sort_Strings (range sch (Some voc)).*1 <-> is_Some (voc !! t)) as Hin.
  { unfold sort_Strings. rewrite merge_sort_Permutation. cbn.
    rewrite shuffle_perm. rewrite list_elem_of_fmap. split.
    - intros ([k []] & -> & Hk). apply elem_of_map_to_list in Hk. by eexists.
    - intros [[] Hk]. exists (t, tt). split; [done|].
      by apply elem_of_map_to_list. }
  destruct (decide (t ∈ sort_Strings (range sch (Some voc)).*1)) as [H|H].
  - apply Hin in H as [[] H]. by rewrite H.
  - destruct (voc !! t) as [[]|] eqn:Hv; [|done].
    exfalso. apply H, Hin. by eexists.
Qed.

(** Loading a snapshot of a classifier whose vocabulary is allocated gives
    the classifier back. *)
Lemma LoadSnapshot_TakeSnapshot sch1 sch2 nb0 nb :
  is_Some (vocabulary nb) ->
  LoadSnapshot sch2 nb0 (TakeSnapshot sch1 nb) = nb.
Proof.
  intros [voc Hvoc]. destruct nb as [cdc cwc ctw v td]. cbn in Hvoc. subst v.
  unfold LoadSnapshot, TakeSnapshot.
  cbn [ClassDocCounts ClassWordCounts ClassTotalWords Vocabulary TotalDocs
       classDocCounts classWordCounts classTotalWords vocabulary totalDocs].
  by rewrite !copyIntMap_id, !copyNestedMap_id, vocabulary_round_trip.
Qed.

(** The vocabulary of a snapshot is in ascending order. *)
Lemma string_le_total : stdpp.base.Total string_le.
Proof. intros a b. unfold string_le. apply String.leb_total. Qed.

Lemma TakeSnapshot_sorted sch nb : Sorted string_le (Vocabulary (TakeSnapshot sch nb)).
Proof. apply Sorted_merge_sort, string_le_total. Qed.

Section SnapshotFacts.
Context {uni : Unicode}.

(** C4. For every trained model, loading its snapshot gives a model whose
    four state components and [totalDocs] equal the original's, field for
    field (the vocabulary as a set: the snapshot lists it in ascending
    order), so [Predict] returns the same label and distribution on every
    text, with every [float64] arithmetic and every enumeration order of
    the maps. *)
Theorem snapshot_round_trip d w nb sch1 sch2 nb0 :
  trained d w nb ->
  let nb' := LoadSnapshot sch2 nb0 (TakeSnapshot sch1 nb) in
  classDocCounts nb' = classDocCounts nb /\
  classWordCounts nb' = classWordCounts nb /\
  classTotalWords nb' = classTotalWords nb /\
  vocabulary nb' = vocabulary nb /\
  totalDocs nb' = totalDocs nb /\
  forall (fl : Float64) (sch : Schedule) (text : string),
    Predict sch nb' text = Predict sch nb text.
Proof.
  intros Ht nb'.
  assert (nb' = nb) as ->; [|by repeat split].
  apply LoadSnapshot_TakeSnapshot.
  destruct (trained_allocated _ _ _ Ht) as [c ->]. by eexists.
Qed.

End SnapshotFacts.

Lemma snapshot_round_trip_witness :
  Vocabulary (TakeSnapshot reversed known_model) =
    ["and"; "awful"; "great"; "terrible"; "wonderful"] /\
  LoadSnapshot in_order NewNaiveBayesClassifier (TakeSnapshot reversed known_model) =
    known_model.
Proof.
  split; [vm_compute; reflexivity|].
  destruct (snapshot_round_trip (uni := ascii_unicode) 2 6 known_model
              reversed in_order NewNaiveBayesClassifier known_model_trained)
    as (H1 & H2 & H3 & H4 & H5 & _).
  destruct (LoadSnapshot in_order NewNaiveBayesClassifier
              (TakeSnapshot reversed known_model)) as [a b c e f].
  cbn in H1, H2, H3, H4, H5. by subst.
Defined.

(* ------------------------------------------------------------------ *)
(** ** [float64] comparisons *)

Lemma SFltb_irrefl x : SFltb x x = false.
Proof.
  unfold SFltb, SFcompare.
  destruct x as [s|s| |s m e]; try destruct s; try reflexivity;
    rewrite Z.compare_refl;
    change (PosDef.Pos.compare_cont Eq m m) with (Pos.compare m m);
    rewrite Pos.compare_refl; reflexivity.
Qed.

Ltac cmp_cases :=
  repeat match goal with
  | |- context [Z.compare ?a ?b] => destruct (Z.compare_spec a b); subst
  | H : context [Z.compare ?a ?b] |- _ => destruct (Z.compare_spec a b); subst
  | |- context [Pos.compare ?a ?b] => destruct (Pos.compare_spec a b); subst
  | H : context [Pos.compare ?a ?b] |- _ => destruct (Pos.compare_spec a b); subst
  end.

Lemma SFltb_trans x y z :
  SFltb x y = true -> SFltb y z = true -> SFltb x z = true.
Proof.
  unfold SFltb, SFcompare.
  destruct x as [sx|sx| |sx mx ex], y as [sy|sy| |sy my ey],
    z as [sz|sz| |sz mz ez];
    try destruct sx; try destruct sy; try destruct sz;
    try discriminate; try reflexivity;
    change PosDef.Pos.compare_cont with Pos.compare_cont;
    repeat match goal with
           | |- context [Pos.compare_cont Eq ?a ?b] =>
             change (Pos.compare_cont Eq a b) with (Pos.compare a b)
           end;
    intros H1 H2; cmp_cases; simpl in *;
    try discriminate; try reflexivity; try lia.
Qed.

(** On binary64 [>] is irreflexive and transitive, NaN included. *)
#[global] Instance IEEE_order (Log Exp : float -> float) : GtOrder (IEEE Log Exp).
Proof.
  split; cbn [f_gt IEEE float64].
  - intros x. rewrite ltb_spec. apply SFltb_irrefl.
  - intros x y z Hxy Hyz. rewrite ltb_spec in *. by eapply SFltb_trans.
Qed.

#[global] Instance Exact_order : GtOrder Exact.
Proof.
  split; cbn [f_gt Exact float64].
  - intros [| | |r]; cbn; try done. destruct (Rlt_dec r r); [lra|done].
  - intros [| | |x] [| | |y] [| | |z]; cbn; try done.
    destruct (Rlt_dec y x), (Rlt_dec z y), (Rlt_dec z x); try done. lra.
Qed.

(* ------------------------------------------------------------------ *)
(** ** The class loop of [Predict] *)

Section ScoringFacts.
Context {uni : Unicode} {fl : Float64}.

Lemma add_tokens_raw nb C tokens acc :
  Forall (fun t => t ≠ "") tokens ->
  foldl (add_token nb C (of_int (get_int (classTotalWords nb) C))
           (of_int (len (vocabulary nb)))) acc tokens =
  foldl (fun score token => f_add score (log_likelihood nb C token)) acc tokens.
Proof.
  revert acc. induction tokens as [|t tokens IH]; intros acc Hne; [done|].
  apply Forall_cons in Hne as [Ht Hne]. cbn [foldl]. rewrite <- IH by done.
  f_equal. unfold add_token. apply String.eqb_neq in Ht. by rewrite Ht.
Qed.

(** The score the loop gives a class is the raw score of the
    specification: the branch for an empty token is never taken. *)
Lemma class_score nb text C :
  foldl (add_token nb C (of_int (get_int (classTotalWords nb) C))
           (of_int (len (vocabulary nb)))) (log_prior nb C) (tokenize text) =
  raw_score nb text C.
Proof.
  apply add_tokens_raw, Forall_forall. intros t Ht. by eapply tokenize_nonempty.
Qed.

(** What one class does to the loop state. *)
Lemma score_class_step nb text st C n :
  get_int (classDocCounts nb) C = n ->
  score_class nb (tokenize text) (of_int (len (vocabulary nb))) st (C, n) =
  if n =? 0 then st
  else
    let s := raw_score nb text C in
    {| scores := <[C := s]> (scores st);
       bestLabel := if f_gt s (bestScore st) then C else bestLabel st;
       bestScore := if f_gt s (bestScore st) then s else bestScore st |}.
Proof.
  intros Hn. unfold score_class. destruct (n =? 0); [done|].
  assert (foldl (add_token nb C (of_int (get_int (classTotalWords nb) C))
                   (of_int (len (vocabulary nb))))
            (math_Log (f_div (of_int n) (of_int (totalDocs nb))))
            (tokenize text) = raw_score nb text C) as ->.
  { rewrite <- Hn. apply class_score. }
  cbn zeta. by destruct (f_gt (raw_score nb text C) (bestScore st)).
Qed.

Lemma scores_inv_step nb text seen st C n :
  get_int (classDocCounts nb) C = n ->
  scores_inv nb text seen st ->
  scores_inv nb text (seen ++ [(C, n)])
    (score_class nb (tokenize text) (of_int (len (vocabulary nb))) st (C, n)).
Proof.
  intros Hn (Hs1 & Hs2). rewrite score_class_step by done.
  destruct (n =? 0) eqn:Hz.
  - apply Z.eqb_eq in Hz. split.
    + intros C' n' [Hin|Hin]%elem_of_app Hne; [by eapply Hs1|].
      apply list_elem_of_singleton in Hin. injection Hin as -> ->. lia.
    + intros C' HC'. destruct (Hs2 C' HC') as (n' & Hin & Hne).
      exists n'. split; [|done]. apply elem_of_app. by left.
  - apply Z.eqb_neq in Hz. cbn zeta. split; cbn [scores].
    + intros C' n' [Hin|Hin]%elem_of_app Hne.
      * destruct (decide (C = C')) as [<-|HC].
        -- by rewrite lookup_insert_eq.
        -- rewrite lookup_insert_ne by done. by eapply Hs1.
      * apply list_elem_of_singleton in Hin. injection Hin as -> ->.
        by rewrite lookup_insert_eq.
    + intros C' HC'. destruct (decide (C = C')) as [<-|HC].
      * exists n. split; [|done]. apply elem_of_app. right. by left.
      * rewrite lookup_insert_ne in HC' by done.
        destruct (Hs2 C' HC') as (n' & Hin & Hne).
        exists n'. split; [|done]. apply elem_of_app. by left.
Qed.

Lemma best_inv_step `{!GtOrder fl} nb text seen st C n :
  get_int (classDocCounts nb) C = n ->
  best_inv nb text seen st ->
  best_inv nb text (seen ++ [(C, n)])
    (score_class nb (tokenize text) (of_int (len (vocabulary nb))) st (C, n)).
Proof.
  intros Hn (Hb1 & Hb2). rewrite score_class_step by done.
  destruct (n =? 0) eqn:Hz.
  - apply Z.eqb_eq in Hz. split.
    + intros C' n' [Hin|Hin]%elem_of_app Hne; [by eapply Hb1|].
      apply list_elem_of_singleton in Hin. injection Hin as -> ->. lia.
    + destruct Hb2 as [Hb2|(n' & Hin & Hne & Hbest & Hgt)]; [by left|].
      right. exists n'. repeat split; try done. apply elem_of_app. by left.
  - apply Z.eqb_neq in Hz. cbn zeta.
    set (s := raw_score nb text C).
    destruct (f_gt s (bestScore st)) eqn:Hgt; split; cbn [bestLabel bestScore].
    + intros C' n' [Hin|Hin]%elem_of_app Hne.
      * specialize (Hb1 C' n' Hin Hne).
        destruct (f_gt (raw_score nb text C') s) eqn:Hgt'; [|done].
        by rewrite (gt_trans _ _ _ Hgt' Hgt) in Hb1.
      * apply list_elem_of_singleton in Hin. injection Hin as -> ->.
        apply gt_irrefl.
    + right. exists n. repeat split; try done.
      * apply elem_of_app. right. by left.
      * destruct Hb2 as [[_ Hbest]|(n' & _ & _ & _ & Hinf)].
        -- by rewrite <- Hbest.
        -- by eapply gt_trans.
    + intros C' n' [Hin|Hin]%elem_of_app Hne; [by eapply Hb1|].
      apply list_elem_of_singleton in Hin. by injection Hin as -> ->.
    + destruct Hb2 as [Hb2|(n' & Hin & Hne & Hbest & Hinf)]; [by left|].
      right. exists n'. repeat split; try done. apply elem_of_app. by left.
Qed.

Lemma loop_invariant (P : list (string * Z) -> scoring -> Prop) nb text l seen st :
  (forall seen st C n, get_int (classDocCounts nb) C = n -> P seen st ->
     P (seen ++ [(C, n)])
       (score_class nb (tokenize text) (of_int (len (vocabulary nb))) st (C, n))) ->
  (forall C n, (C, n) ∈ l -> get_int (classDocCounts nb) C = n) ->
  P seen st ->
  P (seen ++ l)
    (foldl (score_class nb (tokenize text) (of_int (len (vocabulary nb)))) st l).
Proof.
  intros Hstep. revert seen st.
  induction l as [|[C n] l IH]; intros seen st Hl Hinv.
  - by rewrite app_nil_r.
  - cbn [foldl]. replace (seen ++ (C, n) :: l) with ((seen ++ [(C, n)]) ++ l)
      by (by rewrite <- app_assoc).
    apply IH.
    + intros C' n' Hin. apply Hl. by right.
    + apply Hstep; [|done]. apply Hl. by left.
Qed.

Lemma range_entry {V : Type} sch (m : gomap V) k v :
  (k, v) ∈ range sch m <-> exists g, m = Some g /\ g !! k = Some v.
Proof.
  destruct m as [g|]; cbn.
  - rewrite shuffle_perm, elem_of_map_to_list. split; [by eauto|].
    by intros (g' & [= <-] & H).
  - split; [by intros ?%elem_of_nil | by intros (? & ? & _)].
Qed.

Lemma range_scored sch nb C :
  (exists n, (C, n) ∈ range sch (classDocCounts nb) /\ n <> 0) <-> scored nb C.
Proof.
  unfold scored, get_int. split.
  - intros (n & (g & -> & Hg)%range_entry & Hn). by rewrite Hg.
  - intros Hne. destruct (classDocCounts nb) as [g|] eqn:Hcdc; [|done].
    destruct (g !! C) as [n|] eqn:Hg; [|done].
    exists n. split; [|done]. apply range_entry. by exists g.
Qed.

Lemma range_counts sch nb C n :
  (C, n) ∈ range sch (classDocCounts nb) -> get_int (classDocCounts nb) C = n.
Proof.
  intros (g & Hg & Hn)%range_entry. unfold get_int. by rewrite Hg, Hn.
Qed.

(** The loop scores the classes whose document counter is not zero, each
    with its raw score, and no other class. *)
Lemma score_all_scores sch nb text :
  let st := score_all sch nb text in
  (forall C, scored nb C -> scores st !! C = Some (raw_score nb text C)) /\
  (forall C, is_Some (scores st !! C) -> scored nb C).
Proof.
  intros st.
  pose proof (loop_invariant (scores_inv nb text) nb text
                (range sch (classDocCounts nb)) []
                {| scores := ∅; bestLabel := ""; bestScore := math_Inf_neg |}
                (fun seen st C n => scores_inv_step nb text seen st C n)
                (range_counts sch nb)) as H.
  destruct H as (Hs1 & Hs2).
  { split.
    - intros C n Hin. by apply elem_of_nil in Hin.
    - intros C [? H]. cbn in H. by rewrite lookup_empty in H. }
  rewrite app_nil_l in *. fold (score_all sch nb text) in *.
  split.
  - intros C (n & Hin & Hn)%(range_scored sch). by eapply Hs1.
  - intros C HC. apply (range_scored sch). by apply Hs2.
Qed.

(** It leaves a best score that no scored class exceeds, and as label a
    scored class that has it, unless no score exceeded [-Inf]. *)
Lemma score_all_best `{!GtOrder fl} sch nb text :
  let st := score_all sch nb text in
  (forall C, scored nb C -> f_gt (raw_score nb text C) (bestScore st) = false) /\
  ((bestLabel st = "" /\ bestScore st = math_Inf_neg) \/
   (scored nb (bestLabel st) /\
    bestScore st = raw_score nb text (bestLabel st) /\
    f_gt (bestScore st) math_Inf_neg = true)).
Proof.
  intros st.
  pose proof (loop_invariant (best_inv nb text) nb text
                (range sch (classDocCounts nb)) []
                {| scores := ∅; bestLabel := ""; bestScore := math_Inf_neg |}
                (fun seen st C n => best_inv_step nb text seen st C n)
                (range_counts sch nb)) as H.
  destruct H as (Hb1 & Hb2).
  { split.
    - intros C n Hin. by apply elem_of_nil in Hin.
    - by left. }
  rewrite app_nil_l in *. fold (score_all sch nb text) in *.
  split.
  - intros C (n & Hin & Hn)%(range_scored sch). by eapply Hb1.
  - destruct Hb2 as [Hb2|(n & Hin & Hn & Hbest & Hgt)]; [by left|].
    right. repeat split; try done. apply (range_scored sch). eauto.
Qed.

End ScoringFacts.

(* ------------------------------------------------------------------ *)
(** ** [normalizeScores] *)

Lemma copy_permutation {V : Type} (l : list (string * V)) (g : gmap string V) :
  l ≡ₚ map_to_list g -> foldl copy_entry ∅ l = g.
Proof.
  intros Hl. rewrite foldl_copy_entry, (right_id_L ∅ (∪)).
  symmetry. apply list_to_map_flip. by rewrite reverse_Permutation.
Qed.

Lemma range_NoDup {V : Type} sch (g : gmap string V) :
  NoDup (range sch (Some g)).*1.
Proof. cbn. rewrite shuffle_perm. apply NoDup_fst_map_to_list. Qed.

Section NormalizeFacts.
Context {fl : Float64}.

Lemma exp_loop best l m s :
  foldl (exp_step best) (m, s) l =
  (foldl copy_entry m (prod_map (@Datatypes.id string) (fun v => math_Exp (f_sub v best)) <$> l),
   foldl f_add s ((fun kv => math_Exp (f_sub kv.2 best)) <$> l)).
Proof.
  revert m s. induction l as [|[k v] l IH]; intros m s; [done|].
  cbn [foldl fmap list_fmap]. unfold exp_step at 2. cbn [fst snd].
  by rewrite IH.
Qed.

Lemma div_loop sum l (m : gmap string float64) :
  NoDup l.*1 ->
  (forall k v, (k, v) ∈ l -> m !! k = Some v) ->
  foldl (div_step sum) m l =
  foldl copy_entry m (prod_map (@Datatypes.id string) (fun v => f_div v sum) <$> l).
Proof.
  revert m. induction l as [|[k v] l IH]; intros m Hnd Hl; [done|].
  cbn [foldl fmap list_fmap]. cbn in Hnd. apply NoDup_cons in Hnd as [Hk Hnd].
  unfold div_step at 2, copy_entry at 2. cbn [fst snd prod_map Datatypes.id].
  rewrite (Hl k v) by (by left). cbn [default].
  apply IH; [done|]. intros k' v' Hin.
  rewrite lookup_insert_ne; [apply Hl; by right|].
  intros <-. apply Hk. apply list_elem_of_fmap. by exists (k, v').
Qed.

(** [normalizeScores] without its loops: every score becomes
    [Exp(score - bestScore)], and is divided by the sum of these values,
    added in the order of the enumeration, unless that sum is zero. *)
Lemma normalizeScores_spec sch (sc : gmap string float64) best :
  normalizeScores sch sc best =
  if decide (sc = ∅) then ∅
  else
    let values := (fun v => math_Exp (f_sub v best)) <$> sc in
    let sum := foldl f_add f_zero
                 ((fun kv => math_Exp (f_sub kv.2 best)) <$> range sch (Some sc)) in
    if f_eq sum f_zero then values
    else (fun v => f_div v sum) <$> values.
Proof.
  unfold normalizeScores. cbn [len].
  destruct (decide (sc = ∅)) as [->|Hne].
  { by rewrite map_size_empty. }
  assert ((Z.of_nat (size sc) =? 0) = false) as ->.
  { apply Z.eqb_neq. intros H. apply Hne, map_size_empty_iff. lia. }
  rewrite exp_loop.
  assert (foldl copy_entry ∅
            (prod_map (@Datatypes.id string) (fun v => math_Exp (f_sub v best)) <$> range sch (Some sc)) =
          (fun v => math_Exp (f_sub v best)) <$> sc) as ->.
  { apply copy_permutation. unfold range. rewrite shuffle_perm.
    by rewrite map_to_list_fmap. }
  cbn zeta.
  destruct (f_eq _ f_zero); [done|].
  set (values := (fun v => math_Exp (f_sub v best)) <$> sc).
  set (sum := foldl f_add f_zero _).
  rewrite div_loop.
  - rewrite foldl_copy_entry.
    assert (list_to_map
              (reverse (prod_map (@Datatypes.id string) (fun v => f_div v sum) <$>
                         range sch (Some values))) =
            (fun v => f_div v sum) <$> values) as ->.
    { symmetry. apply list_to_map_flip. rewrite reverse_Permutation.
      unfold range. rewrite shuffle_perm. by rewrite map_to_list_fmap. }
    apply map_eq. intros k. rewrite lookup_union, lookup_fmap.
    by destruct (values !! k).
  - apply range_NoDup.
  - intros k v Hin. apply range_entry in Hin as (g & [= <-] & Hk). done.
Qed.

Lemma normalizeScores_keys sch (sc : gmap string float64) best C :
  is_Some (normalizeScores sch sc best !! C) <-> is_Some (sc !! C).
Proof.
  rewrite normalizeScores_spec.
  destruct (decide (sc = ∅)) as [->|Hne]; [done|]. cbn zeta.
  destruct (f_eq _ f_zero); rewrite ?lookup_fmap, ?fmap_is_Some; done.
Qed.

End NormalizeFacts.

(* ------------------------------------------------------------------ *)
(** ** [Predict]: scores and label *)

Section PredictIEEE.
Context {uni : Unicode}.
Variables Log Exp : float -> float.

#[local] Abbreviation ieee := (IEEE Log Exp).

(** The label of [Predict]: a scored class above [-Inf] that no scored
    class exceeds, or the empty string when no score is above [-Inf]. *)
Lemma Predict_label_cases sch nb text :
  let label := (Predict (fl := ieee) sch nb text).1 in
  (scored nb label /\
   PrimFloat.ltb neg_infinity (raw_score (fl := ieee) nb text label) = true /\
   forall C, scored nb C ->
     PrimFloat.ltb (raw_score (fl := ieee) nb text label)
       (raw_score (fl := ieee) nb text C) = false) \/
  (label = "" /\
   forall C, scored nb C ->
     PrimFloat.ltb neg_infinity (raw_score (fl := ieee) nb text C) = false).
Proof.
  intros label.
  destruct (score_all_best (fl := ieee) sch nb text) as (Hb1 & Hb2).
  set (st := score_all (fl := ieee) sch nb text) in *.
  assert (label = bestLabel st) as -> by done.
  destruct Hb2 as [[Hl Hbest]|(Hsc & Hbest & Hgt)].
  - right. split; [done|]. intros C HC. specialize (Hb1 C HC).
    by rewrite Hbest in Hb1.
  - left. split; [done|]. rewrite <- Hbest. split; [exact Hgt|].
    intros C HC. exact (Hb1 C HC).
Qed.

(** C1. For every model state, text and enumeration order, the class loop
    of [Predict] gives every class whose document counter is not zero the
    raw score of the specification, [Log(count / totalDocs)] plus one term
    [Log((count(C, t) + 1) / (classTotalWords[C] + |vocabulary|))] per
    token, and gives no score to a class whose counter is zero or absent.
    The label returned is a scored class whose raw score exceeds [-Inf] and
    that no scored class exceeds, when there is a scored class whose raw
    score exceeds [-Inf]; otherwise it is the empty string. *)
Theorem Predict_raw_scores sch nb text :
  let st := score_all (fl := ieee) sch nb text in
  let label := (Predict (fl := ieee) sch nb text).1 in
  (forall C, scored nb C ->
     scores st !! C = Some (raw_score (fl := ieee) nb text C)) /\
  (forall C, ~ scored nb C -> scores st !! C = None) /\
  ((scored nb label /\
    PrimFloat.ltb neg_infinity (raw_score (fl := ieee) nb text label) = true /\
    forall C, scored nb C ->
      PrimFloat.ltb (raw_score (fl := ieee) nb text label)
        (raw_score (fl := ieee) nb text C) = false) \/
   (label = "" /\
    forall C, scored nb C ->
      PrimFloat.ltb neg_infinity (raw_score (fl := ieee) nb text C) = false)).
Proof.
  intros st label.
  destruct (score_all_scores (fl := ieee) sch nb text) as (Hs1 & Hs2).
  fold st in Hs1, Hs2.
  split; [exact Hs1|]. split.
  - intros C HC. destruct (scores st !! C) eqn:H; [|done].
    exfalso. apply HC, Hs2. by eexists.
  - apply Predict_label_cases.
Qed.

(** C8. [Predict] reads the model and changes nothing; its result is a
    function of the model, the text and the order in which the maps are
    enumerated. When one class has a raw score above [-Inf] that is
    strictly greater than the raw score of every other scored class, that
    class is the label under every enumeration order, so any two calls
    return the same label; and under any two orders the distributions have
    the same classes as keys. *)
Theorem Predict_label_unique_maximum nb text C :
  scored nb C ->
  PrimFloat.ltb neg_infinity (raw_score (fl := ieee) nb text C) = true ->
  (forall C', scored nb C' -> C' <> C ->
     PrimFloat.ltb (raw_score (fl := ieee) nb text C')
       (raw_score (fl := ieee) nb text C) = true) ->
  forall sch1 sch2,
    (Predict (fl := ieee) sch1 nb text).1 = C /\
    (Predict (fl := ieee) sch2 nb text).1 = C /\
    forall C', is_Some ((Predict (fl := ieee) sch1 nb text).2 !! C') <->
               is_Some ((Predict (fl := ieee) sch2 nb text).2 !! C').
Proof.
  intros HC Hinf Hmax.
  assert (forall sch, (Predict (fl := ieee) sch nb text).1 = C) as Hlabel.
  { intros sch.
    destruct (Predict_label_cases sch nb text) as [(Hsc & _ & Hle)|[_ Hnone]].
    - destruct (decide ((Predict (fl := ieee) sch nb text).1 = C)) as [|Hne]; [done|].
      specialize (Hmax _ Hsc Hne). by rewrite (Hle C HC) in Hmax.
    - by rewrite (Hnone C HC) in Hinf. }
  intros sch1 sch2. split; [apply Hlabel|]. split; [apply Hlabel|].
  intros C'. unfold Predict. cbn [snd].
  rewrite !normalizeScores_keys.
  destruct (score_all_scores (fl := ieee) sch1 nb text) as (Ha1 & Ha2).
  destruct (score_all_scores (fl := ieee) sch2 nb text) as (Hb1 & Hb2).
  split; intros H.
  - rewrite Hb1 by (by apply Ha2). by eexists.
  - rewrite Ha1 by (by apply Hb2). by eexists.
Qed.

End PredictIEEE.

Lemma range_singleton {V : Type} sch k (v : V) :
  range sch (Some {[ k := v ]}) = [(k, v)].
Proof.
  unfold range. apply Permutation_singleton_r.
  by rewrite shuffle_perm, map_to_list_singleton.
Qed.

(** C1, as stated, fails on a state with a class of positive document
    counter: with [totalDocs = -1] the prior of the class is
    [Log(1 / -1)], which [math.Log] documents as NaN; a NaN score does not
    exceed [-Inf], and the label is the empty string, which is no class of
    the model. *)
Lemma Predict_label_not_a_class :
  0 < get_int (classDocCounts negative_total) "a" /\
  forall (Log Exp : float -> float) (sch : Schedule),
    Log (-1)%float = nan ->
    (Predict (uni := ascii_unicode) (fl := IEEE Log Exp) sch negative_total "").1 = "" /\
    ~ scored negative_total "".
Proof.
  split; [by vm_compute|]. intros Log Exp sch HLog. split.
  - unfold Predict, score_all. cbn [fst].
    unfold negative_total at 3. cbn [classDocCounts].
    rewrite range_singleton. cbn [foldl].
    rewrite (score_class_step (uni := ascii_unicode) (fl := IEEE Log Exp))
      by reflexivity.
    change (1 =? 0) with false. cbn zeta. cbn [bestLabel bestScore].
    unfold raw_score. rewrite tokenize_empty_ascii. cbn [foldl].
    unfold log_prior. cbn [math_Log f_div f_gt of_int math_Inf_neg IEEE].
    assert (PrimFloat.div
              (int_to_float (get_int (classDocCounts negative_total) "a"))
              (int_to_float (totalDocs negative_total)) = (-1)%float) as ->
      by (vm_compute; reflexivity).
    rewrite HLog. reflexivity.
  - intros H. by apply H.
Qed.

(** C8, as stated, fails when two classes tie: in the known-example model
    the text "and" gives both classes the same raw score, and the label is
    the class that the enumeration visits first. *)
Lemma Predict_tie_depends_on_order :
  (Predict (uni := ascii_unicode) (fl := sample_IEEE) in_order known_model "and").1
    = "negative" /\
  (Predict (uni := ascii_unicode) (fl := sample_IEEE) reversed known_model "and").1
    = "positive" /\
  raw_score (uni := ascii_unicode) (fl := sample_IEEE) known_model "and" "positive" =
  raw_score (uni := ascii_unicode) (fl := sample_IEEE) known_model "and" "negative".
Proof. repeat split; vm_compute; reflexivity. Qed.

Lemma known_model_scored C :
  scored known_model C -> C = "positive" \/ C = "negative".
Proof.
  unfold scored, known_model, of_counts, get_int. cbn [classDocCounts].
  assert (docs_of known_counts = <["negative" := 1]> (<["positive" := 1]> ∅)) as ->
    by (vm_compute; reflexivity).
  intros H.
  destruct (decide (C = "negative")) as [->|Hn]; [by right|].
  destruct (decide (C = "positive")) as [->|Hp]; [by left|].
  rewrite lookup_insert_ne, lookup_insert_ne, lookup_empty in H by done.
  by destruct H.
Qed.

Lemma Predict_label_unique_maximum_witness :
  (Predict (uni := ascii_unicode) (fl := sample_IEEE) in_order known_model "wonderful").1
    = "positive" /\
  (Predict (uni := ascii_unicode) (fl := sample_IEEE) reversed known_model "wonderful").1
    = "positive" /\
  forall C',
    is_Some ((Predict (uni := ascii_unicode) (fl := sample_IEEE) in_order
                known_model "wonderful").2 !! C') <->
    is_Some ((Predict (uni := ascii_unicode) (fl := sample_IEEE) reversed
                known_model "wonderful").2 !! C').
Proof.
  apply (Predict_label_unique_maximum (uni := ascii_unicode)
           sample_Log sample_Exp known_model "wonderful" "positive").
  - by vm_compute.
  - vm_compute. reflexivity.
  - intros C' [->| ->]%known_model_scored Hne; [done|].
    vm_compute. reflexivity.
Defined.

(* ------------------------------------------------------------------ *)
(** ** The distribution in exact arithmetic *)







Section ExactFacts.
Context {uni : Unicode}.





End ExactFacts.

(* ------------------------------------------------------------------ *)
(** ** [Predict]: the distribution *)

Section DistributionFacts.
Context {uni : Unicode}.





End DistributionFacts.




(** A slip of [Predict] that training alone reaches: after documents
    without tokens the vocabulary is empty, the smoothing denominator of a
    text with a token is [0 + 0], the score is [+Inf], and the
    distribution holds NaN. *)
Lemma Predict_NaN_on_empty_vocabulary :
  Train (uni := ascii_unicode) NewNaiveBayesClassifier "!!!" "pos" =
    Ok punctuation_model /\
  Predict (uni := ascii_unicode) (fl := sample_IEEE) in_order punctuation_model "hello" =
    ("pos", {[ "pos" := nan ]}).
Proof.
  split.
  - rewrite New_counts, (Train_counts (uni := ascii_unicode)). reflexivity.
  - vm_compute. reflexivity.
Qed.

(* ------------------------------------------------------------------ *)
(** ** Rounding of [float64(n)] and of the quotient of two counters *)

(** The conversion [float64(n)] and the division are followed through the
    reference implementation of binary64 of the standard library
    ([SpecFloat]), to which the primitive floats are specified equal. *)

Ltac pow_atoms :=
  repeat match goal with
         | |- context [2 ^ ?e] =>
           let a := fresh "pw" in set (a := 2 ^ e) in *; clearbody a
         | H : context [2 ^ ?e] |- _ =>
           let a := fresh "pw" in set (a := 2 ^ e) in *; clearbody a
         end.

(** The number of binary digits of a mantissa. *)
Lemma digits2_pos_bounds p :
  2 ^ (Zpos (digits2_pos p) - 1) <= Zpos p < 2 ^ Zpos (digits2_pos p).
Proof.
  induction p as [p IH|p IH|]; cbn [digits2_pos].
  - rewrite Pos2Z.inj_succ. change (Z.pos p~1) with (2 * Z.pos p + 1).
    replace (Z.succ (Zpos (digits2_pos p)) - 1) with (Z.succ (Zpos (digits2_pos p) - 1)) by lia.
    rewrite !Z.pow_succ_r by lia. pow_atoms. lia.
  - rewrite Pos2Z.inj_succ. change (Z.pos p~0) with (2 * Z.pos p).
    replace (Z.succ (Zpos (digits2_pos p)) - 1) with (Z.succ (Zpos (digits2_pos p) - 1)) by lia.
    rewrite !Z.pow_succ_r by lia. pow_atoms. lia.
  - cbn. lia.
Qed.

Lemma digits2_pos_unique p d :
  2 ^ (d - 1) <= Zpos p < 2 ^ d -> Zpos (digits2_pos p) = d.
Proof.
  intros [Hlo Hhi]. pose proof (digits2_pos_bounds p) as [Blo Bhi].
  assert (0 < d) as Hd.
  { destruct (Z_lt_le_dec 0 d) as [|Hle]; [assumption|].
    assert (2 ^ d <= 1).
    { destruct (Z.eq_dec d 0) as [->|]; [cbn; lia | rewrite Z.pow_neg_r; lia]. }
    lia. }
  destruct (Z.lt_trichotomy (Zpos (digits2_pos p)) d) as [Hlt|[Heq|Hgt]];
    [|assumption|].
  - assert (2 ^ Zpos (digits2_pos p) <= 2 ^ (d - 1))
      by (apply Z.pow_le_mono_r; lia). pow_atoms. lia.
  - assert (2 ^ d <= 2 ^ (Zpos (digits2_pos p) - 1))
      by (apply Z.pow_le_mono_r; lia). pow_atoms. lia.
Qed.

(** One halving of a non-negative mantissa. *)
Lemma shr_1_spec m r s :
  0 <= m ->
  shr_1 {| shr_m := m; shr_r := r; shr_s := s |} =
  {| shr_m := m / 2; shr_r := Z.odd m; shr_s := r || s |}.
Proof.
  intros Hm. destruct m as [|p|p]; [reflexivity| |lia].
  destruct p as [p|p|]; cbn [shr_1 Z.odd].
  - f_equal. change (Z.pos p~1) with (2 * Z.pos p + 1). apply Z.div_unique with (r := 1); lia.
  - f_equal. change (Z.pos p~0) with (2 * Z.pos p). apply Z.div_unique with (r := 0); lia.
  - reflexivity.
Qed.

Lemma iter_pos_nat {A} (f : A -> A) k x :
  SpecFloat.iter_pos f k x = Nat.iter (Pos.to_nat k) f x.
Proof.
  revert x. induction k as [k IH|k IH|]; intros x; cbn [SpecFloat.iter_pos].
  - rewrite !IH, Pos2Nat.inj_xI. cbn [Nat.iter].
    rewrite <- Nat.iter_succ_r. rewrite <- Nat.iter_add. f_equal. lia.
  - rewrite !IH, Pos2Nat.inj_xO. rewrite <- Nat.iter_add. f_equal. lia.
  - reflexivity.
Qed.

Lemma shr_1_m x : 0 <= shr_m x -> shr_m (shr_1 x) = shr_m x / 2.
Proof. destruct x as [m r s]; intros H. rewrite shr_1_spec by exact H. reflexivity. Qed.

Lemma shr_iter_m n x :
  0 <= shr_m x -> shr_m (Nat.iter n shr_1 x) = shr_m x / 2 ^ Z.of_nat n.
Proof.
  intros Hx. induction n as [|n IH].
  - cbn. now rewrite Z.div_1_r.
  - rewrite Nat.iter_succ. rewrite shr_1_m; rewrite IH.
    + rewrite Nat2Z.inj_succ, Z.pow_succ_r by lia.
      rewrite Z.div_div by lia. f_equal. lia.
    + apply Z.div_pos; [exact Hx|]. apply Z.pow_pos_nonneg; lia.
Qed.

(** Position of the discarded bits after [n] halvings of an exact value. *)
Lemma shr_iter_exact n m :
  0 <= m ->
  let x := Nat.iter (S n) shr_1 {| shr_m := m; shr_r := false; shr_s := false |} in
  shr_r x = Z.odd (m / 2 ^ Z.of_nat n) /\
  shr_s x = negb (m mod 2 ^ Z.of_nat n =? 0).
Proof.
  intros Hm. induction n as [|n [IHr IHs]].
  - intros x. subst x. rewrite Nat.iter_succ. change (Nat.iter 0 shr_1 ?z) with z.
    rewrite shr_1_spec by exact Hm. cbn [shr_r shr_s].
    change (2 ^ Z.of_nat 0) with 1. rewrite Z.div_1_r, Z.mod_1_r. split; reflexivity.
  - set (y := Nat.iter (S n) shr_1 _) in *. intros x. subst x.
    rewrite (Nat.iter_succ (S n)). fold y.
    assert (shr_m y = m / 2 ^ Z.of_nat (S n)) as Hy
      by (unfold y; rewrite shr_iter_m; [reflexivity|exact Hm]).
    assert (0 < 2 ^ Z.of_nat n) as Hp by (apply Z.pow_pos_nonneg; lia).
    assert (0 <= shr_m y) as Hy0.
    { rewrite Hy. apply Z.div_pos; [exact Hm|]. apply Z.pow_pos_nonneg; lia. }
    destruct y as [my ry sy]. cbn [shr_m shr_r shr_s] in *.
    rewrite shr_1_spec by exact Hy0. cbn [shr_r shr_s]. split.
    + now rewrite Hy.
    + rewrite IHr, IHs. rewrite (Nat2Z.inj_succ n), Z.pow_succ_r by lia.
      rewrite (Z.mul_comm 2), Z.rem_mul_r by lia.
      pose proof (Z.mod_pos_bound m (2 ^ Z.of_nat n) Hp) as Hb.
      rewrite Zmod_odd.
      destruct (Z.odd (m / 2 ^ Z.of_nat n));
        destruct (Z.eqb_spec (m mod 2 ^ Z.of_nat n) 0) as [E|E]; cbn [orb negb];
        symmetry.
      * apply negb_true_iff, Z.eqb_neq. lia.
      * apply negb_true_iff, Z.eqb_neq. lia.
      * apply negb_false_iff, Z.eqb_eq. lia.
      * apply negb_true_iff, Z.eqb_neq. lia.
Qed.

Lemma shr_nat x e k :
  0 <= k -> shr x e k = (Nat.iter (Z.to_nat k) shr_1 x, e + k).
Proof.
  intros Hk. destruct k as [|p|p]; [|cbn [shr]|lia].
  - cbn. now rewrite Z.add_0_r.
  - rewrite iter_pos_nat. reflexivity.
Qed.

Lemma rne_bounds q l :
  q <= round_nearest_even q l <= q + 1.
Proof.
  destruct l as [|[]]; cbn [round_nearest_even]; try lia.
  destruct (Z.even q); lia.
Qed.

Lemma shr_record_of_loc_m m l : shr_m (shr_record_of_loc m l) = m.
Proof. destruct l as [|[]]; reflexivity. Qed.

Lemma Zdigits2_unique m d :
  0 < m -> 2 ^ (d - 1) <= m < 2 ^ d -> Zdigits2 m = d.
Proof.
  intros Hm H. destruct m as [|p|p]; try lia. cbn [Zdigits2].
  now apply digits2_pos_unique.
Qed.

Lemma fexp_normal e :
  -1074 <= e - 53 -> fexp 53 1024 e = e - 53.
Proof. intros H. unfold fexp, emin. lia. Qed.

(** Rounding a mantissa of [53 + k] bits: [k] bits are shifted out, the
    mantissa is rounded to nearest even, and a carry into bit 54 is
    renormalised. *)
Lemma binary_round_aux_normal mx ex lx k :
  0 <= k -> 2 ^ (52 + k) <= mx < 2 ^ (53 + k) ->
  -1074 <= ex + k -> ex + k + 1 <= 971 ->
  let x := Nat.iter (Z.to_nat k) shr_1 (shr_record_of_loc mx lx) in
  let m1 := round_nearest_even (shr_m x) (loc_of_shr_record x) in
  2 ^ 52 <= m1 <= 2 ^ 53 /\
  binary_round_aux 53 1024 false mx ex lx =
    if m1 <? 2 ^ 53 then S754_finite false (Z.to_pos m1) (ex + k)
    else S754_finite false (Z.to_pos (2 ^ 52)) (ex + k + 1).
Proof.
  intros Hk Hmx Hlo Hhi x m1.
  assert (0 < 2 ^ k) as Hpk by (apply Z.pow_pos_nonneg; lia).
  assert (2 ^ (52 + k) = 2 ^ 52 * 2 ^ k) as E52 by (rewrite Z.pow_add_r; lia).
  assert (2 ^ (53 + k) = 2 ^ 53 * 2 ^ k) as E53 by (rewrite Z.pow_add_r; lia).
  assert (0 < mx) as Hpos.
  { assert (0 < 2 ^ (52 + k)) by (apply Z.pow_pos_nonneg; lia). lia. }
  assert (shr_m x = mx / 2 ^ k) as Hx.
  { unfold x. rewrite shr_iter_m; rewrite shr_record_of_loc_m; [|lia].
    now rewrite Z2Nat.id. }
  assert (2 ^ 52 <= shr_m x < 2 ^ 53) as Hq.
  { rewrite Hx. split.
    - apply Z.div_le_lower_bound; [lia|]. rewrite Z.mul_comm, <- E52. lia.
    - apply Z.div_lt_upper_bound; [lia|]. rewrite Z.mul_comm, <- E53. lia. }
  pose proof (rne_bounds (shr_m x) (loc_of_shr_record x)) as Hb. fold m1 in Hb.
  split; [lia|].
  unfold binary_round_aux, shr_fexp.
  rewrite (Zdigits2_unique mx (53 + k)) by (replace (53 + k - 1) with (52 + k) by lia; lia).
  rewrite fexp_normal by lia.
  replace (53 + k + ex - 53 - ex) with k by lia.
  rewrite shr_nat by lia. fold x. fold m1.
  destruct (Z.ltb_spec m1 (2 ^ 53)) as [Hlt|Hge].
  - rewrite (Zdigits2_unique m1 53) by lia.
    rewrite fexp_normal by lia.
    replace (53 + (ex + k) - 53 - (ex + k)) with 0 by lia.
    rewrite shr_nat by lia. change (Nat.iter (Z.to_nat 0) shr_1 ?z) with z.
    cbn [shr_record_of_loc shr_m].
    destruct m1 as [|p|p]; try lia.
    rewrite Z.add_0_r. cbn [Z.to_pos].
    replace (ex + k <=? 1024 - 53) with true by (symmetry; apply Z.leb_le; lia).
    reflexivity.
  - assert (m1 = 2 ^ 53) as -> by lia.
    rewrite (Zdigits2_unique (2 ^ 53) 54) by lia.
    rewrite fexp_normal by lia.
    replace (54 + (ex + k) - 53 - (ex + k)) with 1 by lia.
    rewrite shr_nat by lia.
    change (Nat.iter (Z.to_nat 1) shr_1 ?z) with (shr_1 z).
    cbn [shr_record_of_loc]. rewrite shr_1_spec by lia. cbn [shr_m].
    change (2 ^ 53 / 2) with (Z.pos (Z.to_pos (2 ^ 52))).
    replace (ex + k + 1 <=? 1024 - 53) with true by (symmetry; apply Z.leb_le; lia).
    reflexivity.
Qed.

Lemma rne_iter k m :
  0 <= k -> 0 <= m ->
  let x := Nat.iter (Z.to_nat k) shr_1 (shr_record_of_loc m loc_Exact) in
  round_nearest_even (shr_m x) (loc_of_shr_record x) = rne_shift m k.
Proof.
  intros Hk Hm x. unfold rne_shift.
  destruct (Z.eqb_spec k 0) as [->|Hk0]; [reflexivity|].
  assert (shr_m x = m / 2 ^ k) as Hx.
  { unfold x. rewrite shr_iter_m; rewrite shr_record_of_loc_m; [|lia].
    now rewrite Z2Nat.id. }
  assert (Z.to_nat k = S (Z.to_nat (k - 1))) as Hn by lia.
  pose proof (shr_iter_exact (Z.to_nat (k - 1)) m Hm) as [Hr Hs].
  rewrite <- Hn in Hr, Hs. cbn [shr_record_of_loc] in x. fold x in Hr, Hs.
  rewrite Z2Nat.id in Hr, Hs by lia.
  assert (0 < 2 ^ (k - 1)) as Hp by (apply Z.pow_pos_nonneg; lia).
  assert (2 ^ k = 2 ^ (k - 1) * 2) as Ek.
  { replace k with (Z.succ (k - 1)) at 1 by lia. rewrite Z.pow_succ_r; lia. }
  assert (m mod 2 ^ k =
          m mod 2 ^ (k - 1) + 2 ^ (k - 1) * (if Z.odd (m / 2 ^ (k - 1)) then 1 else 0)) as Elo.
  { rewrite Ek, Z.rem_mul_r by lia. now rewrite Zmod_odd. }
  pose proof (Z.mod_pos_bound m (2 ^ (k - 1)) Hp) as Hb.
  rewrite Elo. destruct x as [mx rx sx]. cbn [shr_m shr_r shr_s loc_of_shr_record] in *.
  subst mx. rewrite <- Hr.
  destruct rx, sx; cbn [round_nearest_even];
    symmetry in Hs;
    [apply negb_true_iff, Z.eqb_neq in Hs
    |apply negb_false_iff, Z.eqb_eq in Hs
    |apply negb_true_iff, Z.eqb_neq in Hs
    |apply negb_false_iff, Z.eqb_eq in Hs];
    repeat match goal with
           | |- context [?a <? ?b] => destruct (Z.ltb_spec a b); try lia
           | |- context [?a =? ?b] => destruct (Z.eqb_spec a b); try lia
           end; reflexivity.
Qed.

Lemma rne_shift_mono k m m' :
  0 <= k -> 0 <= m <= m' -> rne_shift m k <= rne_shift m' k.
Proof.
  intros Hk Hm. unfold rne_shift.
  destruct (Z.eqb_spec k 0) as [->|Hk0]; [lia|].
  assert (0 < 2 ^ k) as Hp by (apply Z.pow_pos_nonneg; lia).
  pose proof (Z.div_mod m (2 ^ k) ltac:(lia)) as E.
  pose proof (Z.div_mod m' (2 ^ k) ltac:(lia)) as E'.
  pose proof (Z.mod_pos_bound m (2 ^ k) Hp) as B.
  pose proof (Z.mod_pos_bound m' (2 ^ k) Hp) as B'.
  assert (m / 2 ^ k <= m' / 2 ^ k) as Hq by (apply Z.div_le_mono; lia).
  set (q := m / 2 ^ k) in *. set (q' := m' / 2 ^ k) in *.
  set (lo := m mod 2 ^ k) in *. set (lo' := m' mod 2 ^ k) in *.
  set (half := 2 ^ (k - 1)). set (P := 2 ^ k) in *.
  clearbody q q' lo lo' half P.
  destruct (Z.eq_dec q q') as [<-|Hne].
  - assert (lo <= lo') by lia.
    repeat match goal with
           | |- context [?a <? ?b] => destruct (Z.ltb_spec a b); try lia
           | |- context [?a =? ?b] => destruct (Z.eqb_spec a b); try lia
           end; destruct (Z.even q); lia.
  - repeat match goal with
           | |- context [?a <? ?b] => destruct (Z.ltb_spec a b)
           | |- context [?a =? ?b] => destruct (Z.eqb_spec a b)
           end; destruct (Z.even q), (Z.even q'); lia.
Qed.

Lemma pos_iter_xO p d : Zpos (Pos.iter xO p d) = Zpos p * 2 ^ Zpos d.
Proof.
  induction d as [|d IH] using Pos.peano_ind.
  - cbn [Pos.iter]. change (2 ^ 1) with 2. lia.
  - rewrite Pos.iter_succ, Pos2Z.inj_succ, Z.pow_succ_r by lia.
    change (Z.pos (Pos.iter xO p d)~0) with (2 * Z.pos (Pos.iter xO p d)).
    rewrite IH. lia.
Qed.

Lemma Zdigits2_bounds n :
  0 < n -> 2 ^ (Zdigits2 n - 1) <= n < 2 ^ Zdigits2 n.
Proof. destruct n as [|p|p]; try lia. intros _. apply digits2_pos_bounds. Qed.

Lemma Zdigits2_pos n : 0 < n -> 0 < Zdigits2 n.
Proof. destruct n as [|p|p]; cbn; lia. Qed.

Lemma Zdigits2_le n b : 0 < n < 2 ^ b -> Zdigits2 n <= b.
Proof.
  intros [Hn Hb]. pose proof (Zdigits2_bounds n Hn) as [Hlo _].
  destruct (Z_le_gt_dec (Zdigits2 n) b) as [|Hgt]; [assumption|].
  assert (2 ^ b <= 2 ^ (Zdigits2 n - 1)).
  { apply Z.pow_le_mono_r; lia. }
  lia.
Qed.

Lemma Zdigits2_mono n n' : 0 < n <= n' -> Zdigits2 n <= Zdigits2 n'.
Proof.
  intros [Hn Hle]. pose proof (Zdigits2_bounds n Hn) as [Hlo _].
  pose proof (Zdigits2_bounds n' ltac:(lia)) as [_ Hhi].
  pose proof (Zdigits2_pos n' ltac:(lia)).
  destruct (Z_le_gt_dec (Zdigits2 n) (Zdigits2 n')) as [|Hgt]; [assumption|].
  assert (2 ^ Zdigits2 n' <= 2 ^ (Zdigits2 n - 1)).
  { apply Z.pow_le_mono_r; lia. }
  lia.
Qed.

Lemma norm_bounds n :
  0 < n < 2 ^ 63 ->
  2 ^ 52 <= (norm n).1 < 2 ^ 53 /\ -52 <= (norm n).2 <= 11.
Proof.
  intros Hn. unfold norm.
  pose proof (Zdigits2_bounds n ltac:(lia)) as Hd.
  pose proof (Zdigits2_pos n ltac:(lia)) as Hd0.
  pose proof (Zdigits2_le n 63 Hn) as Hd63.
  set (d := Zdigits2 n) in *. clearbody d.
  destruct (Z.leb_spec d 53) as [Hle|Hgt]; cbn [fst snd].
  - split; [|lia].
    assert (2 ^ 52 = 2 ^ (d - 1) * 2 ^ (53 - d)) as ->
      by (rewrite <- Z.pow_add_r by lia; f_equal; lia).
    assert (2 ^ 53 = 2 ^ d * 2 ^ (53 - d)) as ->
      by (rewrite <- Z.pow_add_r by lia; f_equal; lia).
    assert (0 < 2 ^ (53 - d)) by (apply Z.pow_pos_nonneg; lia).
    split; [apply Z.mul_le_mono_nonneg_r|apply Z.mul_lt_mono_pos_r]; lia.
  - destruct (Z.ltb_spec (rne_shift n (d - 53)) (2 ^ 53)) as [Hlt|Hge];
      cbn [fst snd]; [|lia].
    split; [|lia]. split; [|lia].
    pose proof (rne_iter (d - 53) n ltac:(lia) ltac:(lia)) as <-.
    apply (binary_round_aux_normal n 0 loc_Exact (d - 53)); try lia.
    replace (52 + (d - 53)) with (d - 1) by lia.
    replace (53 + (d - 53)) with d by lia. exact Hd.
Qed.

Lemma binary_normalize_norm n :
  0 < n < 2 ^ 63 ->
  binary_normalize 53 1024 n 0 false =
  S754_finite false (Z.to_pos (norm n).1) (norm n).2.
Proof.
  intros Hn. destruct n as [|p|p]; try lia.
  pose proof (Zdigits2_bounds (Zpos p) ltac:(lia)) as Hd.
  pose proof (Zdigits2_le (Zpos p) 63 Hn) as Hd63.
  unfold norm. cbn [binary_normalize Zdigits2] in *. unfold binary_round, shl_align.
  set (d := Zpos (digits2_pos p)) in *.
  assert (0 < d) as Hd0 by (unfold d; lia). clearbody d.
  rewrite fexp_normal by lia.
  destruct (Z.leb_spec d 53) as [Hle|Hgt]; cbn [fst snd].
  - assert (2 ^ 52 <= Zpos p * 2 ^ (53 - d) < 2 ^ 53) as Hb.
    { assert (2 ^ 52 = 2 ^ (d - 1) * 2 ^ (53 - d)) as ->
        by (rewrite <- Z.pow_add_r by lia; f_equal; lia).
      assert (2 ^ 53 = 2 ^ d * 2 ^ (53 - d)) as ->
        by (rewrite <- Z.pow_add_r by lia; f_equal; lia).
      assert (0 < 2 ^ (53 - d)) by (apply Z.pow_pos_nonneg; lia).
      split; [apply Z.mul_le_mono_nonneg_r|apply Z.mul_lt_mono_pos_r]; lia. }
    assert (exists mz, (match d + 0 - 53 - 0 with
                        | Z.neg s => (Pos.iter xO p s, d + 0 - 53)
                        | _ => (p, 0)
                        end) = (mz, d - 53) /\ Zpos mz = Zpos p * 2 ^ (53 - d))
      as (mz & -> & Emz).
    { destruct (d + 0 - 53 - 0) as [|s|s] eqn:Es; try lia.
      - exists p. replace (d - 53) with 0 by lia. replace (53 - d) with 0 by lia.
        split; [reflexivity|]. change (2 ^ 0) with 1. lia.
      - exists (Pos.iter xO p s). rewrite pos_iter_xO.
        replace (d + 0 - 53) with (d - 53) by lia.
        replace (53 - d) with (Zpos s) by lia. split; reflexivity. }
    rewrite <- Emz in *.
    destruct (binary_round_aux_normal (Zpos mz) (d - 53) loc_Exact 0) as [_ ->];
      try lia.
    change (Nat.iter (Z.to_nat 0) shr_1 ?z) with z.
    cbn [shr_record_of_loc shr_m loc_of_shr_record round_nearest_even].
    replace (Zpos mz <? 2 ^ 53) with true by (symmetry; apply Z.ltb_lt; lia).
    rewrite Z.add_0_r. reflexivity.
  - replace (d + 0 - 53 - 0) with (Zpos (Z.to_pos (d - 53))) by lia.
    cbv iota.
    destruct (binary_round_aux_normal (Zpos p) 0 loc_Exact (d - 53)) as [_ ->];
      try lia.
    { replace (52 + (d - 53)) with (d - 1) by lia.
      replace (53 + (d - 53)) with d by lia. exact Hd. }
    rewrite (rne_iter (d - 53) (Zpos p)) by lia.
    destruct (rne_shift (Z.pos p) (d - 53) <? 2 ^ 53); cbn [fst snd];
      rewrite ?Z.add_0_l; reflexivity.
Qed.

Lemma norm_mono n n' :
  0 < n <= n' -> n' < 2 ^ 63 -> lex_le (norm n) (norm n').
Proof.
  intros Hn Hn'.
  pose proof (norm_bounds n ltac:(lia)) as [Bm _].
  pose proof (norm_bounds n' ltac:(lia)) as [Bm' _].
  pose proof (Zdigits2_mono n n' Hn) as Hdd.
  pose proof (Zdigits2_pos n ltac:(lia)) as Hd0.
  unfold lex_le, norm in *.
  set (d := Zdigits2 n) in *. set (d' := Zdigits2 n') in *. clearbody d d'.
  destruct (Z.leb_spec d 53) as [Hle|Hgt];
    destruct (Z.leb_spec d' 53) as [Hle'|Hgt']; cbn [fst snd] in *.
  - destruct (Z.eq_dec d d') as [<-|Hne]; [right|left; lia].
    split; [reflexivity|].
    apply Z.mul_le_mono_nonneg_r; [|lia]. apply Z.pow_nonneg; lia.
  - destruct (rne_shift n' (d' - 53) <? 2 ^ 53); cbn [fst snd]; left; lia.
  - lia.
  - destruct (Z.eq_dec d d') as [<-|Hne].
    + pose proof (rne_shift_mono (d - 53) n n' ltac:(lia) ltac:(lia)) as Hmono.
      destruct (Z.ltb_spec (rne_shift n (d - 53)) (2 ^ 53));
        destruct (Z.ltb_spec (rne_shift n' (d - 53)) (2 ^ 53));
        cbn [fst snd] in *; lia.
    + destruct (Z.ltb_spec (rne_shift n (d - 53)) (2 ^ 53));
        destruct (Z.ltb_spec (rne_shift n' (d' - 53)) (2 ^ 53));
        cbn [fst snd] in *; lia.
Qed.

(** The quotient of two positive floats with 53-bit mantissas, the first
    not above the second, is a positive float not above one. *)
Lemma SFdiv_le_one ma ea mb eb :
  2 ^ 52 <= Zpos ma < 2 ^ 53 -> 2 ^ 52 <= Zpos mb < 2 ^ 53 ->
  -52 <= ea <= 11 -> -52 <= eb <= 11 ->
  lex_le (Zpos ma, ea) (Zpos mb, eb) ->
  exists m e,
    SFdiv 53 1024 (S754_finite false ma ea) (S754_finite false mb eb) =
    S754_finite false m e /\
    (e < -52 \/ (e = -52 /\ Zpos m = 2 ^ 52)).
Proof.
  intros Hma Hmb Hea Heb Hle. unfold lex_le in Hle. cbn [fst snd] in Hle.
  unfold SFdiv, SFdiv_core_binary. cbn [Zdigits2 xorb].
  rewrite (digits2_pos_unique ma 53), (digits2_pos_unique mb 53) by lia.
  rewrite fexp_normal by lia.
  replace (Z.min (53 + ea - (53 + eb) - 53) (ea - eb)) with (ea - eb - 53) by lia.
  replace (ea - eb - (ea - eb - 53)) with 53 by lia. cbv iota.
  rewrite Z.shiftl_mul_pow2 by lia.
  pose proof (Z_div_mod (Zpos ma * 2 ^ 53) (Zpos mb) ltac:(lia)) as Hdm.
  destruct (Z.div_eucl (Zpos ma * 2 ^ 53) (Zpos mb)) as [q r].
  destruct Hdm as [Eq Hr].
  set (a := Zpos ma) in *. set (b := Zpos mb) in *. clearbody a b.
  assert (2 ^ 52 <= q) as Hq52.
  { destruct (Z_le_gt_dec (2 ^ 52) q) as [|Hgt]; [assumption|exfalso].
    assert (b * q <= b * (2 ^ 52 - 1)) by (apply Z.mul_le_mono_nonneg_l; lia).
    assert (2 ^ 52 * 2 ^ 53 <= a * 2 ^ 53) by (apply Z.mul_le_mono_nonneg_r; lia).
    assert (b * 2 ^ 52 < 2 ^ 53 * 2 ^ 52) by (apply Z.mul_lt_mono_pos_r; lia).
    lia. }
  assert (q < 2 ^ 54) as Hq54.
  { destruct (Z_lt_le_dec q (2 ^ 54)) as [|Hge]; [assumption|exfalso].
    assert (b * 2 ^ 54 <= b * q) by (apply Z.mul_le_mono_nonneg_l; lia).
    assert (2 ^ 52 * 2 ^ 54 <= b * 2 ^ 54) by (apply Z.mul_le_mono_nonneg_r; lia).
    assert (a * 2 ^ 53 < 2 ^ 53 * 2 ^ 53) by (apply Z.mul_lt_mono_pos_r; lia).
    lia. }
  destruct (Z_lt_le_dec q (2 ^ 53)) as [Hlt|Hge].
  - destruct (binary_round_aux_normal q (ea - eb - 53) (new_location b r) 0)
      as [Hm1 ->]; try lia.
    set (m1 := round_nearest_even _ _) in *. clearbody m1.
    destruct (Z.ltb_spec m1 (2 ^ 53)).
    + eexists _, _. split; [reflexivity|]. left. lia.
    + eexists _, _. split; [reflexivity|].
      destruct (Z.eq_dec (ea - eb - 53 + 0 + 1) (-52)) as [E|E]; [right|left; lia].
      split; [exact E|reflexivity].
  - destruct (binary_round_aux_normal q (ea - eb - 53) (new_location b r) 1)
      as [Hm1 ->]; try lia.
    destruct Hle as [Hlt|[-> Hab]].
    + set (m1 := round_nearest_even _ _) in *. clearbody m1.
      destruct (Z.ltb_spec m1 (2 ^ 53)).
      * eexists _, _. split; [reflexivity|]. left. lia.
      * eexists _, _. split; [reflexivity|].
        destruct (Z.eq_dec (ea - eb - 53 + 1 + 1) (-52)) as [E|E]; [right|left; lia].
        split; [exact E|reflexivity].
    + assert (b * 2 ^ 53 <= b * q) by (apply Z.mul_le_mono_nonneg_l; lia).
      assert (a = b) as -> by lia.
      assert (q = 2 ^ 53 /\ r = 0) as [-> ->].
      { assert (b * (q - 2 ^ 53) + r = 0) as E by lia.
        destruct (Z.eq_dec q (2 ^ 53)) as [->|Hne]; [lia|exfalso].
        assert (b * 1 <= b * (q - 2 ^ 53)) by (apply Z.mul_le_mono_nonneg_l; lia).
        lia. }
      assert (new_location b 0 = loc_Exact) as ->.
      { unfold new_location, new_location_even, new_location_odd.
        destruct (Z.even b); reflexivity. }
      change (Nat.iter (Z.to_nat 1) shr_1 ?z) with (shr_1 z).
      cbn [shr_record_of_loc]. rewrite shr_1_spec by lia.
      cbn [shr_m loc_of_shr_record]. 
      change (Z.odd (2 ^ 53)) with false. cbn [orb round_nearest_even].
      change (2 ^ 53 / 2) with (2 ^ 52).
      change (2 ^ 52 <? 2 ^ 53) with true. cbv iota.
      eexists _, _. split; [reflexivity|]. right. split; [lia|reflexivity].
Qed.

(** [float64(n)] of a positive [int] is a positive normal float. *)
Lemma int_to_float_positive n :
  0 < n <= MaxInt ->
  Prim2SF (int_to_float n) = S754_finite false (Z.to_pos (norm n).1) (norm n).2.
Proof.
  unfold MaxInt. intros Hn. unfold int_to_float.
  destruct (Z.eqb_spec n MinInt) as [E|_]; [unfold MinInt in E; lia|].
  destruct (Z.ltb_spec n 0) as [|_]; [lia|].
  rewrite FloatAxioms.of_uint63_spec, Uint63.of_Z_spec.
  rewrite Z.mod_small by (change Uint63Axioms.wB with (2 ^ 63); lia).
  apply binary_normalize_norm. lia.
Qed.

Lemma int_to_float_nonzero n :
  0 < n <= MaxInt -> PrimFloat.eqb (int_to_float n) 0 = false.
Proof.
  intros Hn. rewrite FloatAxioms.eqb_spec, int_to_float_positive by exact Hn.
  reflexivity.
Qed.

(** The quotient [float64(c) / float64(t)] of two counters with
    [0 <= c <= t] and [0 < t] lies between [0.0] and [1.0], rounding
    included. *)
Lemma int_quotient_unit c t :
  0 <= c <= t -> 0 < t <= MaxInt ->
  let a := PrimFloat.div (int_to_float c) (int_to_float t) in
  PrimFloat.leb 0 a = true /\ PrimFloat.leb a 1 = true.
Proof.
  intros Hc Ht a. subst a.
  rewrite !FloatAxioms.leb_spec, FloatAxioms.div_spec.
  rewrite (int_to_float_positive t) by exact Ht.
  change (Prim2SF 0) with (S754_zero false).
  change (Prim2SF 1) with (S754_finite false (Z.to_pos (2 ^ 52)) (-52)).
  destruct (Z.eq_dec c 0) as [->|Hc0].
  - change (Prim2SF (int_to_float 0)) with (S754_zero false). split; reflexivity.
  - rewrite (int_to_float_positive c) by lia.
    unfold MaxInt in Ht.
    pose proof (norm_bounds c ltac:(lia)) as [Bc Ec].
    pose proof (norm_bounds t ltac:(lia)) as [Bt Et].
    pose proof (norm_mono c t ltac:(lia) ltac:(lia)) as Hle.
    destruct (norm c) as [mc ec], (norm t) as [mt et]. cbn [fst snd] in *.
    destruct mc as [|pc|pc]; try lia. destruct mt as [|pt|pt]; try lia.
    cbn [Z.to_pos].
    destruct (SFdiv_le_one pc ec pt et Bc Bt Ec Et Hle) as (m & e & E & He).
    unfold SF64div. change prec with 53. change emax with 1024. rewrite E.
    split; [reflexivity|].
    unfold SFleb, SFcompare.
    destruct He as [He|[-> Hm]].
    + apply Z.compare_lt_iff in He. now rewrite He.
    + assert (m = Z.to_pos (2 ^ 52)) as -> by lia. reflexivity.
Qed.

(* ------------------------------------------------------------------ *)
(** ** [Evaluate] *)

Lemma small_incr x k : 0 <= x <= k -> k < MaxInt -> incr x = x + 1.
Proof.
  intros Hx Hk. apply incr_exact; unfold is_int, MinInt, MaxInt in *; lia.
Qed.

(** One more prediction in the confusion table. *)
Lemma confusion_insert (cf : gmap string (gmap string Z)) L P k :
  confusion_total cf = k -> k < MaxInt ->
  map_Forall (fun _ row => map_Forall (fun (_ : string) (n : Z) => 0 <= n) row) cf ->
  let row := default ∅ (cf !! L) in
  let cf' := <[L := <[P := incr (default 0 (row !! P))]> row]> cf in
  confusion_total cf' = k + 1 /\
  confusion_diagonal cf' = confusion_diagonal cf + (if decide (P = L) then 1 else 0) /\
  map_Forall (fun _ row => map_Forall (fun (_ : string) (n : Z) => 0 <= n) row) cf'.
Proof.
  intros Htot Hk Hpos row cf'.
  assert (map_Forall (fun (_ : string) (n : Z) => 0 <= n) row) as Hrow.
  { unfold row. destruct (cf !! L) as [r|] eqn:Hr; cbn.
    - by apply (Hpos L r).
    - apply map_Forall_empty. }
  assert (from_option sum_values 0 (cf !! L) = sum_values row) as Hsum.
  { unfold row. destruct (cf !! L); cbn; [done|]. by rewrite sum_values_empty. }
  assert (from_option (fun r : gmap string Z => default 0 (r !! L)) 0 (cf !! L) =
          default 0 (row !! L)) as Hdiag.
  { unfold row. destruct (cf !! L); cbn; [done|]. by rewrite lookup_empty. }
  assert (sum_values row <= k) as Hle.
  { rewrite <- Htot, <- Hsum.
    apply (weighted_sum_bound (fun _ => sum_values)).
    intros j r Hj. apply sum_values_nonneg. by apply (Hpos j r). }
  pose proof (sum_values_bound row P Hrow) as Hold.
  assert (0 <= default 0 (row !! P)) as Hold0.
  { destruct (row !! P) as [n|] eqn:Hn; cbn; [by apply (Hrow P n)|lia]. }
  assert (incr (default 0 (row !! P)) = default 0 (row !! P) + 1) as Hincr
    by (apply (small_incr _ k); lia).
  subst cf'. rewrite Hincr. split; [|split].
  - unfold confusion_total in *. rewrite weighted_sum_insert. cbn beta.
    rewrite Hsum, sum_values_insert. lia.
  - unfold confusion_diagonal. rewrite weighted_sum_insert. cbn beta.
    rewrite Hdiag.
    destruct (decide (P = L)) as [->|Hne].
    + rewrite lookup_insert_eq. cbn. lia.
    + rewrite lookup_insert_ne by done. lia.
  - apply map_Forall_insert_2; [|done].
    apply map_Forall_insert_2; [lia|done].
Qed.

Section EvaluateFacts.
Context {uni : Unicode} {fl : Float64}.

Lemma evaluate_step_inv rng nb k acc doc :
  evaluate_inv k acc -> k < MaxInt ->
  evaluate_inv (k + 1) (evaluate_step rng nb acc doc).
Proof.
  destruct acc as [[cf correct] i].
  intros (Hi & Htot & Hdiag & Hcorrect & Hpos) Hk.
  unfold evaluate_step.
  set (P := (Predict (rng i) nb (Text doc)).1).
  set (L := Label doc).
  set (cf1 := match cf !! L with Some _ => cf | None => <[L := ∅]> cf end).
  assert (default ∅ (cf1 !! L) = default ∅ (cf !! L)) as Hrow.
  { unfold cf1. destruct (cf !! L) eqn:H; [by rewrite H|].
    by rewrite lookup_insert_eq. }
  assert (forall r, <[L := r]> cf1 = <[L := r]> cf) as Hins.
  { intros r. unfold cf1. destruct (cf !! L); [done|]. apply insert_insert_eq. }
  cbn zeta. rewrite Hrow, Hins.
  destruct (confusion_insert cf L P k Htot Hk Hpos) as (Ht' & Hd' & Hp').
  unfold evaluate_inv. split; [lia|]. split; [exact Ht'|].
  split; [|split; [|exact Hp']].
  - rewrite Hd', Hdiag.
    destruct (decide (P = L)) as [->|Hne].
    + rewrite String.eqb_refl. rewrite (small_incr correct k); lia.
    + apply String.eqb_neq in Hne. rewrite Hne. lia.
  - destruct (String.eqb P L); [rewrite (small_incr correct k)|]; lia.
Qed.

Lemma evaluate_loop_inv rng nb docs k acc :
  evaluate_inv k acc -> k + Z.of_nat (length docs) <= MaxInt ->
  evaluate_inv (k + Z.of_nat (length docs)) (foldl (evaluate_step rng nb) acc docs).
Proof.
  revert k acc. induction docs as [|doc docs IH]; intros k acc Hinv Hk.
  - cbn. by rewrite Z.add_0_r.
  - cbn [foldl length] in *.
    replace (k + Z.of_nat (S (length docs)))
      with (k + 1 + Z.of_nat (length docs)) in * by lia.
    apply IH; [|done]. apply evaluate_step_inv; [done|lia].
Qed.

Lemma Evaluate_Total rng nb docs :
  Total (Evaluate rng nb docs) = Z.of_nat (length docs).
Proof.
  unfold Evaluate.
  by destruct (foldl (evaluate_step rng nb) (∅, 0, 0%nat) docs) as [[cf c] i].
Qed.

(** C9. The accuracy of the metrics [Evaluate] returns is [float64(correct)
    / float64(total)] when the total, the number of documents, is
    positive, and is exactly zero when the total is zero: the division is
    never evaluated with a zero total, and on binary64 the divisor
    [float64(total)] of a positive total is not zero. Computed exactly, the
    quotient is the real number [correct / total]. *)
Theorem Evaluate_accuracy rng nb docs :
  let m := Evaluate rng nb docs in
  Total m = Z.of_nat (length docs) /\
  (Total m = 0 \/ 0 < Total m) /\
  (Total m = 0 -> Accuracy m = f_zero) /\
  (0 < Total m ->
   Accuracy m = f_div (of_int (Correct m)) (of_int (Total m)) /\
   Accuracy (fl := Exact) m = Fin (IZR (Correct m) / IZR (Total m)) /\
   (Total m <= MaxInt ->
    forall Log Exp,
      f_eq (Float64 := IEEE Log Exp) (of_int (Total m)) f_zero = false)).
Proof.
  intros m. pose proof (Evaluate_Total rng nb docs) as Htot. fold m in Htot.
  split; [exact Htot|]. split; [lia|]. split.
  - intros H0. unfold Accuracy. by rewrite H0.
  - intros Hpos. unfold Accuracy.
    assert ((Total m =? 0) = false) as -> by (apply Z.eqb_neq; lia).
    split; [done|]. split.
    + cbn [f_div of_int Exact ext_div].
      apply IZR_lt in Hpos.
      destruct (Req_dec_T (IZR (Total m)) 0) as [H0|_]; [lra|done].
    + intros Hmax Log Exp. cbn [f_eq of_int f_zero IEEE].
      apply int_to_float_nonzero. lia.
Qed.

(** C10. For every model and every list of test documents, of a length
    that is an [int], the metrics [Evaluate] returns are consistent:
    [Total] is the length of the list, the entries of the confusion table
    sum to [Total], [Correct] is the sum of the diagonal entries
    [confusion[L][L]], [0 <= Correct <= Total], and the accuracy lies in
    [0, 1], both computed exactly and as the binary64 value Go returns,
    rounding included. *)
Theorem Evaluate_consistent rng nb docs :
  Z.of_nat (length docs) <= MaxInt ->
  let m := Evaluate rng nb docs in
  Total m = Z.of_nat (length docs) /\
  confusion_total (Confusion m) = Total m /\
  Correct m = confusion_diagonal (Confusion m) /\
  0 <= Correct m <= Total m /\
  (exists q : R, Accuracy (fl := Exact) m = Fin q /\ (0 <= q <= 1)%R) /\
  (forall Log Exp,
     let a := Accuracy (fl := IEEE Log Exp) m in
     PrimFloat.leb 0 a = true /\ PrimFloat.leb a 1 = true).
Proof.
  intros Hlen m.
  pose proof (evaluate_loop_inv rng nb docs 0 (∅, 0, 0%nat)) as Hinv.
  pose proof (Evaluate_Total rng nb docs) as Htot. fold m in Htot.
  unfold m, Evaluate in *.
  destruct (foldl (evaluate_step rng nb) (∅, 0, 0%nat) docs) as [[cf c] i].
  destruct Hinv as (_ & Hsum & Hdiag & Hc & _).
  { unfold evaluate_inv, confusion_total, confusion_diagonal.
    rewrite !weighted_sum_empty. repeat split; try lia. apply map_Forall_empty. }
  { lia. }
  cbn [Total Correct Confusion] in *. rewrite Z.add_0_l in *.
  split; [done|]. split; [lia|]. split; [lia|]. split; [lia|].
  unfold Accuracy. cbn [Total Correct].
  destruct (Z.of_nat (length docs) =? 0) eqn:Hz.
  - split; [|by intros Log Exp].
    exists 0%R. split; [done|lra].
  - apply Z.eqb_neq in Hz. split.
    + cbn [f_div of_int Exact ext_div].
      assert (0 < IZR (Z.of_nat (length docs)))%R as Hpos by (apply IZR_lt; lia).
      destruct (Req_dec_T _ 0) as [H0|_]; [lra|].
      eexists. split; [done|].
      assert (0 <= IZR c <= IZR (Z.of_nat (length docs)))%R as [Hc1 Hc2]
        by (split; apply IZR_le; lia).
      split.
      * apply Rmult_le_pos; [done|]. left. by apply Rinv_0_lt_compat.
      * apply Rmult_le_reg_r with (r := IZR (Z.of_nat (length docs))); [done|].
        unfold Rdiv. rewrite Rmult_assoc, Rinv_l by lra. lra.
    + intros Log Exp. cbn [f_div of_int IEEE].
      apply int_quotient_unit; lia.
Qed.

End EvaluateFacts.

Lemma Evaluate_consistent_witness :
  let m := Evaluate (uni := ascii_unicode) (fl := sample_IEEE)
             (fun _ => in_order) known_model known_tests in
  Total m = 2 /\
  confusion_total (Confusion m) = Total m /\
  Correct m = confusion_diagonal (Confusion m) /\
  0 <= Correct m <= Total m /\
  (exists q : R, Accuracy (fl := Exact) m = Fin q /\ (0 <= q <= 1)%R) /\
  (forall Log Exp,
     let a := Accuracy (fl := IEEE Log Exp) m in
     PrimFloat.leb 0 a = true /\ PrimFloat.leb a 1 = true).
Proof.
  apply (Evaluate_consistent (uni := ascii_unicode) (fl := sample_IEEE)
           (fun _ => in_order) known_model known_tests).
  by vm_compute.
Defined.

(* ------------------------------------------------------------------ *)
(** ** Batches, [Reset] and the panics of [Train] *)

Lemma for_each_app {A S : Type} (body : S -> A -> result S) xs ys s :
  for_each body (xs ++ ys) s = s' ← for_each body xs s; for_each body ys s'.
Proof.
  revert s. induction xs as [|x xs IH]; intros s; [done|].
  cbn [app for_each]. destruct (body s x) as [s'|msg]; [apply IH|done].
Qed.

Section BatchFacts.
Context {uni : Unicode}.

(** X1. Training on a batch is training on its documents one after the
    other: a batch of one document is one call of [Train], and a batch
    split in two is the first part, then the second part from the state the
    first one left, a panic of the first part ending the whole. *)
Theorem TrainBatch_app nb docs1 docs2 :
  TrainBatch nb (docs1 ++ docs2) =
    (nb' ← TrainBatch nb docs1; TrainBatch nb' docs2) /\
  forall doc, TrainBatch nb [doc] = Train nb (Text doc) (Label doc).
Proof.
  split.
  - unfold TrainBatch. apply for_each_app.
  - intros doc. unfold TrainBatch. cbn [for_each].
    by destruct (Train nb (Text doc) (Label doc)).
Qed.

Lemma TrainBatch_trained d w nb docs :
  trained d w nb ->
  exists nb', TrainBatch nb docs = Ok nb' /\
              trained (d + Z.of_nat (length docs)) (w + tokens_in docs) nb'.
Proof.
  intros H. destruct (trained_allocated _ _ _ H) as [c ->].
  destruct (TrainBatch_counts docs c) as [c' Hc'].
  exists (of_counts c'). split; [done|]. by eapply trained_TrainBatch.
Qed.

Lemma range_empty {V : Type} sch : range sch (Some (∅ : gmap string V)) = [].
Proof.
  unfold range. rewrite map_to_list_empty.
  apply Permutation_nil_r. by rewrite shuffle_perm.
Qed.

(** X2. [Reset] makes every classifier, also one whose maps [LoadSnapshot]
    left nil, behave as a new one: it predicts the empty label with an
    empty distribution, and training it on any batch returns without a
    panic, with the state a new classifier reaches on that batch. *)
Theorem Reset_restores nb docs :
  (forall (fl : Float64) sch text, Predict sch (Reset nb) text = ("", ∅)) /\
  exists nb',
    TrainBatch (Reset nb) docs = Ok nb' /\
    TrainBatch NewNaiveBayesClassifier docs = Ok nb' /\
    trained (Z.of_nat (length docs)) (tokens_in docs) nb'.
Proof.
  split.
  - intros fl sch text. unfold Predict, score_all, Reset.
    cbn [classDocCounts]. unfold make. rewrite range_empty. cbn [foldl].
    cbn [bestLabel scores bestScore]. unfold normalizeScores.
    cbn [len]. by rewrite map_size_empty.
  - destruct (TrainBatch_trained 0 0 (Reset nb) docs) as (nb' & Hrun & Ht).
    { apply (trained_Reset 0 0 NewNaiveBayesClassifier), trained_new. }
    exists nb'. rewrite !Z.add_0_l in Ht. by repeat split.
Qed.

(** The token loop on maps that are not nil. *)
Lemma train_tokens_allocated label tokens cdc g row ctw voc td :
  Forall (fun t => t ≠ "") tokens ->
  g !! label = Some (Some row) ->
  exists nb',
    for_each (train_token label) tokens
      {| classDocCounts := cdc; classWordCounts := Some g;
         classTotalWords := Some ctw; vocabulary := Some voc;
         totalDocs := td |} = Ok nb'.
Proof.
  revert g row ctw voc.
  induction tokens as [|t tokens IH]; intros g row ctw voc Hne Hrow.
  - by eexists.
  - apply Forall_cons in Hne as [Ht Hne]. cbn [for_each]. unfold train_token.
    apply String.eqb_neq in Ht. rewrite Ht.
    cbn [vocabulary classWordCounts classTotalWords classDocCounts totalDocs
         map_set mbind result_bind get_map]. rewrite Hrow.
    cbn [from_option Datatypes.id map_set mbind result_bind].
    eapply IH; [done|]. by rewrite lookup_insert_eq.
Qed.

(** The first token panics when a map it assigns to is nil. *)
Lemma train_token_panics label nb token :
  token ≠ "" ->
  vocabulary nb = None \/ get_map (classWordCounts nb) label = None \/
  classWordCounts nb = None \/ classTotalWords nb = None ->
  train_token label nb token = Panic nil_map_assignment.
Proof.
  intros Hne Hnil. unfold train_token.
  apply String.eqb_neq in Hne. rewrite Hne.
  destruct (vocabulary nb) as [voc|]; [|done].
  cbn [map_set mbind result_bind].
  destruct (get_map (classWordCounts nb) label) as [row|] eqn:Hrow; [|done].
  cbn [map_set mbind result_bind].
  destruct (classWordCounts nb) as [g|]; [|done].
  cbn [map_set mbind result_bind].
  destruct (classTotalWords nb) as [ctw|]; [|done].
  by destruct Hnil as [?|[?|[?|?]]].
Qed.

(** X3. [Train] panics in exactly these cases: [classDocCounts] or
    [classWordCounts] is nil; or the text has a token and [vocabulary] is
    nil, [classTotalWords] is nil, or the label's row of [classWordCounts]
    is present and nil. The panic is always the assignment to an entry of a
    nil map. A text without tokens never reaches the last three maps. *)
Theorem Train_panics_iff nb text label :
  ((exists msg, Train nb text label = Panic msg) <->
   classDocCounts nb = None \/ classWordCounts nb = None \/
   (tokenize text ≠ [] /\
    (vocabulary nb = None \/ classTotalWords nb = None \/ nil_row nb label))) /\
  (forall msg, Train nb text label = Panic msg -> msg = nil_map_assignment).
Proof.
  assert (Forall (fun t => t ≠ "") (tokenize text)) as Hne.
  { apply Forall_forall. intros t Ht. by eapply tokenize_nonempty. }
  unfold Train, nil_row. destruct nb as [cdc cwc ctw voc td].
  cbn [classDocCounts classWordCounts classTotalWords vocabulary totalDocs].
  destruct cdc as [cdc|]; cycle 1.
  { cbn. split; [|by intros msg [= <-]].
    split; [by left|by eexists]. }
  cbn [map_set mbind result_bind get_int].
  destruct cwc as [g|]; cycle 1.
  { cbn. split; [|by intros msg [= <-]].
    split; [by right; left|by eexists]. }
  set (g' := if has_key (Some g) label then Ok (Some g)
             else map_set (Some g) label make).
  assert (exists g1, g' = Ok (Some g1) /\
            (g1 !! label = Some None <-> g !! label = Some None) /\
            is_Some (g1 !! label)) as (g1 & -> & Hrow & Hsome).
  { unfold g', has_key. destruct (g !! label) as [row|] eqn:Hg.
    - rewrite bool_decide_eq_true_2 by (by eexists).
      exists g. by rewrite Hg.
    - rewrite bool_decide_eq_false_2 by (by intros [? ?]).
      cbn [map_set]. exists (<[label := make]> g).
      rewrite lookup_insert_eq. unfold make. split; [done|].
      split; [split; intros [=]|by eexists]. }
  cbn [mbind result_bind].
  destruct (tokenize text) as [|t tokens] eqn:Htok.
  { cbn [for_each]. split; [|by intros msg [=]]. split.
    - by intros [msg [=]].
    - intros [[=]|[[=]|[? _]]]; done. }
  apply Forall_cons in Hne as [Ht Hne].
  destruct Hsome as [row Hg1].
  destruct voc as [voc|], ctw as [ctw|], row as [row|].
  - destruct (train_tokens_allocated label (t :: tokens) (Some
      (<[label:=incr (default 0 (cdc !! label))]> cdc)) g1 row ctw voc (incr td))
      as [nb' ->]; [by apply Forall_cons|done|].
    split; [|by intros msg [=]]. split; [by intros [msg [=]]|].
    intros [[=]|[[=]|[_ [[=]|[[=]|(g0 & [= <-] & Hnil)]]]]].
    apply Hrow in Hnil. by rewrite Hg1 in Hnil.
  - cbn [for_each]. rewrite train_token_panics; cycle 1; [done| |].
    { right; left. cbn. by rewrite Hg1. }
    cbn. split; [|by intros msg [= <-]]. split; [|by eexists].
    intros _. right; right. split; [done|]. right; right.
    exists g. split; [done|]. apply Hrow. done.
  - cbn [for_each]. rewrite train_token_panics by (by auto).
    cbn. split; [|by intros msg [= <-]]. split; [|by eexists].
    intros _. right; right. split; [done|]. by right; left.
  - cbn [for_each]. rewrite train_token_panics by (by auto).
    cbn. split; [|by intros msg [= <-]]. split; [|by eexists].
    intros _. right; right. split; [done|]. by right; left.
  - cbn [for_each]. rewrite train_token_panics by (by auto).
    cbn. split; [|by intros msg [= <-]]. split; [|by eexists].
    intros _. right; right. split; [done|]. by left.
  - cbn [for_each]. rewrite train_token_panics by (by auto).
    cbn. split; [|by intros msg [= <-]]. split; [|by eexists].
    intros _. right; right. split; [done|]. by left.
  - cbn [for_each]. rewrite train_token_panics by (by auto).
    cbn. split; [|by intros msg [= <-]]. split; [|by eexists].
    intros _. right; right. split; [done|]. by left.
  - cbn [for_each]. rewrite train_token_panics by (by auto).
    cbn. split; [|by intros msg [= <-]]. split; [|by eexists].
    intros _. right; right. split; [done|]. by left.
Qed.

End BatchFacts.

(* ------------------------------------------------------------------ *)
(** ** The counters after a batch *)

Lemma bump_bump n m old :
  0 <= n -> 0 <= m -> bump m (bump n old) = bump (n + m) old.
Proof.
  intros Hn Hm. unfold bump.
  destruct (Z.eqb_spec n 0) as [->|Hn0]; [done|].
  destruct (Z.eqb_spec m 0) as [->|Hm0].
  - rewrite Z.add_0_r. by destruct (Z.eqb_spec n 0).
  - destruct (Z.eqb_spec (n + m) 0); [lia|].
    cbn. by rewrite wrap_wrap_add, Z.add_assoc.
Qed.

Lemma bump_zero old : bump 0 old = old.
Proof. done. Qed.

Lemma bump_one old : bump 1 old = Some (incr (default 0 old)).
Proof. done. Qed.

Lemma occurrences_nil t : occurrences t [] = 0.
Proof. done. Qed.

Lemma occurrences_cons t x l :
  occurrences t (x :: l) = (if decide (x = t) then 1 else 0) + occurrences t l.
Proof.
  unfold occurrences. rewrite filter_cons.
  destruct (decide (x = t)); cbn [length]; lia.
Qed.

Lemma occurrences_app t l1 l2 :
  occurrences t (l1 ++ l2) = occurrences t l1 + occurrences t l2.
Proof. unfold occurrences. rewrite filter_app, length_app. lia. Qed.

Lemma occurrences_nonneg t l : 0 <= occurrences t l.
Proof. unfold occurrences. lia. Qed.

(** The token loop on the counters, entry by entry. *)
Lemma count_tokens_lookup label tokens c :
  is_Some (words_of c !! label) ->
  let c' := foldl (count_token label) c tokens in
  docs_of c' = docs_of c /\
  total_of c' = total_of c /\
  (forall L, totals_of c' !! L =
     if decide (L = label)
     then bump (Z.of_nat (length tokens)) (totals_of c !! L)
     else totals_of c !! L) /\
  (forall t, vocab_of c' !! t =
     if decide (t ∈ tokens) then Some tt else vocab_of c !! t) /\
  (forall L, L ≠ label -> words_of c' !! L = words_of c !! L) /\
  is_Some (words_of c' !! label) /\
  (forall t, default ∅ (words_of c' !! label) !! t =
     bump (occurrences t tokens) (default ∅ (words_of c !! label) !! t)).
Proof.
  revert c. induction tokens as [|tok tokens IH]; intros c Hrow c'.
  - subst c'. cbn [foldl length].
    split; [done|]. split; [done|]. split; [|split; [|split; [|split]]].
    + intros L. by destruct (decide (L = label)).
    + intros t. by rewrite decide_False by apply not_elem_of_nil.
    + done.
    + done.
    + intros t. by rewrite occurrences_nil.
  - subst c'. cbn [foldl].
    destruct (IH (count_token label c tok) (count_token_row label c tok))
      as (Hd & Ht & Htot & Hvoc & Hother & Hsome & Hwords).
    rewrite Hd, Ht. split; [done|]. split; [done|]. split; [|split; [|split; [|split]]].
    + intros L. rewrite Htot. unfold count_token. cbn [totals_of].
      destruct (decide (L = label)) as [->|Hne].
      * rewrite lookup_insert_eq. rewrite <- bump_one.
        rewrite bump_bump by lia. f_equal. cbn [length]. lia.
      * by rewrite lookup_insert_ne.
    + intros t. rewrite Hvoc. unfold count_token. cbn [vocab_of].
      destruct (decide (t ∈ tokens)) as [Hin|Hnin].
      * by rewrite decide_True by (by right).
      * destruct (decide (tok = t)) as [->|Hne].
        -- rewrite decide_True by (by left). by rewrite lookup_insert_eq.
        -- rewrite decide_False by (by intros [->|?]%elem_of_cons).
           by rewrite lookup_insert_ne.
    + intros L Hne. rewrite Hother by done. unfold count_token. cbn [words_of].
      by rewrite lookup_insert_ne.
    + done.
    + intros t. rewrite Hwords. unfold count_token. cbn [words_of].
      rewrite lookup_insert_eq. cbn [from_option Datatypes.id].
      rewrite occurrences_cons.
      destruct (decide (tok = t)) as [->|Hne].
      * rewrite lookup_insert_eq. rewrite <- bump_one.
        rewrite bump_bump by (pose proof (occurrences_nonneg t tokens); lia).
        done.
      * rewrite lookup_insert_ne by done. by rewrite Z.add_0_l.
Qed.

(** One document on the counters, entry by entry. *)
Lemma train_counts_lookup c tokens label :
  let c' := train_counts c tokens label in
  total_of c' = incr (total_of c) /\
  (forall L, docs_of c' !! L =
     if decide (L = label) then bump 1 (docs_of c !! L) else docs_of c !! L) /\
  (forall L, totals_of c' !! L =
     if decide (L = label)
     then bump (Z.of_nat (length tokens)) (totals_of c !! L)
     else totals_of c !! L) /\
  (forall t, vocab_of c' !! t =
     if decide (t ∈ tokens) then Some tt else vocab_of c !! t) /\
  (forall L, is_Some (words_of c' !! L) <->
     L = label \/ is_Some (words_of c !! L)) /\
  (forall L t, default ∅ (words_of c' !! L) !! t =
     if decide (L = label)
     then bump (occurrences t tokens) (default ∅ (words_of c !! L) !! t)
     else default ∅ (words_of c !! L) !! t).
Proof.
  intros c'. subst c'. unfold train_counts.
  destruct (count_tokens_lookup label tokens (count_document label c)
              (count_document_row label c))
    as (Hd & Ht & Htot & Hvoc & Hother & Hsome & Hwords).
  rewrite Hd, Ht.
  assert (forall L, L ≠ label ->
            words_of (count_document label c) !! L = words_of c !! L) as Hdoc.
  { intros L Hne. unfold count_document. cbn [words_of].
    destruct (words_of c !! label); [done|]. by rewrite lookup_insert_ne. }
  assert (default ∅ (words_of (count_document label c) !! label) =
          default ∅ (words_of c !! label)) as Hrow.
  { unfold count_document. cbn [words_of].
    destruct (words_of c !! label) as [row|] eqn:E; [by rewrite E|].
    by rewrite lookup_insert_eq. }
  split; [done|]. split; [|split; [|split; [|split]]].
  - intros L. unfold count_document. cbn [docs_of].
    destruct (decide (L = label)) as [->|Hne].
    + by rewrite lookup_insert_eq.
    + by rewrite lookup_insert_ne.
  - intros L. by rewrite Htot.
  - intros t. by rewrite Hvoc.
  - intros L. destruct (decide (L = label)) as [->|Hne].
    + split; [by left|done].
    + rewrite Hother, Hdoc by done. split; [by right|by intros [?|?]].
  - intros L t. destruct (decide (L = label)) as [->|Hne].
    + by rewrite Hwords, Hrow.
    + by rewrite Hother, Hdoc.
Qed.

Section CountingFacts.
Context {uni : Unicode}.

Lemma TrainBatch_batch_counts c docs :
  TrainBatch (of_counts c) docs = Ok (of_counts (batch_counts c docs)).
Proof.
  revert c. induction docs as [|doc docs IH]; intros c; [done|].
  unfold TrainBatch, batch_counts in *. cbn [for_each foldl].
  rewrite Train_counts. cbn [mbind result_bind]. apply IH.
Qed.

Lemma labelled_cons L doc docs :
  labelled L (doc :: docs) =
  if decide (Label doc = L) then doc :: labelled L docs else labelled L docs.
Proof. unfold labelled. by rewrite filter_cons. Qed.

Lemma class_tokens_cons L doc docs :
  class_tokens L (doc :: docs) =
  (if decide (Label doc = L) then tokenize (Text doc) else []) ++
  class_tokens L docs.
Proof.
  unfold class_tokens. rewrite labelled_cons.
  by destruct (decide (Label doc = L)).
Qed.

(** The counters after a batch, entry by entry: every counter has grown by
    the number of its occurrences in the batch. *)
Lemma batch_counts_lookup docs c :
  let c' := batch_counts c docs in
  Some (total_of c') = bump (Z.of_nat (length docs)) (Some (total_of c)) /\
  (forall L, docs_of c' !! L =
     bump (Z.of_nat (length (labelled L docs))) (docs_of c !! L)) /\
  (forall L, totals_of c' !! L =
     bump (Z.of_nat (length (class_tokens L docs))) (totals_of c !! L)) /\
  (forall t, vocab_of c' !! t =
     if decide (t ∈ all_tokens docs) then Some tt else vocab_of c !! t) /\
  (forall L, is_Some (words_of c' !! L) <->
     labelled L docs ≠ [] \/ is_Some (words_of c !! L)) /\
  (forall L t, default ∅ (words_of c' !! L) !! t =
     bump (occurrences t (class_tokens L docs))
       (default ∅ (words_of c !! L) !! t)).
Proof.
  revert c. induction docs as [|doc docs IH]; intros c c'; subst c'.
  - unfold batch_counts. cbn [foldl length].
    split; [done|]. split; [done|]. split; [done|]. split; [|split].
    + intros t. unfold all_tokens. cbn.
      by rewrite decide_False by apply not_elem_of_nil.
    + intros L. split; [by right|]. by intros [?|?].
    + done.
  - unfold batch_counts. cbn [foldl].
    set (c1 := train_counts c (tokenize (Text doc)) (Label doc)).
    destruct (IH c1) as (Ht & Hd & Htot & Hvoc & Hsome & Hwords).
    destruct (train_counts_lookup c (tokenize (Text doc)) (Label doc))
      as (Ht1 & Hd1 & Htot1 & Hvoc1 & Hsome1 & Hwords1).
    fold c1 in Ht1, Hd1, Htot1, Hvoc1, Hsome1, Hwords1.
    unfold batch_counts in *.
    split; [|split; [|split; [|split; [|split]]]].
    + rewrite Ht, Ht1.
      change (Some (incr (total_of c))) with (bump 1 (Some (total_of c))).
      rewrite bump_bump by lia. f_equal. cbn [length]. lia.
    + intros L. rewrite Hd, Hd1, labelled_cons.
      destruct (decide (L = Label doc)) as [->|Hne].
      * rewrite decide_True by done. rewrite bump_bump by lia.
        f_equal. cbn [length]. lia.
      * by rewrite decide_False by done.
    + intros L. rewrite Htot, Htot1, class_tokens_cons, length_app.
      destruct (decide (L = Label doc)) as [->|Hne].
      * rewrite decide_True by done. rewrite bump_bump by lia. f_equal. lia.
      * rewrite decide_False by done. cbn [length]. f_equal.
    + intros t. rewrite Hvoc, Hvoc1. unfold all_tokens. cbn [mbind list_bind].
      fold (all_tokens docs).
      destruct (decide (t ∈ all_tokens docs)) as [Hin|Hnin].
      * rewrite decide_True; [done|]. apply elem_of_app. by right.
      * destruct (decide (t ∈ tokenize (Text doc))) as [Hin1|Hnin1].
        -- rewrite decide_True; [done|]. apply elem_of_app. by left.
        -- rewrite decide_False; [done|]. by intros [?|?]%elem_of_app.
    + intros L. rewrite Hsome, Hsome1, labelled_cons.
      destruct (decide (Label doc = L)) as [<-|Hne].
      * split; [by left|]. intros _. right. by left.
      * split; [intros [?|[->|?]]; by auto|intros [?|?]; by auto].
    + intros L t. rewrite Hwords, Hwords1, class_tokens_cons, occurrences_app.
      destruct (decide (L = Label doc)) as [->|Hne].
      * rewrite decide_True by done. rewrite bump_bump; [done| |];
          apply occurrences_nonneg.
      * rewrite decide_False by done. by rewrite occurrences_nil, Z.add_0_l.
Qed.

Lemma bump_absent n : 0 <= n -> default 0 (bump n None) = wrap n.
Proof.
  intros Hn. unfold bump. destruct (Z.eqb_spec n 0) as [->|_]; [done|].
  cbn [from_option Datatypes.id]. f_equal.
Qed.

(** X4. Training a new classifier on the documents [docs] returns, and
    each counter then holds, in 64-bit arithmetic, the number of its
    occurrences in [docs]: [totalDocs] the number of documents, the
    document counter of a label the number of documents with that label,
    the word counter of a label and a token the number of times the token
    occurs in the texts with that label, [classTotalWords] of a label the
    number of tokens of these texts, and the vocabulary exactly the tokens
    of all texts. *)
Theorem TrainBatch_counters docs :
  exists nb',
    TrainBatch NewNaiveBayesClassifier docs = Ok nb' /\
    totalDocs nb' = wrap (Z.of_nat (length docs)) /\
    (forall L, get_int (classDocCounts nb') L =
       wrap (Z.of_nat (length (labelled L docs)))) /\
    (forall L t, get_int (get_map (classWordCounts nb') L) t =
       wrap (occurrences t (class_tokens L docs))) /\
    (forall L, get_int (classTotalWords nb') L =
       wrap (Z.of_nat (length (class_tokens L docs)))) /\
    (forall t, has_key (vocabulary nb') t = true <-> t ∈ all_tokens docs).
Proof.
  exists (of_counts (batch_counts empty_counts docs)).
  split; [rewrite New_counts; apply TrainBatch_batch_counts|].
  destruct (batch_counts_lookup docs empty_counts)
    as (Ht & Hd & Htot & Hvoc & Hsome & Hwords).
  unfold of_counts.
  cbn [totalDocs classDocCounts classWordCounts classTotalWords vocabulary
       get_int has_key].
  split; [|split; [|split; [|split]]].
  - cbn [empty_counts total_of] in Ht. unfold bump in Ht.
    destruct (Z.eqb_spec (Z.of_nat (length docs)) 0) as [E|_].
    + injection Ht as ->. by rewrite E.
    + injection Ht as ->. done.
  - intros L. rewrite Hd. cbn [empty_counts docs_of]. rewrite lookup_empty.
    apply bump_absent. lia.
  - intros L t. rewrite get_map_of_rows.
    specialize (Hwords L t). cbn [empty_counts words_of] in Hwords.
    rewrite !lookup_empty in Hwords. cbn [from_option Datatypes.id] in Hwords.
    rewrite lookup_empty in Hwords.
    destruct (words_of (batch_counts empty_counts docs) !! L) as [row|] eqn:E.
    + cbn [from_option Datatypes.id get_int] in *. rewrite Hwords.
      apply bump_absent, occurrences_nonneg.
    + cbn [from_option Datatypes.id get_int] in *. rewrite lookup_empty in Hwords.
      symmetry in Hwords. rewrite <- (bump_absent _ (occurrences_nonneg _ _)).
      by rewrite Hwords.
  - intros L. rewrite Htot. cbn [empty_counts totals_of]. rewrite lookup_empty.
    apply bump_absent. lia.
  - intros t. rewrite Hvoc. cbn [empty_counts vocab_of]. rewrite lookup_empty.
    destruct (decide (t ∈ all_tokens docs)) as [Hin|Hnin].
    + split; [done|]. intros _. apply bool_decide_eq_true_2. by eexists.
    + split; [|done]. intros H. apply bool_decide_eq_true_1 in H.
      by destruct H.
Qed.

Lemma bump_grow n old : default 0 (bump n old) = grow n (default 0 old).
Proof. unfold bump, grow. by destruct (n =? 0). Qed.

Lemma get_row (words : gmap string (gmap string Z)) L t :
  get_int (get_map (Some (Some <$> words)) L) t =
  default 0 (default ∅ (words !! L) !! t).
Proof.
  rewrite get_map_of_rows. destruct (words !! L) as [row|]; [done|].
  cbn. by rewrite lookup_empty.
Qed.

(** X5. Training goes on from what a classifier holds: on a classifier
    whose maps are allocated, as after loading a snapshot of a trained one,
    a batch returns without panic and adds to every counter, in 64-bit
    arithmetic, the number of its occurrences in the batch; a counter
    without occurrence keeps its value, and the vocabulary gains exactly
    the tokens of the batch. *)
Theorem TrainBatch_adds nb docs :
  allocated nb ->
  exists nb',
    TrainBatch nb docs = Ok nb' /\
    allocated nb' /\
    totalDocs nb' = grow (Z.of_nat (length docs)) (totalDocs nb) /\
    (forall L, get_int (classDocCounts nb') L =
       grow (Z.of_nat (length (labelled L docs))) (get_int (classDocCounts nb) L)) /\
    (forall L t, get_int (get_map (classWordCounts nb') L) t =
       grow (occurrences t (class_tokens L docs))
         (get_int (get_map (classWordCounts nb) L) t)) /\
    (forall L, get_int (classTotalWords nb') L =
       grow (Z.of_nat (length (class_tokens L docs)))
         (get_int (classTotalWords nb) L)) /\
    (forall t, has_key (vocabulary nb') t = true <->
       t ∈ all_tokens docs \/ has_key (vocabulary nb) t = true).
Proof.
  intros [c ->]. exists (of_counts (batch_counts c docs)).
  split; [apply TrainBatch_batch_counts|]. split; [by eexists|].
  destruct (batch_counts_lookup docs c) as (Ht & Hd & Htot & Hvoc & _ & Hwords).
  unfold of_counts at 1 3 5 7 9.
  cbn [totalDocs classDocCounts classTotalWords vocabulary get_int has_key].
  split; [|split; [|split; [|split]]].
  - unfold of_counts. cbn [totalDocs]. unfold bump in Ht. unfold grow.
    destruct (Z.of_nat (length docs) =? 0); by injection Ht.
  - intros L. unfold of_counts. cbn [classDocCounts get_int].
    by rewrite Hd, bump_grow.
  - intros L t. unfold of_counts. cbn [classWordCounts].
    by rewrite !get_row, Hwords, bump_grow.
  - intros L. unfold of_counts. cbn [classTotalWords get_int].
    by rewrite Htot, bump_grow.
  - intros t. unfold of_counts. cbn [vocabulary has_key]. rewrite Hvoc.
    destruct (decide (t ∈ all_tokens docs)) as [Hin|Hnin].
    + split; [by left|]. intros _. apply bool_decide_eq_true_2. by eexists.
    + split; [by right|]. by intros [?|?].
Qed.

Lemma counts_eq (c1 c2 : counts) :
  docs_of c1 = docs_of c2 -> words_of c1 = words_of c2 ->
  totals_of c1 = totals_of c2 -> vocab_of c1 = vocab_of c2 ->
  total_of c1 = total_of c2 -> c1 = c2.
Proof. destruct c1, c2. cbn. by intros -> -> -> -> ->. Qed.

Lemma labelled_Permutation L docs docs' :
  docs ≡ₚ docs' -> labelled L docs ≡ₚ labelled L docs'.
Proof. intros H. unfold labelled. by rewrite H. Qed.

Lemma class_tokens_Permutation L docs docs' :
  docs ≡ₚ docs' -> class_tokens L docs ≡ₚ class_tokens L docs'.
Proof.
  intros H. unfold class_tokens. by rewrite (labelled_Permutation L _ _ H).
Qed.

Lemma batch_counts_Permutation c docs docs' :
  docs ≡ₚ docs' -> batch_counts c docs = batch_counts c docs'.
Proof.
  intros Hperm.
  destruct (batch_counts_lookup docs c) as (Ht & Hd & Htot & Hvoc & Hsome & Hwords).
  destruct (batch_counts_lookup docs' c)
    as (Ht' & Hd' & Htot' & Hvoc' & Hsome' & Hwords').
  pose proof (fun L => labelled_Permutation L _ _ Hperm) as Hlab.
  pose proof (fun L => class_tokens_Permutation L _ _ Hperm) as Htok.
  apply counts_eq.
  - apply map_eq. intros L. by rewrite Hd, Hd', (Hlab L).
  - apply map_eq. intros L.
    assert (default ∅ (words_of (batch_counts c docs) !! L) =
            default ∅ (words_of (batch_counts c docs') !! L)) as Hrow.
    { apply map_eq. intros t. rewrite Hwords, Hwords'. f_equal.
      unfold occurrences. by rewrite (Htok L). }
    assert (is_Some (words_of (batch_counts c docs) !! L) <->
            is_Some (words_of (batch_counts c docs') !! L)) as Hiff.
    { rewrite Hsome, Hsome'.
      assert (labelled L docs ≠ [] <-> labelled L docs' ≠ []) as ->; [|done].
      split; intros Hne E; apply Hne; apply Permutation_nil_r;
        [rewrite (Hlab L)|rewrite <- (Hlab L)]; by rewrite E. }
    destruct (words_of (batch_counts c docs) !! L) as [r1|],
             (words_of (batch_counts c docs') !! L) as [r2|]; cbn in Hrow.
    + by rewrite Hrow.
    + destruct Hiff as [Hi _]. by destruct Hi.
    + destruct Hiff as [_ Hi]. by destruct Hi.
    + done.
  - apply map_eq. intros L. by rewrite Htot, Htot', (Htok L).
  - apply map_eq. intros t. rewrite Hvoc, Hvoc'.
    assert (t ∈ all_tokens docs <-> t ∈ all_tokens docs') as Hiff.
    { unfold all_tokens. by rewrite Hperm. }
    destruct (decide (t ∈ all_tokens docs)), (decide (t ∈ all_tokens docs'));
      tauto.
  - assert (Some (total_of (batch_counts c docs)) =
            Some (total_of (batch_counts c docs'))) as [= ->]; [|done].
    by rewrite Ht, Ht', Hperm.
Qed.

(** X6. On a classifier whose maps are allocated, the state a batch leaves
    does not depend on the order of its documents: two batches with the
    same documents, each as often, give the same classifier. *)
Theorem TrainBatch_order nb docs docs' :
  allocated nb -> docs ≡ₚ docs' ->
  TrainBatch nb docs = TrainBatch nb docs' /\
  exists nb', TrainBatch nb docs = Ok nb' /\ allocated nb'.
Proof.
  intros [c ->] Hperm. rewrite !TrainBatch_batch_counts.
  rewrite (batch_counts_Permutation c docs docs' Hperm).
  split; [done|]. eexists. split; [done|]. by eexists.
Qed.

End CountingFacts.

Lemma TrainBatch_order_witness :
  TrainBatch (uni := ascii_unicode) NewNaiveBayesClassifier known_examples =
  TrainBatch (uni := ascii_unicode) NewNaiveBayesClassifier (reverse known_examples).
Proof.
  apply (TrainBatch_order (uni := ascii_unicode) NewNaiveBayesClassifier
           known_examples (reverse known_examples)).
  - by exists empty_counts.
  - vm_compute. apply perm_swap.
Defined.

(* ------------------------------------------------------------------ *)
(** ** The order of [sort.Strings] *)

Lemma ascii_compare_lt_trans a b c :
  Ascii.compare a b = Lt -> Ascii.compare b c = Lt -> Ascii.compare a c = Lt.
Proof.
  unfold Ascii.compare. rewrite !N.compare_lt_iff. lia.
Qed.

Lemma ascii_compare_refl a : Ascii.compare a a = Eq.
Proof. unfold Ascii.compare. apply N.compare_refl. Qed.

Lemma string_compare_lt_trans a b c :
  String.compare a b = Lt -> String.compare b c = Lt -> String.compare a c = Lt.
Proof.
  revert b c. induction a as [|x a IH]; intros [|y b] [|z c]; cbn; try done.
  destruct (Ascii.compare x y) eqn:Exy; try done;
    destruct (Ascii.compare y z) eqn:Eyz; try done.
  - apply Ascii.compare_eq_iff in Exy as ->. rewrite Eyz. apply IH.
  - apply Ascii.compare_eq_iff in Exy as ->. by rewrite Eyz.
  - apply Ascii.compare_eq_iff in Eyz as <-. by rewrite Exy.
  - by rewrite (ascii_compare_lt_trans _ _ _ Exy Eyz).
Qed.

#[global] Instance string_le_trans : Transitive string_le.
Proof.
  intros a b c. unfold string_le, String.leb.
  destruct (String.compare a b) eqn:Eab; [|intros _|done].
  - apply String.compare_eq_iff in Eab as ->. done.
  - destruct (String.compare b c) eqn:Ebc; [|intros _|done].
    + apply String.compare_eq_iff in Ebc as <-. by rewrite Eab.
    + by rewrite (string_compare_lt_trans _ _ _ Eab Ebc).
Qed.

#[global] Instance string_le_antisym : AntiSymm eq string_le.
Proof. intros a b. unfold string_le. apply String.leb_antisym. Qed.

(** Sorting does not see the order of its input. *)
Lemma sort_Strings_Permutation l1 l2 :
  l1 ≡ₚ l2 -> sort_Strings l1 = sort_Strings l2.
Proof.
  intros H. unfold sort_Strings.
  apply (Sorted_unique string_le); try apply Sorted_merge_sort, string_le_total.
  by rewrite !merge_sort_Permutation.
Qed.

Lemma sort_Strings_sorted l :
  Sorted string_le l -> sort_Strings l = l.
Proof.
  intros H. unfold sort_Strings.
  apply (Sorted_unique string_le); [apply Sorted_merge_sort, string_le_total|done|].
  apply merge_sort_Permutation.
Qed.

(** The keys of a map in the order [sort.Strings] leaves them. *)
Lemma sorted_keys {V : Type} sch (m : gomap V) :
  let keys := sort_Strings (range sch m).*1 in
  (forall sch', sort_Strings (range sch' m).*1 = keys) /\
  StronglySorted string_le keys /\
  NoDup keys /\
  (forall k, k ∈ keys <-> has_key m k = true) /\
  Z.of_nat (length keys) = len m.
Proof.
  intros keys. subst keys.
  assert (forall sch', (range sch' m).*1 ≡ₚ (range sch m).*1) as Hperm.
  { intros sch'. destruct m as [g|]; [|done]. cbn. by rewrite !shuffle_perm. }
  split; [|split; [|split; [|split]]].
  - intros sch'. by apply sort_Strings_Permutation.
  - apply StronglySorted_merge_sort; [apply _|apply string_le_total].
  - unfold sort_Strings. rewrite merge_sort_Permutation.
    destruct m as [g|]; [|apply NoDup_nil_2]. cbn. rewrite shuffle_perm.
    apply NoDup_fst_map_to_list.
  - intros k. unfold sort_Strings. rewrite merge_sort_Permutation.
    destruct m as [g|]; cbn.
    + rewrite shuffle_perm, list_elem_of_fmap. split.
      * intros ([k' v] & -> & Hin). apply elem_of_map_to_list in Hin.
        apply bool_decide_eq_true_2. by eexists.
      * intros [v Hv]%bool_decide_eq_true_1. exists (k, v).
        split; [done|]. by apply elem_of_map_to_list.
    + split; [by intros ?%elem_of_nil|done].
  - unfold sort_Strings. rewrite merge_sort_Permutation.
    destruct m as [g|]; [|done]. cbn.
    by rewrite length_fmap, shuffle_perm, length_map_to_list.
Qed.

(** X7. A snapshot does not depend on the order in which Go enumerates the
    maps: it holds the three counter maps as they are, nil maps and nil
    rows included, and the vocabulary in ascending order, every token
    once. *)
Theorem Snapshot_deterministic sch nb :
  (forall sch', TakeSnapshot sch' nb = TakeSnapshot sch nb) /\
  ClassDocCounts (TakeSnapshot sch nb) = classDocCounts nb /\
  ClassWordCounts (TakeSnapshot sch nb) = classWordCounts nb /\
  ClassTotalWords (TakeSnapshot sch nb) = classTotalWords nb /\
  TotalDocs (TakeSnapshot sch nb) = totalDocs nb /\
  StronglySorted string_le (Vocabulary (TakeSnapshot sch nb)) /\
  NoDup (Vocabulary (TakeSnapshot sch nb)) /\
  (forall t, t ∈ Vocabulary (TakeSnapshot sch nb) <->
             has_key (vocabulary nb) t = true) /\
  Z.of_nat (length (Vocabulary (TakeSnapshot sch nb))) = len (vocabulary nb).
Proof.
  destruct (sorted_keys sch (vocabulary nb)) as (Hsch & Hsorted & Hnodup & Hin & Hlen).
  unfold TakeSnapshot.
  cbn [ClassDocCounts ClassWordCounts ClassTotalWords Vocabulary TotalDocs].
  rewrite !copyIntMap_id, copyNestedMap_id.
  split; [intros sch'; by rewrite !copyIntMap_id, copyNestedMap_id, Hsch|].
  split; [done|]. split; [done|]. split; [done|]. split; [done|].
  split; [exact Hsorted|]. split; [exact Hnodup|]. split; [exact Hin|exact Hlen].
Qed.

Lemma foldl_insert_unit_keys (l : list string) sch :
  NoDup l ->
  (range sch (Some (foldl (fun voc token => <[token := tt]> voc) ∅ l))).*1 ≡ₚ l.
Proof.
  intros Hl. cbn. rewrite shuffle_perm.
  apply NoDup_Permutation; [apply NoDup_fst_map_to_list|done|].
  intros t. rewrite list_elem_of_fmap. split.
  - intros ([k []] & -> & Hin). apply elem_of_map_to_list in Hin.
    rewrite foldl_insert_unit, lookup_empty in Hin.
    by destruct (decide (k ∈ l)).
  - intros Hin. exists (t, tt). split; [done|]. apply elem_of_map_to_list.
    rewrite foldl_insert_unit. by rewrite decide_True.
Qed.

(** X8. The round trip in the other direction, for a snapshot whose
    vocabulary is in ascending order without repetition, as [Snapshot]
    writes it, and whatever the classifier held before [LoadSnapshot].  The
    three maps (a nil map stays nil) and [TotalDocs] of the snapshot taken
    of the loaded classifier are those of the snapshot loaded.  When the
    vocabulary holds at least one token the whole snapshot comes back, field
    for field.  When it holds none, the vocabulary that comes back holds
    none either: [Snapshot] always makes a slice ([make], line 223), so a
    nil [Vocabulary] comes back empty and not nil, a difference the list of
    the model does not show and this statement does not speak of. *)
Theorem Snapshot_of_loaded sch1 sch2 nb0 snapshot :
  Sorted string_le (Vocabulary snapshot) ->
  NoDup (Vocabulary snapshot) ->
  let taken := TakeSnapshot sch1 (LoadSnapshot sch2 nb0 snapshot) in
  ClassDocCounts taken = ClassDocCounts snapshot /\
  ClassWordCounts taken = ClassWordCounts snapshot /\
  ClassTotalWords taken = ClassTotalWords snapshot /\
  TotalDocs taken = TotalDocs snapshot /\
  (length (Vocabulary snapshot) = 0%nat -> length (Vocabulary taken) = 0%nat) /\
  (length (Vocabulary snapshot) ≠ 0%nat -> taken = snapshot).
Proof.
  intros Hsorted Hnodup taken.
  assert (Hall : taken = snapshot).
  { subst taken. destruct snapshot as [cdc cwc ctw voc td].
    cbn [Vocabulary] in *. unfold TakeSnapshot, LoadSnapshot.
    cbn [classDocCounts classWordCounts classTotalWords vocabulary totalDocs
         ClassDocCounts ClassWordCounts ClassTotalWords Vocabulary TotalDocs].
    rewrite !copyIntMap_id, !copyNestedMap_id. f_equal.
    rewrite (sort_Strings_Permutation _ voc) by (by apply foldl_insert_unit_keys).
    by apply sort_Strings_sorted. }
  rewrite Hall. repeat split; auto.
Qed.

Lemma Snapshot_of_loaded_witness :
  TakeSnapshot reversed (LoadSnapshot in_order NewNaiveBayesClassifier full_snapshot) =
  full_snapshot.
Proof.
  apply (Snapshot_of_loaded reversed in_order NewNaiveBayesClassifier full_snapshot).
  - repeat constructor.
  - apply NoDup_singleton.
  - discriminate.
Defined.

(* ------------------------------------------------------------------ *)
(** ** [SplitDataset] *)

Lemma index_within {A : Type} (l : list A) i :
  0 <= i < Z.of_nat (length l) ->
  exists x, index l i = Ok x /\ l !! Z.to_nat i = Some x.
Proof.
  intros Hi. unfold index.
  destruct (lookup_lt_is_Some_2 l (Z.to_nat i)) as [x Hx]; [lia|].
  exists x. rewrite Hx.
  replace ((0 <=? i) && (i <? Z.of_nat (length l))) with true; [done|].
  symmetry. apply andb_true_iff. split; [apply Z.leb_le|apply Z.ltb_lt]; lia.
Qed.

Lemma swap_within {A : Type} (l : list A) i j :
  0 <= i < Z.of_nat (length l) -> 0 <= j < Z.of_nat (length l) ->
  exists l', swap l (i, j) = Ok l' /\ l' ≡ₚ l.
Proof.
  intros Hi Hj. unfold swap.
  destruct (index_within l i Hi) as (xi & -> & Hxi).
  destruct (index_within l j Hj) as (xj & -> & Hxj).
  cbn [mbind result_bind]. eexists. split; [done|].
  by apply Permutation_insert_swap.
Qed.

Lemma shuffle_within {A : Type} (swaps : list (Z * Z)) (l : list A) :
  swaps_within (Z.of_nat (length l)) swaps ->
  exists l', for_each swap swaps l = Ok l' /\ l' ≡ₚ l.
Proof.
  revert l. induction swaps as [|[i j] swaps IH]; intros l Hin.
  - by exists l.
  - apply Forall_cons in Hin as [[Hi Hj] Hin]. cbn [fst snd] in Hi, Hj.
    destruct (swap_within l i j Hi Hj) as (l1 & Hswap & Hperm).
    cbn [for_each]. rewrite Hswap. cbn [mbind result_bind].
    destruct (IH l1) as (l' & Hrun & Hperm').
    { by rewrite (Permutation_length Hperm). }
    exists l'. split; [done|]. by rewrite Hperm'.
Qed.

Section SplitFacts.
Context {rt : Runtime}.

(** What [SplitDataset] returns when [rand.Shuffle] keeps its indices
    within the slice. *)
Lemma SplitDataset_returns docs trainRatio seed :
  swaps_within (Z.of_nat (length docs))
    (rand_Shuffle seed (Z.of_nat (length docs))) ->
  Z.of_nat (length docs) <= MaxInt ->
  exists train test,
    SplitDataset docs trainRatio seed = Ok (train, test) /\
    train ++ test ≡ₚ docs /\
    ((length docs <= 1)%nat -> train = docs /\ test = []) /\
    ((2 <= length docs)%nat -> (1 <= length train)%nat /\ (1 <= length test)%nat).
Proof.
  intros Hswaps Hmax. unfold SplitDataset.
  destruct (Z.eqb_spec (Z.of_nat (length docs)) 0) as [H0|H0].
  { destruct docs; [|done]. exists [], []. repeat split; try done; cbn; lia. }
  destruct (Z.eqb_spec (Z.of_nat (length docs)) 1) as [H1|H1].
  { exists docs, []. rewrite app_nil_r. repeat split; try done; lia. }
  destruct (shuffle_within _ docs Hswaps) as (shuffled & -> & Hperm).
  cbn [mbind result_bind].
  pose proof (Permutation_length Hperm) as Hlen.
  set (ratio := if PrimFloat.leb trainRatio 0 || PrimFloat.leb 1 trainRatio
                then default_ratio else trainRatio).
  set (n := Z.of_nat (length shuffled)).
  set (raw := float_to_int (math_Round (PrimFloat.mul ratio (int_to_float n)))).
  set (size1 := if raw <=? 0 then 1 else raw).
  set (size := if size1 >=? n then wrap (n - 1) else size1).
  assert (2 <= n) as Hn by (unfold n; lia).
  assert (1 <= size <= n - 1) as Hsize.
  { assert (1 <= size1) as Hs1
      by (unfold size1; destruct (Z.leb_spec raw 0); lia).
    unfold size. rewrite Z.geb_leb. destruct (Z.leb_spec n size1); [|lia].
    rewrite wrap_id by (unfold is_int, MinInt, MaxInt in *; lia). lia. }
  unfold slice_to, slice_from. fold n.
  replace ((0 <=? size) && (size <=? n)) with true; cycle 1.
  { symmetry. apply andb_true_iff. split; apply Z.leb_le; lia. }
  cbn [mbind result_bind]. eexists _, _. split; [done|].
  rewrite take_drop. split; [done|]. split; [lia|]. intros _.
  rewrite length_take, length_drop. lia.
Qed.

(** X9. [SplitDataset] loses no document and invents none: when
    [rand.Shuffle] swaps within the slice, it returns for every ratio and
    every seed, and the training and the test documents together are the
    given documents, each as often as it was given. *)
Theorem SplitDataset_partition docs trainRatio seed :
  swaps_within (Z.of_nat (length docs))
    (rand_Shuffle seed (Z.of_nat (length docs))) ->
  Z.of_nat (length docs) <= MaxInt ->
  exists train test,
    SplitDataset docs trainRatio seed = Ok (train, test) /\
    train ++ test ≡ₚ docs /\
    (length train + length test = length docs)%nat.
Proof.
  intros Hswaps Hmax.
  destruct (SplitDataset_returns docs trainRatio seed Hswaps Hmax)
    as (train & test & Hrun & Hperm & _).
  exists train, test. split; [done|]. split; [done|].
  by rewrite <- (Permutation_length Hperm), length_app.
Qed.

(** X10. The sizes of the split, for every ratio, the ratios outside
    [(0, 1)] and NaN included: of two documents or more both parts get at
    least one, so the training part never takes all; a single document
    goes to the training part and no document gives two empty parts. *)
Theorem SplitDataset_sizes docs trainRatio seed :
  swaps_within (Z.of_nat (length docs))
    (rand_Shuffle seed (Z.of_nat (length docs))) ->
  Z.of_nat (length docs) <= MaxInt ->
  exists train test,
    SplitDataset docs trainRatio seed = Ok (train, test) /\
    ((2 <= length docs)%nat ->
       (1 <= length train < length docs)%nat /\
       (1 <= length test < length docs)%nat) /\
    ((length docs <= 1)%nat -> train = docs /\ test = []).
Proof.
  intros Hswaps Hmax.
  destruct (SplitDataset_returns docs trainRatio seed Hswaps Hmax)
    as (train & test & Hrun & Hperm & Hsmall & Hlarge).
  exists train, test. split; [done|]. split; [|done].
  intros Hlen. destruct (Hlarge Hlen) as [Htrain Htest].
  pose proof (Permutation_length Hperm) as Hsum. rewrite length_app in Hsum.
  lia.
Qed.

End SplitFacts.

Lemma sample_swaps (docs : list Document) seed :
  swaps_within (Z.of_nat (length docs))
    (rand_Shuffle (Runtime := sample_runtime) seed (Z.of_nat (length docs))).
Proof.
  unfold swaps_within. cbn [rand_Shuffle sample_runtime].
  destruct (Z.leb_spec 2 (Z.of_nat (length docs))); [|by constructor].
  pose proof (Z.mod_pos_bound seed (Z.of_nat (length docs)) ltac:(lia)).
  repeat constructor; cbn [fst snd]; lia.
Qed.

Lemma SplitDataset_partition_witness :
  exists train test,
    SplitDataset (rt := sample_runtime) defaultTrainingData default_ratio 7 =
      Ok (train, test) /\
    train ++ test ≡ₚ defaultTrainingData /\
    (length train + length test = 20)%nat.
Proof.
  apply (SplitDataset_partition (rt := sample_runtime) defaultTrainingData
           default_ratio 7).
  - apply sample_swaps.
  - by vm_compute.
Defined.

Lemma SplitDataset_sizes_witness :
  exists train test,
    SplitDataset (rt := sample_runtime) known_examples nan 3 = Ok (train, test) /\
    ((2 <= 2)%nat ->
       (1 <= length train < 2)%nat /\ (1 <= length test < 2)%nat) /\
    ((2 <= 1)%nat -> train = known_examples /\ test = []).
Proof.
  apply (SplitDataset_sizes (rt := sample_runtime) known_examples nan 3).
  - apply sample_swaps.
  - by vm_compute.
Defined.

(* ------------------------------------------------------------------ *)
(** ** [LoadCSV] *)

Section LoaderFacts.
Context {uni : Unicode} {str : Strings}.

Lemma document_of_narrow record : ¬ wide record -> document_of record = None.
Proof.
  unfold wide. destruct record as [|f0 [|f1 rest]]; cbn; [done|done|lia].
Qed.

Lemma omap_document_of_wide (records : list (list string)) :
  omap document_of (filter wide records) = omap document_of records.
Proof.
  induction records as [|r records IH]; [done|].
  rewrite filter_cons. destruct (decide (wide r)) as [Hw|Hn].
  - cbn [omap list_omap]. by rewrite IH.
  - cbn [omap list_omap]. by rewrite (document_of_narrow r Hn).
Qed.

(** One record after the first row: the header is not looked for. *)
Lemma load_record_later docs row record :
  row ≠ 0 ->
  load_record (docs, row) record =
  (docs ++ option_list (document_of record),
   if decide (wide record) then incr row else row).
Proof.
  intros Hrow. unfold load_record, document_of, wide.
  destruct record as [|f0 [|f1 rest]].
  - rewrite decide_False by (cbn; lia). by rewrite app_nil_r.
  - rewrite decide_False by (cbn; lia). by rewrite app_nil_r.
  - rewrite decide_True by (cbn; lia).
    apply Z.eqb_neq in Hrow. rewrite Hrow. cbn [andb].
    destruct (String.eqb (TrimSpace f0) "" || String.eqb (TrimSpace f1) "");
      cbn [option_list]; by rewrite ?app_nil_r.
Qed.

Lemma read_loop_later (records : list (list string)) docs row :
  0 < row -> row + Z.of_nat (length records) <= MaxInt ->
  read_loop (csv_record <$> records) (docs, row) =
  nonempty_or_error (docs ++ omap document_of records).
Proof.
  revert docs row. induction records as [|r records IH]; intros docs row Hrow Hmax.
  - cbn. by rewrite app_nil_r.
  - cbn [fmap list_fmap read_loop]. rewrite load_record_later by lia.
    cbn [length] in Hmax.
    assert (incr row = row + 1) as Hincr
      by (apply incr_exact; unfold is_int, MinInt, MaxInt in *; lia).
    rewrite IH; cycle 1.
    { destruct (decide (wide r)); lia. }
    { destruct (decide (wide r)); lia. }
    f_equal. rewrite <- (assoc_L (++)). f_equal. cbn [omap list_omap].
    by destruct (document_of r).
Qed.

Lemma read_loop_first (records : list (list string)) :
  Z.of_nat (length records) <= MaxInt ->
  read_loop (csv_record <$> records) ([], 0) =
  nonempty_or_error (loaded_documents records).
Proof.
  intros Hmax. unfold loaded_documents.
  induction records as [|r records IH]; [done|].
  cbn [length] in Hmax. cbn [fmap list_fmap read_loop].
  rewrite filter_cons. destruct (decide (wide r)) as [Hw|Hn].
  - unfold wide in Hw. destruct r as [|f0 [|f1 rest]]; cbn in Hw; [lia|lia|].
    unfold load_record. cbn [Z.eqb andb].
    change (incr 0) with 1.
    destruct (looksLikeHeader (f0 :: f1 :: rest)).
    + rewrite read_loop_later by lia. by rewrite omap_document_of_wide.
    + cbn [omap list_omap document_of].
      destruct (String.eqb (TrimSpace f0) "" || String.eqb (TrimSpace f1) "").
      * rewrite read_loop_later by lia. by rewrite omap_document_of_wide.
      * rewrite read_loop_later by lia. by rewrite omap_document_of_wide.
  - replace (load_record ([], 0) r) with (([] : list Document), 0).
    + apply IH. lia.
    + unfold wide in Hn. unfold load_record.
      destruct r as [|f0 [|f1 rest]]; cbn in Hn; [done|done|lia].
Qed.

(** X11. A file that is read without error gives these documents: of the
    records with two fields or more, the first is left out if it looks like
    a header, also when shorter records come before it, and no later record
    is taken for a header; each of the others gives a document with the
    trimmed text and the trimmed, lower-cased label unless one of the two is
    blank. Without any document the result is the error that the dataset is
    empty, never an empty slice. *)
Theorem LoadCSV_documents os_Open path (records : list (list string)) :
  os_Open path = Value (csv_record <$> records) ->
  Z.of_nat (length records) <= MaxInt ->
  LoadCSV os_Open path =
    (if decide (loaded_documents records = [])
     then Error dataset_is_empty
     else Value (loaded_documents records)).
Proof.
  intros Hopen Hmax. unfold LoadCSV. rewrite Hopen.
  rewrite read_loop_first by done. unfold nonempty_or_error.
  destruct (loaded_documents records) as [|doc docs]; [done|].
  by rewrite decide_False.
Qed.

(** The row counter after some records. *)
Lemma load_record_row docs row record :
  (load_record (docs, row) record).2 =
  if decide (wide record) then incr row else row.
Proof.
  unfold load_record, wide. destruct record as [|f0 [|f1 rest]].
  - by rewrite decide_False by (cbn; lia).
  - by rewrite decide_False by (cbn; lia).
  - rewrite decide_True by (cbn; lia).
    destruct ((row =? 0) && looksLikeHeader (f0 :: f1 :: rest)); [done|].
    by destruct (String.eqb (TrimSpace f0) "" || String.eqb (TrimSpace f1) "").
Qed.

Lemma read_loop_error (records : list (list string)) err rest acc :
  exists row,
    Some row = bump (Z.of_nat (length (filter wide records))) (Some acc.2) /\
    read_loop ((csv_record <$> records) ++ csv_error err :: rest) acc =
    Error (read_dataset_line (incr row) err).
Proof.
  revert acc. induction records as [|r records IH]; intros acc.
  - exists acc.2. by destruct acc.
  - cbn [fmap list_fmap app read_loop].
    destruct (IH (load_record acc r)) as (row & Hrow & ->).
    exists row. split; [|done]. rewrite Hrow.
    destruct acc as [docs row0]. rewrite load_record_row. cbn [snd].
    rewrite filter_cons. destruct (decide (wide r)); [|done].
    change (Some (incr row0)) with (bump 1 (Some row0)).
    rewrite bump_bump by lia. f_equal. cbn [length]. lia.
Qed.

(** X12. When a call of [Read] fails, [LoadCSV] returns that error and
    none of the documents read before it. The line the error names is one
    more than the number of records with two fields or more read before:
    the shorter records are not counted. *)
Theorem LoadCSV_read_error os_Open path (records : list (list string)) err rest :
  os_Open path = Value ((csv_record <$> records) ++ csv_error err :: rest) ->
  LoadCSV os_Open path =
    Error (read_dataset_line
             (wrap (Z.of_nat (length (filter wide records)) + 1)) err).
Proof.
  intros Hopen. unfold LoadCSV. rewrite Hopen.
  destruct (read_loop_error records err rest ([], 0)) as (row & Hrow & ->).
  do 2 f_equal. cbn [snd] in Hrow. unfold bump in Hrow.
  destruct (Z.eqb_spec (Z.of_nat (length (filter wide records))) 0) as [E|_].
  - injection Hrow as ->. by rewrite E.
  - injection Hrow as ->. unfold incr. cbn. by rewrite wrap_wrap_add.
Qed.



End LoaderFacts.

Lemma LoadCSV_documents_witness :
  LoadCSV (uni := ascii_unicode) (str := ascii_strings) sample_files
    "data/sample.csv" =
  Value [ {| Text := "I love it"; Label := "positive" |};
          {| Text := "text of a review"; Label := "relabelled" |} ].
Proof.
  apply (LoadCSV_documents (uni := ascii_unicode) (str := ascii_strings)
           sample_files "data/sample.csv"
           [ ["only one field"]; [" Text "; "LABEL"; "note"];
             ["  I love it "; " Positive"]; ["   "; "negative"];
             ["text of a review"; "relabelled"]; [] ]).
  - reflexivity.
  - by vm_compute.
Defined.

Lemma LoadCSV_read_error_witness :
  LoadCSV (uni := ascii_unicode) (str := ascii_strings) sample_files
    "data/broken.csv" =
  Error (read_dataset_line 2 (library_error "parse error")).
Proof.
  apply (LoadCSV_read_error (uni := ascii_unicode) (str := ascii_strings)
           sample_files "data/broken.csv"
           [ ["good"; "positive"]; ["short"] ]
           (library_error "parse error") [ csv_record ["bad"; "negative"] ]).
  reflexivity.
Defined.

(* ------------------------------------------------------------------ *)
(** ** The command *)

Section CommandFacts.
Context {uni : Unicode} {str : Strings} {fl : Float64} {rt : Runtime}.

(** X14. The evaluation mode, when [rand.Shuffle] swaps within the slice:
    with fewer than two documents it returns the error that there are not
    enough samples and leaves the classifier as it was; with two or more it
    returns without error and without panic, whatever the classifier held
    before, also nil maps: the classifier is reset and trained on the
    training part only, both parts are non-empty, and the total of the
    metrics is the size of the test part, so the accuracy it prints is a
    quotient by a positive total. *)
Theorem runEvaluationMode_runs rng classifier docs split seed :
  swaps_within (Z.of_nat (length docs))
    (rand_Shuffle seed (Z.of_nat (length docs))) ->
  Z.of_nat (length docs) <= MaxInt ->
  ((length docs <= 1)%nat ->
     runEvaluationMode rng classifier docs split seed =
     Ok (classifier, Error not_enough_samples)) /\
  ((2 <= length docs)%nat ->
     exists train test classifier' report,
       SplitDataset docs split seed = Ok (train, test) /\
       runEvaluationMode rng classifier docs split seed =
         Ok (classifier', Value report) /\
       TrainBatch NewNaiveBayesClassifier train = Ok classifier' /\
       Measured report = Evaluate rng classifier' test /\
       TrainSize report = Z.of_nat (length train) /\
       TestSize report = Z.of_nat (length test) /\
       1 <= TrainSize report /\ 1 <= TestSize report /\
       TrainSize report + TestSize report = Z.of_nat (length docs) /\
       Total (Measured report) = TestSize report).
Proof.
  intros Hswaps Hmax.
  destruct (SplitDataset_returns docs split seed Hswaps Hmax)
    as (train & test & Hrun & Hperm & Hsmall & Hlarge).
  unfold runEvaluationMode. rewrite Hrun. cbn [mbind result_bind].
  split.
  - intros Hlen. destruct (Hsmall Hlen) as [-> ->]. done.
  - intros Hlen. destruct (Hlarge Hlen) as [Htrain Htest].
    pose proof (Permutation_length Hperm) as Hsum. rewrite length_app in Hsum.
    destruct (Z.eqb_spec (Z.of_nat (length test)) 0) as [E|_]; [lia|].
    change (Reset classifier) with NewNaiveBayesClassifier.
    rewrite New_counts, TrainBatch_batch_counts. cbn [mbind result_bind].
    eexists train, test, _, _. split; [done|]. split; [done|].
    cbn [TrainSize TestSize Measured]. rewrite Evaluate_Total.
    split; [apply TrainBatch_batch_counts|]. repeat split; lia.
Qed.

Lemma len_empty_iff {V : Type} (m : gmap string V) :
  (len (Some m) =? 0) = true <-> m = ∅.
Proof.
  cbn [len]. rewrite Z.eqb_eq. rewrite <- map_size_empty_iff. lia.
Qed.

(** X15. [printProbabilities] prints the notice for an empty map and else
    one line per class: every class of the map once, with its probability,
    in ascending order of the class names, whatever the order in which Go
    enumerates the map. *)
Theorem printProbabilities_sorted sch (probs : gmap string float64) :
  (forall sch', printProbabilities sch' probs = printProbabilities sch probs) /\
  (probs = ∅ -> printProbabilities sch probs = [no_probabilities]) /\
  (probs ≠ ∅ ->
   exists classes,
     printProbabilities sch probs =
       (fun class => class_probability class (default f_zero (probs !! class)))
         <$> classes /\
     StronglySorted string_le classes /\ NoDup classes /\
     (forall class, class ∈ classes <-> is_Some (probs !! class))).
Proof.
  destruct (sorted_keys sch (Some probs)) as (Hsch & Hsorted & Hnodup & Hin & _).
  unfold printProbabilities. split; [|split].
  - intros sch'. by rewrite Hsch.
  - intros E. by rewrite (proj2 (len_empty_iff probs) E).
  - intros Hne. destruct (len (Some probs) =? 0) eqn:E.
    { by apply len_empty_iff in E. }
    eexists. split; [done|]. split; [done|]. split; [done|].
    intros class. rewrite Hin. cbn [has_key].
    split; [apply bool_decide_eq_true_1|apply bool_decide_eq_true_2].
Qed.

End CommandFacts.

(** X16. [printConfusion] prints one line per actual label, in ascending
    order and each once, and on it the predicted labels of that row with
    their counts, in ascending order and each once, whatever the order in
    which Go enumerates the two levels of the table. *)
Theorem printConfusion_sorted sch (confusion : gmap string (gmap string Z)) :
  let lines := printConfusion sch confusion in
  (forall sch', printConfusion sch' confusion = lines) /\
  StronglySorted string_le lines.*1 /\ NoDup lines.*1 /\
  (forall actual, actual ∈ lines.*1 <-> is_Some (confusion !! actual)) /\
  (forall actual cells, (actual, cells) ∈ lines ->
     exists row, confusion !! actual = Some row /\
       StronglySorted string_le cells.*1 /\ NoDup cells.*1 /\
       (forall label n, (label, n) ∈ cells <-> row !! label = Some n)).
Proof.
  intros lines. subst lines.
  destruct (sorted_keys sch (Some confusion)) as (Hsch & Hsorted & Hnodup & Hin & _).
  unfold printConfusion.
  assert (forall (f : string -> string * list (string * Z)) (l : list string),
            (forall x, (f x).1 = x) -> (f <$> l).*1 = l) as Hfst.
  { intros f l Hf. rewrite <- list_fmap_compose.
    induction l as [|x l IH]; [done|]. cbn. by rewrite Hf, IH. }
  rewrite Hfst by done.
  split; [|split; [done|split; [done|split]]].
  - intros sch'. rewrite Hsch. apply list_fmap_ext. intros _ actual _.
    f_equal. f_equal.
    destruct (sorted_keys sch (Some (default ∅ (confusion !! actual))))
      as (Hrow & _). apply Hrow.
  - intros actual. rewrite Hin. cbn [has_key].
    split; [apply bool_decide_eq_true_1|apply bool_decide_eq_true_2].
  - intros actual cells Hcells.
    apply list_elem_of_fmap in Hcells as (actual' & [= <- ->] & Hactual).
    apply Hin in Hactual. cbn [has_key] in Hactual.
    apply bool_decide_eq_true_1 in Hactual as [row Hrow].
    exists row. split; [done|]. rewrite Hrow. cbn [from_option Datatypes.id].
    destruct (sorted_keys sch (Some row)) as (_ & Hs & Hn & Hi & _).
    assert (forall (l : list string),
              ((fun label => (label, default 0 (row !! label))) <$> l).*1 = l)
      as Hcell.
    { intros l. rewrite <- list_fmap_compose.
      induction l as [|x l IH]; [done|]. cbn. by rewrite IH. }
    rewrite Hcell. split; [done|]. split; [done|].
    intros label n. rewrite list_elem_of_fmap. split.
    + intros (label' & [= <- ->] & Hlabel). apply Hi in Hlabel.
      cbn [has_key] in Hlabel.
      apply bool_decide_eq_true_1 in Hlabel as [v Hv]. by rewrite Hv.
    + intros Hn'. exists label. rewrite Hn'. split; [done|].
      apply Hi. cbn [has_key]. apply bool_decide_eq_true_2. by eexists.
Qed.

Lemma runEvaluationMode_runs_witness :
  let classifier := LoadSnapshot in_order NewNaiveBayesClassifier absent_snapshot in
  exists train test classifier' report,
    SplitDataset (rt := sample_runtime) defaultTrainingData default_ratio 7 =
      Ok (train, test) /\
    runEvaluationMode (uni := ascii_unicode) (fl := sample_IEEE)
      (rt := sample_runtime) (fun _ => in_order) classifier
      defaultTrainingData default_ratio 7 = Ok (classifier', Value report) /\
    TrainBatch (uni := ascii_unicode) NewNaiveBayesClassifier train = Ok classifier' /\
    Measured report =
      Evaluate (uni := ascii_unicode) (fl := sample_IEEE) (fun _ => in_order)
        classifier' test /\
    TrainSize report = Z.of_nat (length train) /\
    TestSize report = Z.of_nat (length test) /\
    1 <= TrainSize report /\ 1 <= TestSize report /\
    TrainSize report + TestSize report = 20 /\
    Total (Measured report) = TestSize report.
Proof.
  intros classifier.
  apply (runEvaluationMode_runs (uni := ascii_unicode) (fl := sample_IEEE)
           (rt := sample_runtime) (fun _ => in_order) classifier
           defaultTrainingData default_ratio 7).
  - apply sample_swaps.
  - by vm_compute.
  - cbn. lia.
Defined.

(* ------------------------------------------------------------------ *)
(** ** The entries of the confusion table *)

Section EvaluateCounts.
Context {uni : Unicode} {fl : Float64}.

Lemma evaluate_step_lookup rng nb cf c i doc :
  let L0 := Label doc in
  let P0 := (Predict (rng i) nb (Text doc)).1 in
  let '(cf', c', i') := evaluate_step rng nb (cf, c, i) doc in
  i' = S i /\
  c' = (if decide (P0 = L0) then incr c else c) /\
  (forall L P, cell cf' L P =
     if decide ((L, P) = (L0, P0)) then incr (cell cf L P) else cell cf L P) /\
  (forall L, is_Some (cf' !! L) <-> L = L0 \/ is_Some (cf !! L)).
Proof.
  intros L0 P0. unfold evaluate_step. fold L0 P0.
  set (cf1 := match cf !! L0 with Some _ => cf | None => <[L0 := ∅]> cf end).
  assert (default ∅ (cf1 !! L0) = default ∅ (cf !! L0)) as Hrow.
  { unfold cf1. destruct (cf !! L0) eqn:H; [by rewrite H|].
    by rewrite lookup_insert_eq. }
  assert (forall r, <[L0 := r]> cf1 = <[L0 := r]> cf) as Hins.
  { intros r. unfold cf1. destruct (cf !! L0); [done|]. apply insert_insert_eq. }
  cbn zeta. rewrite Hrow, Hins.
  split; [done|]. split; [|split].
  - destruct (decide (P0 = L0)) as [->|Hne].
    + by rewrite String.eqb_refl.
    + apply String.eqb_neq in Hne. by rewrite Hne.
  - intros L P. unfold cell.
    destruct (decide (L = L0)) as [->|HL].
    + rewrite lookup_insert_eq. cbn [from_option Datatypes.id].
      destruct (decide (P = P0)) as [->|HP].
      * rewrite lookup_insert_eq. by rewrite decide_True.
      * rewrite lookup_insert_ne by done.
        by rewrite decide_False by (by intros [=]).
    + rewrite lookup_insert_ne by done.
      by rewrite decide_False by (by intros [=]).
  - intros L. destruct (decide (L = L0)) as [->|HL].
    + rewrite lookup_insert_eq. split; [by left|by eexists].
    + rewrite lookup_insert_ne by done. split; [by right|by intros [?|?]].
Qed.

Lemma evaluate_loop_lookup rng nb docs cf c i :
  let ps := predictions_from i rng nb docs in
  let '(cf', c', _) := foldl (evaluate_step rng nb) (cf, c, i) docs in
  Some c' = bump (Z.of_nat (length (filter (fun p => p.2 = p.1) ps))) (Some c) /\
  (forall L P, Some (cell cf' L P) =
     bump (Z.of_nat (length (filter (fun p => p = (L, P)) ps)))
       (Some (cell cf L P))) /\
  (forall L, is_Some (cf' !! L) <->
     (exists P, (L, P) ∈ ps) \/ is_Some (cf !! L)).
Proof.
  revert cf c i. induction docs as [|doc docs IH]; intros cf c i ps; subst ps.
  - cbn. split; [done|]. split; [done|]. intros L. split; [by right|].
    intros [[P HP]|H]; [by apply elem_of_nil in HP|done].
  - cbn [foldl predictions_from].
    pose proof (evaluate_step_lookup rng nb cf c i doc) as Hstep.
    destruct (evaluate_step rng nb (cf, c, i) doc) as [[cf1 c1] i1].
    cbn zeta in Hstep. destruct Hstep as (-> & Hc1 & Hcell1 & Hsome1).
    specialize (IH cf1 c1 (S i)). cbn zeta in IH.
    destruct (foldl (evaluate_step rng nb) (cf1, c1, S i) docs) as [[cf' c'] i'].
    destruct IH as (Hc & Hcell & Hsome).
    set (L0 := Label doc) in *.
    set (P0 := (Predict (rng i) nb (Text doc)).1) in *.
    split; [|split].
    + rewrite Hc, Hc1, filter_cons. cbn [fst snd].
      destruct (decide (P0 = L0)) as [E|Hne].
      * change (Some (incr c)) with (bump 1 (Some c)).
        rewrite bump_bump by lia. f_equal. cbn [length]. lia.
      * done.
    + intros L P. rewrite Hcell, Hcell1, filter_cons.
      destruct (decide ((L, P) = (L0, P0))) as [E|Hne].
      * rewrite decide_True by done.
        change (Some (incr (cell cf L P))) with (bump 1 (Some (cell cf L P))).
        rewrite bump_bump by lia. f_equal. cbn [length]. lia.
      * by rewrite decide_False by (by intros E; apply Hne).
    + intros L. rewrite Hsome, Hsome1. split.
      * intros [[P HP]|[->|H]]; [left|left|by right].
        -- exists P. by right.
        -- exists P0. by left.
      * intros [[P HP]|H]; [|by right; right].
        apply elem_of_cons in HP as [[= -> ->]|HP]; [right; by left|].
        left. by exists P.
Qed.

(** X17. The metrics [Evaluate] returns count what they name, in 64-bit
    arithmetic: [Correct] is the number of documents whose predicted label
    is their label, the entry [confusion[actual][predicted]] is the number
    of documents with that label and that prediction, and the table has a
    row for exactly the labels that occur. *)
Theorem Evaluate_counts rng nb docs :
  let m := Evaluate rng nb docs in
  let ps := predictions rng nb docs in
  Correct m = wrap (Z.of_nat (length (filter (fun p => p.2 = p.1) ps))) /\
  (forall L P, cell (Confusion m) L P =
     wrap (Z.of_nat (length (filter (fun p => p = (L, P)) ps)))) /\
  (forall L, is_Some (Confusion m !! L) <-> exists P, (L, P) ∈ ps).
Proof.
  intros m ps. subst m ps. unfold Evaluate, predictions.
  pose proof (evaluate_loop_lookup rng nb docs ∅ 0 0%nat) as H.
  cbn zeta in H.
  destruct (foldl (evaluate_step rng nb) (∅, 0, 0%nat) docs) as [[cf c] i].
  destruct H as (Hc & Hcell & Hsome). cbn [Correct Confusion].
  assert (forall n x, 0 <= n -> Some x = bump n (Some 0) -> x = wrap n) as Hb.
  { intros n x Hn. unfold bump. destruct (Z.eqb_spec n 0) as [->|_].
    - by intros [= ->].
    - by intros [= ->]. }
  split; [|split].
  - apply Hb; [lia|done].
  - intros L P. apply Hb; [lia|]. rewrite Hcell. unfold cell.
    by rewrite lookup_empty.
  - intros L. rewrite Hsome, lookup_empty. split; [|by left].
    intros [?|[? [=]]]; done.
Qed.

End EvaluateCounts.

Lemma TrainBatch_adds_witness :
  exists nb',
    TrainBatch (uni := ascii_unicode) known_model known_tests = Ok nb' /\
    totalDocs nb' = 4 /\
    get_int (classDocCounts nb') "positive" = 3 /\
    get_int (get_map (classWordCounts nb') "positive") "wonderful" = 2 /\
    get_int (classTotalWords nb') "positive" = 5 /\
    has_key (vocabulary nb') "awful" = true.
Proof.
  destruct (TrainBatch_adds (uni := ascii_unicode) known_model known_tests)
    as (nb' & Hrun & _ & Ht & Hd & Hw & Htot & Hv).
  - by exists known_counts.
  - exists nb'. split; [exact Hrun|].
    rewrite Ht, Hd, Hw, Htot.
    split; [by vm_compute|]. split; [by vm_compute|].
    split; [by vm_compute|]. split; [by vm_compute|].
    apply Hv. right. by vm_compute.
Defined.
